(** * Weierstrass form of a toric elliptic curve

    A shallow embedding of [sage/schemes/toric/weierstrass.py]: the support
    extractor, the homogeneity validator, the monomial coefficient
    extractor, the partial discriminant, the three family reducers and the
    discriminant and j-invariant built on them.

    Polynomials live in a ring [QQ[x_0, ..., x_{ngens-1}]].  A generator is
    its position in [R.gens()], a monomial is the multiset of its generators
    (the multiplicity of [i] is the exponent [e[i]] of the exponent tuple),
    and a polynomial is the finite map from its monomials to their non-zero
    rational coefficients, which is what iterating [for c, m in polynomial]
    enumerates.  Python dictionaries keyed by exponent tuples are finite maps
    keyed by [list nat]. *)

From Stdlib Require Import QArith Qcanon ZArith Lia Ring Field.
From stdpp Require Import base option list gmap gmultiset.

#[global] Instance Qc_eq_decision : EqDecision Qc := Qc_eq_dec.

(** ** Exceptions and results *)

Abbreviation var := nat.
Abbreviation mono := (gmultiset nat).
Abbreviation poly := (gmap (gmultiset nat) Qc).
Abbreviation pdict := (gmap (list nat) (gmap (gmultiset nat) Qc)).

(** Every failure in the module is a Python [ValueError] told apart by its
    message; [x.index], tuple indexing and tuple unpacking contribute their
    own. *)
Inductive error : Type :=
| TooManyOrFewVariables (got : list var)
| NotHomogeneous (weights : list Z)
| NotReflexive
| UnexpectedMonomials (remaining : pdict)
| UndefinedJInvariant
| NotAGenerator (x : var)
| IndexOutOfRange
| CannotUnpack.

Inductive result (A : Type) : Type :=
| OK (a : A)
| Raise (e : error).
Arguments OK {A} a.
Arguments Raise {A} e.

#[global] Instance result_bind : MBind result := fun A B k r =>
  match r with
  | OK a => k a
  | Raise e => Raise e
  end.
#[global] Instance result_ret : MRet result := fun A a => OK a.

(** ** Monomials *)

Definition mono_one : mono := ∅.

Definition mono_mul (m1 m2 : mono) : mono := m1 ⊎ m2.

#[global] Instance mono_mul_inj (m : mono) : Inj (=) (=) (mono_mul m).
Proof. unfold mono_mul. apply _. Qed.

(** [x**k] *)
Fixpoint var_pow (x : var) (k : nat) : mono :=
  match k with
  | O => mono_one
  | S k' => {[+ x +]} ⊎ var_pow x k'
  end.

(** [e[i]] for [e = m.exponents()[0]] *)
Definition exponent (m : mono) (i : nat) : nat := multiplicity i m.

(** [prod(x**i for x, i in zip(variables, v))] *)
Definition prod_pow (variables : list var) (v : list nat) : mono :=
  foldr mono_mul mono_one (zip_with var_pow variables v).

(** ** Polynomials over [QQ] *)

Local Open Scope Qc_scope.

Definition coeff (p : poly) (m : mono) : Qc := default 0 (p !! m).

(** A polynomial of the library never stores a zero coefficient. *)
Definition wf_poly (p : poly) : Prop := map_Forall (fun _ c => c <> 0) p.

Definition pzero : poly := ∅.

Definition pterm (c : Qc) (m : mono) : poly :=
  if decide (c = 0) then ∅ else {[ m := c ]}.

Definition pconst (c : Qc) : poly := pterm c mono_one.

Definition pone : poly := pconst 1.

Definition padd (p q : poly) : poly :=
  union_with (fun a b => let s := a + b in
                         if decide (s = 0) then None else Some s) p q.

Definition pneg (p : poly) : poly := Qcopp <$> p.

Definition psub (p q : poly) : poly := padd p (pneg q).

(** [c * p] for [c] in the base field *)
Definition pscale (c : Qc) (p : poly) : poly :=
  if decide (c = 0) then ∅ else Qcmult c <$> p.

(** [m * p] for a monomial [m] *)
Definition pmul_mono (m : mono) (p : poly) : poly := kmap (mono_mul m) p.

(** The polynomial a list of terms adds up to. *)
Definition of_terms (l : list (mono * Qc)) : poly :=
  foldr (fun t acc => padd (pterm t.2 t.1) acc) ∅ l.

(** Every term of the first list times every term of the second. *)
Definition term_products (l1 l2 : list (mono * Qc)) : list (mono * Qc) :=
  t1 ← l1; (fun t2 => (mono_mul t1.1 t2.1, t1.2 * t2.2)) <$> l2.

Definition pmul (p q : poly) : poly :=
  of_terms (term_products (map_to_list p) (map_to_list q)).

Fixpoint ppow (p : poly) (n : nat) : poly :=
  match n with
  | O => pone
  | S O => p
  | S n' => pmul p (ppow p n')
  end.

(** [p / n] for an integer [n], exact over [QQ] *)
Definition pdiv_int (p : poly) (n : Z) : poly :=
  pscale (/ Q2Qc (inject_Z n)) p.

(** [m // d] on monomials: the quotient of the division with remainder,
    which is zero when [d] does not divide [m]. *)
Definition mono_floordiv (m d : mono) : poly :=
  if decide (d ⊆ m) then {[ m ∖ d := 1 ]} else ∅.

(** [p // d] for a monomial [d]: the terms [d] divides, divided by it. *)
Definition pfloordiv_mono (p : poly) (d : mono) : poly :=
  map_fold (fun m c acc => padd (pscale c (mono_floordiv m d)) acc) ∅ p.

(** [R.gens().index(x)] *)
Definition gens_index (ngens : nat) (x : var) : result nat :=
  if decide (x < ngens)%nat then OK x else Raise (NotAGenerator x).

(** [polynomial.variables()]: the generators that occur, in ring order. *)
Definition poly_variables (ngens : nat) (p : poly) : list var :=
  filter (fun x => exists m, m ∈ dom p /\ x ∈ m) (seq 0 ngens).

(** ** Support extractor *)

Definition dget (d : pdict) (v : list nat) : poly := default pzero (d !! v).

(** The body of the loop [for c, m in polynomial]. *)
Definition support_step (variables : list var) (var_indices : list nat)
    (m : mono) (c : Qc) (result : pdict) : pdict :=
  let v := exponent m <$> var_indices in
  let m_red := mono_floordiv m (prod_pow variables v) in
  <[ v := padd (dget result v) (pscale c m_red) ]> result.

Definition Newton_polytope_vars_coeffs (ngens : nat) (polynomial : poly)
    (variables : list var) : result pdict :=
  var_indices ← mapM (gens_index ngens) variables;
  OK (map_fold (support_step variables var_indices) ∅ polynomial).

(** [sum(c * prod(x**i for x, i in zip(variables, v)) for v, c in d.items())],
    the sum the support extractor promises to give the polynomial back. *)
Definition reconstruct_step (variables : list var) (v : list nat) (c : poly)
    (acc : poly) : poly :=
  padd (pmul_mono (prod_pow variables v) c) acc.

Definition reconstruct (variables : list var) (d : pdict) : poly :=
  map_fold (reconstruct_step variables) ∅ d.

(** ** Homogeneity validator *)

(** [sum(e[variable_indices[i]] * weights[i] for i in range(n))] with
    [n = len(weights)]: the two lists are walked together, and running out
    of [variable_indices] is Python's [IndexError]. *)
Fixpoint weighted_degree (e : mono) (variable_indices : list nat)
    (weights : list Z) : result Z :=
  match weights with
  | [] => OK 0%Z
  | w :: ws =>
      match variable_indices with
      | [] => Raise IndexOutOfRange
      | j :: js =>
          rest ← weighted_degree e js ws;
          OK (Z.of_nat (exponent e j) * w + rest)%Z
      end
  end.

(** One turn of [for e in polynomial.exponents()], on the running value of
    [total_weight]. *)
Definition homogeneity_step (variable_indices : list nat) (weights : list Z)
    (e : mono) (state : result (option Z)) : result (option Z) :=
  total_weight ← state;
  weight_e ← weighted_degree e variable_indices weights;
  match total_weight with
  | None => OK (Some weight_e)
  | Some t =>
      if decide (weight_e = t) then OK (Some t)
      else Raise (NotHomogeneous weights)
  end.

(** The parameter [total_weight] is rebound to [None] before the loop, as in
    the source. *)
Definition _check_homogeneity (ngens : nat) (polynomial : poly)
    (variables : list var) (weights : list Z) (total_weight : option Z)
    : result unit :=
  variable_indices ← mapM (gens_index ngens) variables;
  let total_weight : option Z := None in
  _ ← map_fold (fun e _ state =>
                  homogeneity_step variable_indices weights e state)
               (OK total_weight) polynomial;
  OK tt.

(** ** Monomial coefficient extractor *)

(** The local function [index] *)
Definition monomial_index (indices : list nat) (monomial : mono) : list nat :=
  if decide (monomial = mono_one) then (fun _ => 0%nat) <$> indices
  else exponent monomial <$> indices.

(** [coeffs[i] = c*m + coeffs.pop(i, R.zero())] *)
Definition accumulate_step (indices : list nat) (m : mono) (c : Qc)
    (coeffs : pdict) : pdict :=
  let i := monomial_index indices m in
  let popped := dget coeffs i in
  <[ i := padd (pterm c m) popped ]> (delete i coeffs).

(** [coeffs.pop(index(m), R.zero()) // m], one requested monomial at a
    time, with the dictionary the pops leave behind. *)
Fixpoint service (indices : list nat) (monomials : list mono) (coeffs : pdict)
    : list poly * pdict :=
  match monomials with
  | [] => ([], coeffs)
  | m :: ms =>
      let i := monomial_index indices m in
      let q := pfloordiv_mono (dget coeffs i) m in
      let '(qs, rest) := service indices ms (delete i coeffs) in
      (q :: qs, rest)
  end.

Definition _extract_coefficients (ngens : nat) (polynomial : poly)
    (monomials : list mono) (variables : list var) : result (list poly) :=
  indices ← mapM (gens_index ngens) variables;
  let coeffs := map_fold (accumulate_step indices) ∅ polynomial in
  let '(result, coeffs) := service indices monomials coeffs in
  if decide (coeffs = ∅) then OK result
  else Raise (UnexpectedMonomials coeffs).

(** ** Partial discriminant *)

Definition _partial_discriminant (ngens : nat) (quadric : poly) (y0 : var)
    (y1 : option var) : result poly :=
  let '(monomials, variables) :=
    match y1 with
    | None => ([mono_one; var_pow y0 1; var_pow y0 2], [y0])
    | Some y1 =>
        ([var_pow y1 2; mono_mul (var_pow y0 1) (var_pow y1 1); var_pow y0 2],
         [y0; y1])
    end in
  c ← _extract_coefficients ngens quadric monomials variables;
  match c with
  | [c0; c1; c2] =>
      OK (psub (ppow c1 2) (pmul (pscale (Q2Qc 4) c0) c2))
  | _ => Raise IndexOutOfRange
  end.

(** ** Classical invariants, over any ring of coefficients *)

Declare Scope alg_scope.

Section Invariants.
Context {K : Type}.
Variables (radd rmul rsub : K -> K -> K).
(** The scalars of the base field, as elements of [K]. *)
Variable inj : Q -> K.

Fixpoint rpow (x : K) (n : nat) : K :=
  match n with
  | O => inj 1
  | S O => x
  | S n' => rmul x (rpow x n')
  end.

Local Notation "x + y" := (radd x y) : alg_scope.
Local Notation "x - y" := (rsub x y) : alg_scope.
Local Notation "x * y" := (rmul x y) : alg_scope.
Local Notation "x ^ n" := (rpow x n%nat) : alg_scope.
Local Notation "[ n ]" := (inj (inject_Z n%Z)) : alg_scope.
Local Open Scope alg_scope.

(** The ten coefficients of
    [a30 x^3 + a21 x^2 y + a12 x y^2 + a03 y^3 + a20 x^2 z + a11 x y z
     + a02 y^2 z + a10 x z^2 + a01 y z^2 + a00 z^3]. *)
Record TernaryCubic : Type := {
  a30 : K; a21 : K; a12 : K; a03 : K; a20 : K;
  a11 : K; a02 : K; a10 : K; a01 : K; a00 : K
}.

(** Modelled from the spec: [S_invariant] of [invariant_theory.ternary_cubic]
    (sage.rings.invariants, not part of these sources), the Aronhold
    invariant of degree 4 of section 4.6, in the normalisation that the
    expansion in the docstring of [WeierstrassForm_P2] pins down. *)
Definition aronhold_S (C : TernaryCubic) : K :=
  let a := a30 C in let b := a03 C in let c := a00 C in
  let a2 := inj (1#3) * a21 C in let a3 := inj (1#3) * a20 C in
  let b1 := inj (1#3) * a12 C in let b3 := inj (1#3) * a02 C in
  let c1 := inj (1#3) * a10 C in let c2 := inj (1#3) * a01 C in
  let m := inj (1#6) * a11 C in
  a*b*c*m - (b*c*a2*a3 + c*a*b1*b3 + a*b*c1*c2)
  - m*(a*b3*c2 + b*c1*a3 + c*a2*b1)
  + (a*b1*c2^2 + a*c1*b3^2 + b*a2*c1^2 + b*c2*a3^2 + c*b3*a2^2 + c*a3*b1^2)
  - m^4 + [2]*m^2*(b1*c1 + c2*a2 + a3*b3)
  - [3]*m*(a2*b3*c1 + a3*b1*c2)
  - (b1^2*c1^2 + c2^2*a2^2 + a3^2*b3^2)
  + (c2*a2*a3*b3 + a3*b3*b1*c1 + b1*c1*c2*a2).

(** Modelled from the spec: [T_invariant] of [invariant_theory.ternary_cubic],
    the Aronhold invariant of degree 6 of section 4.6, normalised like
    [aronhold_S]. *)
Definition aronhold_T (C : TernaryCubic) : K :=
  let a := a30 C in let b := a03 C in let c := a00 C in
  let a2 := inj (1#3) * a21 C in let a3 := inj (1#3) * a20 C in
  let b1 := inj (1#3) * a12 C in let b3 := inj (1#3) * a02 C in
  let c1 := inj (1#3) * a10 C in let c2 := inj (1#3) * a01 C in
  let m := inj (1#6) * a11 C in
  a^2*b^2*c^2 - [6]*a*b*c*(a*b3*c2 + b*c1*a3 + c*a2*b1)
  - [20]*a*b*c*m^3 + [12]*a*b*c*m*(b1*c1 + c2*a2 + a3*b3)
  + [6]*a*b*c*(a2*b3*c1 + a3*b1*c2)
  + [4]*(a^2*b*c2^3 + a^2*c*b3^3 + b^2*c*a3^3
       + b^2*a*c1^3 + c^2*a*b1^3 + c^2*b*a2^3)
  + [36]*m^2*(b*c*a2*a3 + c*a*b1*b3 + a*b*c1*c2)
  - [24]*m*(b*c*b1*a3^2 + b*c*c1*a2^2 + c*a*c2*b1^2
          + c*a*a2*b3^2 + a*b*a3*c2^2 + a*b*b3*c1^2)
  - [3]*(a^2*b3^2*c2^2 + b^2*c1^2*a3^2 + c^2*a2^2*b1^2)
  + [18]*(b*c*b1*c1*a2*a3 + c*a*c2*a2*b3*b1 + a*b*a3*b3*c1*c2)
  - [12]*(b*c*c2*a3*a2^2 + b*c*b3*a2*a3^2 + c*a*c1*b3*b1^2
        + c*a*a3*b1*b3^2 + a*b*a2*c1*c2^2 + a*b*b1*c2*c1^2)
  - [12]*m^3*(a*b3*c2 + b*c1*a3 + c*a2*b1)
  + [12]*m^2*(a*b1*c2^2 + a*c1*b3^2 + b*a2*c1^2
            + b*c2*a3^2 + c*b3*a2^2 + c*a3*b1^2)
  - [60]*m*(a*b1*b3*c1*c2 + b*c1*c2*a2*a3 + c*a2*a3*b1*b3)
  + [12]*m*(a*a2*b3*c2^2 + a*a3*c2*b3^2 + b*b3*c1*a3^2
          + b*b1*a3*c1^2 + c*c1*a2*b1^2 + c*c2*b1*a2^2)
  + [6]*(a*b3*c2 + b*c1*a3 + c*a2*b1)*(a2*b3*c1 + a3*b1*c2)
  + [24]*(a*b1*b3^2*c1^2 + a*c1*c2^2*b1^2 + b*c2*c1^2*a2^2
        + b*a2*a3^2*c2^2 + c*a3*a2^2*b3^2 + c*b3*b1^2*a3^2)
  - [12]*(a*a2*b1*c2^3 + a*a3*c1*b3^3 + b*b3*c2*a3^3
        + b*b1*a2*c1^3 + c*c1*a3*b1^3 + c*c2*b3*a2^3)
  - [8]*m^6 + [24]*m^4*(b1*c1 + c2*a2 + a3*b3)
  - [36]*m^3*(a2*b3*c1 + a3*b1*c2)
  - [12]*m^2*(b1*c1*c2*a2 + c2*a2*a3*b3 + a3*b3*b1*c1)
  - [24]*m^2*(b1^2*c1^2 + c2^2*a2^2 + a3^2*b3^2)
  + [36]*m*(a2*b3*c1 + a3*b1*c2)*(b1*c1 + c2*a2 + a3*b3)
  + [8]*(b1^3*c1^3 + c2^3*a2^3 + a3^3*b3^3)
  - [27]*(a2^2*b3^2*c1^2 + a3^2*b1^2*c2^2) - [6]*b1*c1*c2*a2*a3*b3
  - [12]*(b1^2*c1^2*c2*a2 + b1^2*c1^2*a3*b3 + c2^2*a2^2*a3*b3
        + c2^2*a2^2*b1*c1 + a3^2*b3^2*b1*c1 + a3^2*b3^2*c2*a2).

(** The coefficients of
    [e0 x0^4 + 4 e1 x0^3 x1 + 6 e2 x0^2 x1^2 + 4 e3 x0 x1^3 + e4 x1^4]. *)
Record BinaryQuartic : Type := {
  e0 : K; e1 : K; e2 : K; e3 : K; e4 : K
}.

(** Modelled from the spec: [EisensteinD] of
    [invariant_theory.binary_quartic] (sage.rings.invariants, not part of
    these sources), the invariant [I] of section 4.7. *)
Definition EisensteinD (Q : BinaryQuartic) : K :=
  e0 Q * e4 Q + [3] * e2 Q ^ 2 - [4] * e1 Q * e3 Q.

(** Modelled from the spec: [EisensteinE] of
    [invariant_theory.binary_quartic]; section 4.7 gives its negative, the
    invariant [J]. *)
Definition EisensteinE (Q : BinaryQuartic) : K :=
  e0 Q * e3 Q ^ 2 + e1 Q ^ 2 * e4 Q - e0 Q * e2 Q * e4 Q
  - [2] * e1 Q * e2 Q * e3 Q + e2 Q ^ 3.

(** The invariants of section 4.7, as the spec writes them. *)
Definition quartic_I (Q : BinaryQuartic) : K :=
  e0 Q * e4 Q - [4] * e1 Q * e3 Q + [3] * e2 Q ^ 2.

Definition quartic_J (Q : BinaryQuartic) : K :=
  e0 Q * e2 Q * e4 Q - e0 Q * e3 Q ^ 2 - e1 Q ^ 2 * e4 Q
  + [2] * e1 Q * e2 Q * e3 Q - e2 Q ^ 3.
End Invariants.

Arguments TernaryCubic K : clear implicits.
Arguments BinaryQuartic K : clear implicits.

(** ** The invariants over the polynomial ring *)

Definition pinj (q : Q) : poly := pconst (Q2Qc q).

Definition S_invariant (C : TernaryCubic poly) : poly :=
  aronhold_S padd pmul psub pinj C.

Definition T_invariant (C : TernaryCubic poly) : poly :=
  aronhold_T padd pmul psub pinj C.

(** Modelled from the spec: [invariant_theory.ternary_cubic(polynomial, x, y,
    z)] reads the ten coefficients of section 4.6 with the extractor of
    section 4.5, [z] being 1 when only two variables are given; the order of
    the monomials is that of the docstring of [_extract_coefficients]. *)
Definition ternary_cubic (ngens : nat) (polynomial : poly) (x y : var)
    (z : option var) : result (TernaryCubic poly) :=
  c ← match z with
      | Some z =>
          _extract_coefficients ngens polynomial
            [var_pow x 3; var_pow y 3; var_pow z 3;
             mono_mul (var_pow x 2) (var_pow y 1);
             mono_mul (var_pow x 2) (var_pow z 1);
             mono_mul (var_pow x 1) (var_pow y 2);
             mono_mul (var_pow y 2) (var_pow z 1);
             mono_mul (var_pow x 1) (var_pow z 2);
             mono_mul (var_pow y 1) (var_pow z 2);
             mono_mul (var_pow x 1) (mono_mul (var_pow y 1) (var_pow z 1))]
            [x; y; z]
      | None =>
          _extract_coefficients ngens polynomial
            [var_pow x 3; var_pow y 3; mono_one;
             mono_mul (var_pow x 2) (var_pow y 1); var_pow x 2;
             mono_mul (var_pow x 1) (var_pow y 2); var_pow y 2;
             var_pow x 1; var_pow y 1;
             mono_mul (var_pow x 1) (var_pow y 1)]
            [x; y]
      end;
  match c with
  | [c30; c03; c00; c21; c20; c12; c02; c10; c01; c11] =>
      OK {| a30 := c30; a21 := c21; a12 := c12; a03 := c03; a20 := c20;
            a11 := c11; a02 := c02; a10 := c10; a01 := c01; a00 := c00 |}
  | _ => Raise IndexOutOfRange
  end.

(** Modelled from the spec: [invariant_theory.binary_quartic(delta, x, y)]
    reads [delta] as the quartic of section 4.7 with the same extractor and
    the binomial normalisation, [y] being 1 when it is [None]. *)
Definition binary_quartic (ngens : nat) (delta : poly) (x : var)
    (y : option var) : result (BinaryQuartic poly) :=
  c ← match y with
      | Some y =>
                  _extract_coefficients ngens delta
            [var_pow x 4; mono_mul (var_pow x 3) (var_pow y 1);
             mono_mul (var_pow x 2) (var_pow y 2);
             mono_mul (var_pow x 1) (var_pow y 3); var_pow y 4]
            [x; y]
      | None =>
          _extract_coefficients ngens delta
            [var_pow x 4; var_pow x 3; var_pow x 2; var_pow x 1; mono_one]
            [x]
      end;
  match c with
  | [c0; c1; c2; c3; c4] =>
      OK {| e0 := c0; e1 := pdiv_int c1 4; e2 := pdiv_int c2 6;
            e3 := pdiv_int c3 4; e4 := c4 |}
  | _ => Raise IndexOutOfRange
  end.

(** ** Cubic in [P^2] *)

Definition default_variables (ngens : nat) (polynomial : poly)
    (variables : option (list var)) : list var :=
  match variables with
  | None => poly_variables ngens polynomial
  | Some vs => vs
  end.

Definition _check_polynomial_P2 (ngens : nat) (cubic : poly)
    (variables : option (list var)) : result (var * var * option var) :=
  let variables := default_variables ngens cubic variables in
  match variables with
  | [x; y; z] =>
      _ ← _check_homogeneity ngens cubic [x; y; z] [1; 1; 1]%Z (Some 3%Z);
      OK (x, y, Some z)
  | [x; y] => OK (x, y, None)
  | _ => Raise (TooManyOrFewVariables variables)
  end.

Definition WeierstrassForm_P2 (ngens : nat) (polynomial : poly)
    (variables : option (list var)) : result (poly * poly) :=
  '(x, y, z) ← _check_polynomial_P2 ngens polynomial variables;
  cubic ← ternary_cubic ngens polynomial x y z;
  let S := S_invariant cubic in
  let T := T_invariant cubic in
  OK (pscale (Q2Qc 27) S, pscale (- Q2Qc 27 / Q2Qc 4) T).

(** ** Biquadric in [P^1 x P^1] *)

Definition _check_polynomial_P1xP1 (ngens : nat) (biquadric : poly)
    (variables : option (list var))
    : result (var * option var * var * option var) :=
  let variables := default_variables ngens biquadric variables in
  match variables with
  | [x; y; s; t] =>
      _ ← _check_homogeneity ngens biquadric variables [1; 1; 0; 0]%Z
            (Some 2%Z);
      _ ← _check_homogeneity ngens biquadric variables [0; 0; 1; 1]%Z
            (Some 2%Z);
      OK (x, Some y, s, Some t)
  | [v0; v1] => OK (v0, None, v1, None)
  | _ => Raise (TooManyOrFewVariables variables)
  end.

Definition WeierstrassForm_P1xP1 (ngens : nat) (biquadric : poly)
    (variables : option (list var)) : result (poly * poly) :=
  '(x, y, s, t) ← _check_polynomial_P1xP1 ngens biquadric variables;
  delta ← _partial_discriminant ngens biquadric s t;
  Q ← binary_quartic ngens delta x y;
  let g2 := EisensteinD padd pmul psub pinj Q in
  let g3 := pneg (EisensteinE padd pmul psub pinj Q) in
  OK (pdiv_int (pneg g2) 4, pdiv_int (pneg g3) 4).

(** ** Anticanonical hypersurface in [P^2[1,1,2]] *)

Definition _check_polynomial_P2_112 (ngens : nat) (polynomial : poly)
    (variables : option (list var))
    : result (var * var * option var * option var) :=
  let variables := default_variables ngens polynomial variables in
  match variables with
  | [x; y; z; t] =>
      _ ← _check_homogeneity ngens polynomial variables [1; 0; 1; -2]%Z
            (Some 0%Z);
      _ ← _check_homogeneity ngens polynomial variables [0; 1; 0; 1]%Z
            (Some 2%Z);
      OK (x, y, Some z, Some t)
  | [v0; v1] => OK (v0, v1, None, None)
  | _ => Raise (TooManyOrFewVariables variables)
  end.

Definition WeierstrassForm_P2_112 (ngens : nat) (polynomial : poly)
    (variables : option (list var)) : result (poly * poly) :=
  '(x, y, z, t) ← _check_polynomial_P2_112 ngens polynomial variables;
  delta ← _partial_discriminant ngens polynomial y t;
  Q ← binary_quartic ngens delta x z;
  let g2 := EisensteinD padd pmul psub pinj Q in
  let g3 := pneg (EisensteinE padd pmul psub pinj Q) in
  OK (pdiv_int (pneg g2) 4, pdiv_int (pneg g3) 4).

(** ** Dispatch on the Newton polygon *)

Inductive family : Type := Cubic | Biquadric | WeightedQuartic.

(** [WeierstrassForm] takes one polynomial or a list of them, and returns
    the pair [(f, g)] or the triple of a transformation. *)
Inductive input : Type :=
| Single (p : poly)
| Several (ps : list poly).

Inductive output : Type :=
| Coefficients (f g : poly)
| Transformation (X Y Z : poly).

(** The j-invariant is a quotient in the fraction field or [+Infinity]. *)
Inductive jvalue : Type :=
| Quotient (num den : poly)
| Infinity.

Section Dispatch.
(** Modelled from the spec: the polytope classifier of section 4.2
    ([LatticePolytope_PPL] and [embed_in_reflexive_polytope] of
    sage.geometry, not part of these sources).  From the exponent tuples of
    the support it gives the family of the reference polygon and the
    embedding of the points, or fails. *)
Variable classify :
  list (list nat) -> option (family * (list nat -> nat * nat)).

(** The complete-intersection and covering-map collaborators
    ([weierstrass_higher], [weierstrass_covering]), out of scope. *)
Variable WeierstrassForm2 :
  nat -> list poly -> option (list var) -> bool -> result output.
Variable WeierstrassMap : nat -> poly -> option (list var) -> result output.

Definition Newton_polygon_embedded (ngens : nat) (polynomial : poly)
    (variables : list var) : result (family * poly * list var) :=
  p_dict ← Newton_polytope_vars_coeffs ngens polynomial variables;
  match classify (map_to_list p_dict).*1 with
  | None => Raise NotReflexive
  | Some (polygon, embedding) =>
      match variables with
      | x :: y :: _ =>
          let embedded_polynomial :=
            map_fold (fun e c acc =>
                let e_embed := embedding e in
                padd acc (pmul (pmul c (pterm 1 (var_pow x e_embed.1)))
                               (pterm 1 (var_pow y e_embed.2))))
              pzero p_dict in
          OK (polygon, embedded_polynomial, [x; y])
      | _ => Raise CannotUnpack
      end
  end.

Definition WeierstrassForm (ngens : nat) (polynomial : input)
    (variables : option (list var)) (transformation : bool)
    : result output :=
  match polynomial with
  | Several ps => WeierstrassForm2 ngens ps variables transformation
  | Single p =>
      if transformation then WeierstrassMap ngens p variables
      else
        let variables := default_variables ngens p variables in
        '(polygon, polynomial, variables) ←
          Newton_polygon_embedded ngens p variables;
        '(f, g) ←
          match polygon with
          | Cubic => WeierstrassForm_P2 ngens polynomial (Some variables)
          | Biquadric =>
              WeierstrassForm_P1xP1 ngens polynomial (Some variables)
          | WeightedQuartic =>
              WeierstrassForm_P2_112 ngens polynomial (Some variables)
          end;
        OK (Coefficients f g)
  end.

(** [4*f**3 + 27*g**2] *)
Definition discriminant_of (f g : poly) : poly :=
  padd (pscale (Q2Qc 4) (ppow f 3)) (pscale (Q2Qc 27) (ppow g 2)).

Definition Discriminant (ngens : nat) (polynomial : input)
    (variables : option (list var)) : result poly :=
  out ← WeierstrassForm ngens polynomial variables false;
  match out with
  | Coefficients f g => OK (discriminant_of f g)
  | Transformation _ _ _ => Raise CannotUnpack
  end.

Definition j_invariant (ngens : nat) (polynomial : input)
    (variables : option (list var)) : result jvalue :=
  out ← WeierstrassForm ngens polynomial variables false;
  match out with
  | Coefficients f g =>
      let disc := discriminant_of f g in
      if decide (disc ≠ pzero) then
        OK (Quotient (pscale (Q2Qc 1728 * Q2Qc 4) (ppow f 3)) disc)
      else if decide (f ≠ pzero) then OK Infinity
      else Raise UndefinedJInvariant
  | Transformation _ _ _ => Raise CannotUnpack
  end.
End Dispatch.

(** ** Predicates of the specification *)

(** What the dictionary of the support extractor holds once the terms [p]
    have been visited: every stored value is a non-empty sum of terms of [p]
    with the generators of interest divided out, and every term of [p] is
    stored under the tuple of its exponents. *)
Definition support_inv (variables : list var) (result : pdict) (p : poly)
    : Prop :=
  (forall v q, result !! v = Some q ->
     q <> ∅ /\
     forall mr c, q !! mr = Some c ->
       p !! (mr ⊎ prod_pow variables v) = Some c /\
       v = exponent (mr ⊎ prod_pow variables v) <$> variables) /\
  (forall m c, p !! m = Some c ->
     exists q, result !! (exponent m <$> variables) = Some q /\
       q !! (m ∖ prod_pow variables (exponent m <$> variables)) = Some c).

(** Every stored term sits under the tuple of its own exponents. *)
Definition support_keyed (variables : list var) (d : pdict) : Prop :=
  forall v q mr c, d !! v = Some q -> q !! mr = Some c ->
    v = exponent (mr ⊎ prod_pow variables v) <$> variables.

(** ** Polynomials of the docstrings *)

(** A polynomial from its terms, each the exponents of
    [x_0, x_1, ...] and a coefficient. *)
Definition poly_of (l : list (list nat * Q)) : poly :=
  of_terms ((fun t => (prod_pow (seq 0 (length t.1)) t.1, Q2Qc t.2)) <$> l).

(** [x^3 + y^3 + z^3] in [QQ[x, y, z]] *)
Definition fermat_cubic : poly :=
  poly_of [([3; 0; 0]%nat, 1%Q); ([0; 3; 0]%nat, 1%Q); ([0; 0; 3]%nat, 1%Q)].

(** [x^3 + a*y^3 + a^2*z^3] in [QQ[x, y, z, a]] *)
Definition twisted_cubic : poly :=
  poly_of [([3; 0; 0; 0]%nat, 1%Q); ([0; 3; 0; 1]%nat, 1%Q);
           ([0; 0; 3; 2]%nat, 1%Q)].

(** ** Coefficientwise equality and sums of term lists *)

(** Two polynomials with the same coefficient at every monomial. *)
Definition peq (p q : poly) : Prop := forall k, coeff p k = coeff q k.

(** The coefficient of [k] in the sum of a list of terms. *)
Fixpoint tcoeff (l : list (mono * Qc)) (k : mono) : Qc :=
  match l with
  | [] => 0
  | t :: l' => (if decide (k = t.1) then t.2 else 0) + tcoeff l' k
  end.

(** One term times every term of a list. *)
Definition term_mul (t : mono * Qc) (l : list (mono * Qc)) : list (mono * Qc) :=
  (fun t2 => (mono_mul t.1 t2.1, t.2 * t2.2)) <$> l.

(** ** The three families side by side *)

Definition family_reducer (F : family)
    : nat -> poly -> option (list var) -> result (poly * poly) :=
  match F with
  | Cubic => WeierstrassForm_P2
  | Biquadric => WeierstrassForm_P1xP1
  | WeightedQuartic => WeierstrassForm_P2_112
  end.

(** The number of homogeneous coordinates of the family. *)
Definition homogeneous_count (F : family) : nat :=
  match F with
  | Cubic => 3
  | Biquadric => 4
  | WeightedQuartic => 4
  end.

#[global] Instance error_eq_dec : EqDecision error.
Proof. solve_decision. Defined.
#[global] Instance result_eq_dec `{EqDecision A} : EqDecision (result A).
Proof. solve_decision. Defined.
#[global] Instance output_eq_dec : EqDecision output.
Proof. solve_decision. Defined.
#[global] Instance jvalue_eq_dec : EqDecision jvalue.
Proof. solve_decision. Defined.

(** A closed goal settled by evaluating its decision procedure. *)
Ltac by_evaluation := apply (bool_decide_unpack _); vm_compute; reflexivity.

(** [x^4] in [QQ[x, y, z]] *)
Definition quartic_power : poly := poly_of [([4; 0; 0]%nat, 1%Q)].

(** [x^3 + y^3 + 1] in [QQ[x, y]] *)
Definition affine_fermat_cubic : poly :=
  poly_of [([3; 0]%nat, 1%Q); ([0; 3]%nat, 1%Q); ([0; 0]%nat, 1%Q)].

(** Collaborators for the examples: a classifier that sends every support to
    the cubic family and keeps the first two exponents, and collaborators
    for lists of polynomials and for transformations that decline. *)
Definition cubic_classifier (support : list (list nat))
    : option (family * (list nat -> nat * nat)) :=
  Some (Cubic, fun e => (e !!! 0%nat, e !!! 1%nat)).

Definition no_WeierstrassForm2 (ngens : nat) (ps : list poly)
    (variables : option (list var)) (transformation : bool) : result output :=
  Raise NotReflexive.

Definition no_WeierstrassMap (ngens : nat) (p : poly)
    (variables : option (list var)) : result output :=
  Raise NotReflexive.

(** [-y^2 + x^2 + x^3] in [QQ[x, y]] *)
Definition nodal_cubic : poly :=
  poly_of [([0; 2]%nat, (-1)%Q); ([2; 0]%nat, 1%Q); ([3; 0]%nat, 1%Q)].

(** [x*y*z] in [QQ[x, y, z]] *)
Definition triangle_cubic : poly := poly_of [([1; 1; 1]%nat, 1%Q)].

(** ** Leading monomials *)

(** Among the monomials [S], those of greatest exponent in the first
    variable, among these those of greatest exponent in the second, and so
    on down the list of variables. *)
Fixpoint leading (vars : list var) (S : list mono) : list mono :=
  match vars with
  | [] => S
  | x :: vs =>
      let d := max_list ((fun m => exponent m x) <$> S) in
      leading vs (filter (fun m => exponent m x = d) S)
  end.

(** ** What the coefficient extractor computes *)

(** The terms of [p] whose exponents in the variables are the tuple [i]. *)
Definition index_class (variables : list var) (p : poly) (i : list nat)
    : poly :=
  filter (fun t => monomial_index variables t.1 = i) p.

(** The coefficient of the monomial [m] in [p], the other generators being
    parameters: the terms with the exponents of [m] in the variables, with
    [m] divided out. *)
Definition coefficient_of (variables : list var) (p : poly) (m : mono)
    : poly :=
  pfloordiv_mono (index_class variables p (monomial_index variables m)) m.

(** The dictionary [coeffs] after the loop over the polynomial. *)
Definition accumulated (variables : list var) (p : poly) : pdict :=
  map_fold (accumulate_step variables) ∅ p.

(** The answers in request order: a monomial whose exponents were already
    requested finds its entry popped and gets zero. *)
Definition requested_coefficients (variables : list var) (p : poly)
    (monomials : list mono) : list poly :=
  imap (fun k m =>
          if decide (monomial_index variables m
                     ∈ take k (monomial_index variables <$> monomials))
          then pzero
          else coefficient_of variables p m)
       monomials.

(** The entries no requested monomial matches. *)
Definition unmatched (variables : list var) (p : poly)
    (monomials : list mono) : pdict :=
  filter (fun e => e.1 ∉ monomial_index variables <$> monomials)
         (accumulated variables p).

(** ** What the partial discriminant is computed from *)

(** The polynomial is a quadratic form in the pair [(y0, y1)], or at most
    quadratic in [y0] alone. *)
Definition quadratic_in (quadric : poly) (y0 : var) (y1 : option var) : Prop :=
  match y1 with
  | Some y1 =>
      y0 <> y1 /\
      forall m c, quadric !! m = Some c ->
        (exponent m y0 + exponent m y1 = 2)%nat
  | None =>
      forall m c, quadric !! m = Some c -> (exponent m y0 <= 2)%nat
  end.

(** The coefficients [(c2, c1, c0)] of [y1^2, y0*y1, y0^2], or of
    [1, y0, y0^2] when there is no [y1]. *)
Definition quadratic_coefficients (quadric : poly) (y0 : var)
    (y1 : option var) : poly * poly * poly :=
  match y1 with
  | Some y1 =>
      (coefficient_of [y0; y1] quadric (var_pow y1 2),
       coefficient_of [y0; y1] quadric (mono_mul (var_pow y0 1) (var_pow y1 1)),
       coefficient_of [y0; y1] quadric (var_pow y0 2))
  | None =>
      (coefficient_of [y0] quadric mono_one,
       coefficient_of [y0] quadric (var_pow y0 1),
       coefficient_of [y0] quadric (var_pow y0 2))
  end.

(** ** Scaling a cubic *)

(** Every coefficient of the cubic multiplied by [t]. *)
Definition scale_cubic (t : poly) (C : TernaryCubic poly) : TernaryCubic poly :=
  {| a30 := pmul t (a30 C); a21 := pmul t (a21 C); a12 := pmul t (a12 C);
     a03 := pmul t (a03 C); a20 := pmul t (a20 C); a11 := pmul t (a11 C);
     a02 := pmul t (a02 C); a10 := pmul t (a10 C); a01 := pmul t (a01 C);
     a00 := pmul t (a00 C) |}.

(** [x^2*y^2 + x^2 + y^2 + 1] in [QQ[x, y]] *)
Definition product_biquadric : poly :=
  poly_of [([2; 2]%nat, 1%Q); ([2; 0]%nat, 1%Q); ([0; 2]%nat, 1%Q);
           ([0; 0]%nat, 1%Q)].

(** ** Weighted degrees *)

(** The weighted degree of a monomial when every weight has its variable. *)
Fixpoint total_degree (e : mono) (variable_indices : list nat)
    (weights : list Z) : Z :=
  match weights, variable_indices with
  | w :: ws, j :: js =>
      (Z.of_nat (exponent e j) * w + total_degree e js ws)%Z
  | _, _ => 0%Z
  end.

(** What the loop of the validator has seen of the terms visited so far. *)
Definition homogeneity_inv (variables : list var) (weights : list Z)
    (state : result (option Z)) (p : poly) : Prop :=
  match state with
  | OK None => p = ∅
  | OK (Some t) =>
      p <> ∅ /\
      forall m c, p !! m = Some c -> total_degree m variables weights = t
  | Raise e =>
      e = NotHomogeneous weights /\
      exists m1 c1 m2 c2, p !! m1 = Some c1 /\ p !! m2 = Some c2 /\
        total_degree m1 variables weights <> total_degree m2 variables weights
  end.

(** The dictionary of the extractor holds, under each tuple, the terms seen
    so far with these exponents, and no empty entry. *)
Definition accumulated_inv (variables : list var) (coeffs : pdict) (p : poly)
    : Prop :=
  forall i, coeffs !! i =
    if decide (index_class variables p i = ∅) then None
    else Some (index_class variables p i).

(** ** The normalisation of the cubic invariants *)

(** The expansion of [WeierstrassForm_P2] on the general cubic that the
    docstring of the source records, over the rationals. *)
Section Docstring.
Local Open Scope Q_scope.
Variables c30 c21 c12 c03 c20 c11 c02 c10 c01 c00 : Q.

Definition docstring_f : Q :=
-(1#48)*c11^4 + (1#6)*c20*c11^2*c02 - (1#3)*c20^2*c02^2
- (1#2)*c03*c20*c11*c10 + (1#6)*c12*c11^2*c10 + (1#3)*c12*c20*c02*c10
- (1#2)*c21*c11*c02*c10 + c30*c02^2*c10 - (1#3)*c12^2*c10^2
+ c21*c03*c10^2 + c03*c20^2*c01 - (1#2)*c12*c20*c11*c01
+ (1#6)*c21*c11^2*c01 + (1#3)*c21*c20*c02*c01 - (1#2)*c30*c11*c02*c01
+ (1#3)*c21*c12*c10*c01 - 3*c30*c03*c10*c01 - (1#3)*c21^2*c01^2
+ c30*c12*c01^2 + c12^2*c20*c00 - 3*c21*c03*c20*c00
- (1#2)*c21*c12*c11*c00 + (9#2)*c30*c03*c11*c00 + c21^2*c02*c00
- 3*c30*c12*c02*c00.

Definition docstring_g : Q :=
(1#864)*c11^6 - (1#72)*c20*c11^4*c02 + (1#18)*c20^2*c11^2*c02^2
- (2#27)*c20^3*c02^3 + (1#24)*c03*c20*c11^3*c10 - (1#72)*c12*c11^4*c10
- (1#6)*c03*c20^2*c11*c02*c10 + (1#36)*c12*c20*c11^2*c02*c10
+ (1#24)*c21*c11^3*c02*c10 + (1#9)*c12*c20^2*c02^2*c10
- (1#6)*c21*c20*c11*c02^2*c10 - (1#12)*c30*c11^2*c02^2*c10
+ (1#3)*c30*c20*c02^3*c10 + (1#4)*c03^2*c20^2*c10^2
- (1#6)*c12*c03*c20*c11*c10^2 + (1#18)*c12^2*c11^2*c10^2
- (1#12)*c21*c03*c11^2*c10^2 + (1#9)*c12^2*c20*c02*c10^2
- (1#6)*c21*c03*c20*c02*c10^2 - (1#6)*c21*c12*c11*c02*c10^2
+ c30*c03*c11*c02*c10^2 + (1#4)*c21^2*c02^2*c10^2
- (2#3)*c30*c12*c02^2*c10^2 - (2#27)*c12^3*c10^3 + (1#3)*c21*c12*c03*c10^3
- c30*c03^2*c10^3 - (1#12)*c03*c20^2*c11^2*c01 + (1#24)*c12*c20*c11^3*c01
- (1#72)*c21*c11^4*c01 + (1#3)*c03*c20^3*c02*c01
- (1#6)*c12*c20^2*c11*c02*c01 + (1#36)*c21*c20*c11^2*c02*c01
+ (1#24)*c30*c11^3*c02*c01 + (1#9)*c21*c20^2*c02^2*c01
- (1#6)*c30*c20*c11*c02^2*c01 - (1#6)*c12*c03*c20^2*c10*c01
- (1#6)*c12^2*c20*c11*c10*c01 + (5#6)*c21*c03*c20*c11*c10*c01
+ (1#36)*c21*c12*c11^2*c10*c01 - (3#4)*c30*c03*c11^2*c10*c01
+ (1#18)*c21*c12*c20*c02*c10*c01 - (3#2)*c30*c03*c20*c02*c10*c01
- (1#6)*c21^2*c11*c02*c10*c01 + (5#6)*c30*c12*c11*c02*c10*c01
- (1#6)*c30*c21*c02^2*c10*c01 + (1#9)*c21*c12^2*c10^2*c01
- (2#3)*c21^2*c03*c10^2*c01 + c30*c12*c03*c10^2*c01
+ (1#4)*c12^2*c20^2*c01^2 - (2#3)*c21*c03*c20^2*c01^2
- (1#6)*c21*c12*c20*c11*c01^2 + c30*c03*c20*c11*c01^2
+ (1#18)*c21^2*c11^2*c01^2 - (1#12)*c30*c12*c11^2*c01^2
+ (1#9)*c21^2*c20*c02*c01^2 - (1#6)*c30*c12*c20*c02*c01^2
- (1#6)*c30*c21*c11*c02*c01^2 + (1#4)*c30^2*c02^2*c01^2
+ (1#9)*c21^2*c12*c10*c01^2 - (2#3)*c30*c12^2*c10*c01^2
+ c30*c21*c03*c10*c01^2 - (2#27)*c21^3*c01^3 + (1#3)*c30*c21*c12*c01^3
- c30^2*c03*c01^3 - c03^2*c20^3*c00 + c12*c03*c20^2*c11*c00
- (1#12)*c12^2*c20*c11^2*c00 - (3#4)*c21*c03*c20*c11^2*c00
+ (1#24)*c21*c12*c11^3*c00 + (5#8)*c30*c03*c11^3*c00
- (2#3)*c12^2*c20^2*c02*c00 + c21*c03*c20^2*c02*c00
+ (5#6)*c21*c12*c20*c11*c02*c00 - (3#2)*c30*c03*c20*c11*c02*c00
- (1#12)*c21^2*c11^2*c02*c00 - (3#4)*c30*c12*c11^2*c02*c00
- (2#3)*c21^2*c20*c02^2*c00 + c30*c12*c20*c02^2*c00
+ c30*c21*c11*c02^2*c00 - c30^2*c02^3*c00 + (1#3)*c12^3*c20*c10*c00
- (3#2)*c21*c12*c03*c20*c10*c00 + (9#2)*c30*c03^2*c20*c10*c00
- (1#6)*c21*c12^2*c11*c10*c00 + c21^2*c03*c11*c10*c00
- (3#2)*c30*c12*c03*c11*c10*c00 - (1#6)*c21^2*c12*c02*c10*c00
+ c30*c12^2*c02*c10*c00 - (3#2)*c30*c21*c03*c02*c10*c00
- (1#6)*c21*c12^2*c20*c01*c00 + c21^2*c03*c20*c01*c00
- (3#2)*c30*c12*c03*c20*c01*c00 - (1#6)*c21^2*c12*c11*c01*c00
+ c30*c12^2*c11*c01*c00 - (3#2)*c30*c21*c03*c11*c01*c00
+ (1#3)*c21^3*c02*c01*c00 - (3#2)*c30*c21*c12*c02*c01*c00
+ (9#2)*c30^2*c03*c02*c01*c00 + (1#4)*c21^2*c12^2*c00^2 - c30*c12^3*c00^2
- c21^3*c03*c00^2 + (9#2)*c30*c21*c12*c03*c00^2 - (27#4)*c30^2*c03^2*c00^2.

Definition general_cubic : TernaryCubic Q :=
{| a30 := c30; a21 := c21; a12 := c12; a03 := c03; a20 := c20;
   a11 := c11; a02 := c02; a10 := c10; a01 := c01; a00 := c00 |}.
End Docstring.

(** ** Putting the answers of the coefficient extractor back together *)

(** [sum(c * m for c, m in zip(result, monomials))] *)
Definition recombine (result : list poly) (monomials : list mono) : poly :=
  foldr padd pzero (zip_with (fun c m => pmul_mono m c) result monomials).

(** [x^2 + 3*x*y + y^2] in [QQ[x, y]] *)
Definition binary_conic : poly :=
  poly_of [([2; 0]%nat, 1%Q); ([1; 1]%nat, 3%Q); ([0; 2]%nat, 1%Q)].

(** [z^4*t^2 + x*z^3*t^2 + x^2*z^2*t^2 + x^3*z*t^2 + x^4*t^2 + y*z^2*t
     + x*y*z*t + x^2*y*t + y^2] in [QQ[x, y, z, t]], the sum of the sections
    of the anticanonical bundle in the docstring of
    [WeierstrassForm_P2_112] *)
Definition weighted_quartic : poly :=
  poly_of [([0; 0; 4; 2]%nat, 1%Q); ([1; 0; 3; 2]%nat, 1%Q);
           ([2; 0; 2; 2]%nat, 1%Q); ([3; 0; 1; 2]%nat, 1%Q);
           ([4; 0; 0; 2]%nat, 1%Q); ([0; 1; 2; 1]%nat, 1%Q);
           ([1; 1; 1; 1]%nat, 1%Q); ([2; 1; 0; 1]%nat, 1%Q);
           ([0; 2; 0; 0]%nat, 1%Q)].

(** [y0^2 + 1] in [QQ[y0, y1]] *)
Definition inhomogeneous_conic : poly :=
  poly_of [([2; 0]%nat, 1%Q); ([0; 0]%nat, 1%Q)].

(** A polynomial that is at most quadratic in the pair [(y0, y1)], or in
    [y0] alone when there is no [y1]: no term has a degree above 2 in the
    pair. *)
Definition at_most_quadratic_in (quadric : poly) (y0 : var)
    (y1 : option var) : Prop :=
  match y1 with
  | Some y1 =>
      y0 <> y1 /\
      forall m c, quadric !! m = Some c ->
        (exponent m y0 + exponent m y1 <= 2)%nat
  | None =>
      forall m c, quadric !! m = Some c -> (exponent m y0 <= 2)%nat
  end.

(** ** Scaling a quartic *)

(** Every coefficient of the quartic multiplied by [t]. *)
Definition scale_quartic (t : poly) (Q : BinaryQuartic poly)
    : BinaryQuartic poly :=
  {| e0 := pmul t (e0 Q); e1 := pmul t (e1 Q); e2 := pmul t (e2 Q);
     e3 := pmul t (e3 Q); e4 := pmul t (e4 Q) |}.
(** ** Facts about monomials *)

Lemma multiplicity_var_pow (x j : var) (k : nat) :
  multiplicity j (var_pow x k) = if decide (j = x) then k else 0%nat.
Proof.
  induction k as [|k IH]; simpl.
  - unfold mono_one. rewrite multiplicity_empty. by destruct (decide _).
  - rewrite multiplicity_disj_union, multiplicity_singleton, IH.
    destruct (decide (j = x)); lia.
Qed.

Lemma prod_pow_cons (x : var) (variables : list var) (k : nat) (v : list nat) :
  prod_pow (x :: variables) (k :: v) = var_pow x k ⊎ prod_pow variables v.
Proof. reflexivity. Qed.

Lemma prod_pow_nil (v : list nat) : prod_pow [] v = ∅.
Proof. reflexivity. Qed.

Lemma prod_pow_nil_r (variables : list var) : prod_pow variables [] = ∅.
Proof. by destruct variables. Qed.

Lemma multiplicity_prod_pow_notin (variables : list var) (v : list nat) (j : var) :
  j ∉ variables -> multiplicity j (prod_pow variables v) = 0%nat.
Proof.
  revert v. induction variables as [|x xs IH]; intros v Hj.
  - by rewrite prod_pow_nil, multiplicity_empty.
  - destruct v as [|k v].
    + by rewrite prod_pow_nil_r, multiplicity_empty.
    + rewrite prod_pow_cons, multiplicity_disj_union, multiplicity_var_pow.
      apply not_elem_of_cons in Hj as [Hne Hj].
      rewrite (IH v Hj). destruct (decide (j = x)); [done | lia].
Qed.

Lemma multiplicity_prod_pow_le (variables : list var) (m : mono) (j : var) :
  NoDup variables ->
  (multiplicity j (prod_pow variables (exponent m <$> variables))
   <= multiplicity j m)%nat.
Proof.
  induction 1 as [|x xs Hx Hnd IH].
  - rewrite fmap_nil, prod_pow_nil, multiplicity_empty. lia.
  - rewrite fmap_cons, prod_pow_cons, multiplicity_disj_union,
      multiplicity_var_pow.
    destruct (decide (j = x)) as [->|Hne].
    + rewrite multiplicity_prod_pow_notin by done. unfold exponent. lia.
    + lia.
Qed.

Lemma prod_pow_divides (variables : list var) (m : mono) :
  NoDup variables -> prod_pow variables (exponent m <$> variables) ⊆ m.
Proof.
  intros Hnd j. by apply multiplicity_prod_pow_le.
Qed.

Lemma mono_div_mul (d m : mono) : d ⊆ m -> m ∖ d ⊎ d = m.
Proof. multiset_solver. Qed.

Lemma mono_div_inj (d m1 m2 : mono) :
  d ⊆ m1 -> d ⊆ m2 -> m1 ∖ d = m2 ∖ d -> m1 = m2.
Proof.
  intros H1 H2 Heq.
  rewrite <- (mono_div_mul d m1 H1), <- (mono_div_mul d m2 H2). by rewrite Heq.
Qed.

(** ** Facts about the error monad *)

Lemma bind_OK {A B} (r : result A) (k : A -> result B) (b : B) :
  r ≫= k = OK b <-> exists a, r = OK a /\ k a = OK b.
Proof.
  destruct r as [a|e]; simpl; split.
  - intros H. by exists a.
  - by intros (a' & [= <-] & H).
  - done.
  - by intros (a' & [=] & _).
Qed.

Lemma bind_Raise {A B} (r : result A) (k : A -> result B) (e : error) :
  r ≫= k = Raise e <-> r = Raise e \/ exists a, r = OK a /\ k a = Raise e.
Proof.
  destruct r as [a|e']; simpl; split.
  - intros H. right. by exists a.
  - intros [[=]|(a' & [= <-] & H)]. done.
  - intros [= ->]. by left.
  - intros [[= ->]|(a' & [=] & _)]. done.
Qed.

Lemma gens_index_OK (ngens : nat) (x i : var) :
  gens_index ngens x = OK i <-> (x < ngens)%nat /\ i = x.
Proof.
  unfold gens_index. destruct (decide (x < ngens)%nat); split.
  - by intros [= <-].
  - by intros [_ ->].
  - done.
  - by intros [? _].
Qed.

Lemma mapM_gens_index (ngens : nat) (variables idx : list var) :
  mapM (gens_index ngens) variables = OK idx -> idx = variables.
Proof.
  revert idx. induction variables as [|x xs IH]; intros idx.
  - by intros [= <-].
  - change (gens_index ngens x ≫= (fun y =>
              mapM (gens_index ngens) xs ≫= fun k => OK (y :: k))
            = OK idx -> idx = x :: xs).
    intros (i & Hi & (ys & Hys & [= <-])%bind_OK)%bind_OK.
    apply gens_index_OK in Hi as [_ ->]. by rewrite (IH ys Hys).
Qed.

Lemma mapM_gens_index_OK (ngens : nat) (variables : list var) :
  Forall (fun x => (x < ngens)%nat) variables ->
  mapM (gens_index ngens) variables = OK variables.
Proof.
  induction 1 as [|x xs Hx _ IH]; [done|].
  change (gens_index ngens x ≫= (fun y =>
            mapM (gens_index ngens) xs ≫= fun k => OK (y :: k))
          = OK (x :: xs)).
  apply bind_OK. exists x. split; [by apply gens_index_OK|].
  apply bind_OK. by exists xs.
Qed.

(** ** Facts about polynomial arithmetic *)

Lemma lookup_padd (p q : poly) (m : mono) :
  padd p q !! m =
    match p !! m, q !! m with
    | Some a, Some b => if decide (a + b = 0) then None else Some (a + b)
    | Some a, None => Some a
    | None, Some b => Some b
    | None, None => None
    end.
Proof.
  unfold padd. rewrite lookup_union_with.
  by destruct (p !! m), (q !! m).
Qed.

Lemma padd_empty_r (p : poly) : padd p ∅ = p.
Proof.
  apply map_eq; intros m. rewrite lookup_padd, lookup_empty.
  by destruct (p !! m).
Qed.

Lemma padd_empty_l (p : poly) : padd ∅ p = p.
Proof.
  apply map_eq; intros m. rewrite lookup_padd, lookup_empty.
  by destruct (p !! m).
Qed.

Lemma padd_singleton_fresh (q : poly) (k : mono) (c : Qc) :
  q !! k = None -> padd q {[ k := c ]} = <[ k := c ]> q.
Proof.
  intros Hk. apply map_eq; intros m. rewrite lookup_padd.
  destruct (decide (m = k)) as [->|Hne].
  - by rewrite Hk, lookup_singleton_eq, lookup_insert_eq.
  - rewrite lookup_singleton_ne, lookup_insert_ne by done.
    by destruct (q !! m).
Qed.

Lemma pscale_mono_floordiv (c : Qc) (m d : mono) :
  c <> 0 -> d ⊆ m -> pscale c (mono_floordiv m d) = {[ m ∖ d := c ]}.
Proof.
  intros Hc Hd. unfold pscale, mono_floordiv.
  rewrite decide_False by done. rewrite decide_True by done.
  rewrite map_fmap_singleton. f_equal. ring.
Qed.

Lemma pscale_mono_floordiv_nodiv (c : Qc) (m d : mono) :
  ~ d ⊆ m -> pscale c (mono_floordiv m d) = ∅.
Proof.
  intros Hd. unfold pscale, mono_floordiv. rewrite (decide_False (P := d ⊆ m)) by done.
  destruct (decide (c = 0)); [done|]. apply fmap_empty.
Qed.

Lemma wf_poly_insert (p : poly) (m : mono) (c : Qc) :
  p !! m = None -> wf_poly (<[ m := c ]> p) -> c <> 0 /\ wf_poly p.
Proof.
  intros Hm Hwf. split.
  - apply (Hwf m). by rewrite lookup_insert_eq.
  - intros m' c' Hm'. apply (Hwf m'). rewrite lookup_insert_ne; [done|].
    intros <-. by rewrite Hm in Hm'.
Qed.

(** ** The support extractor on a list of distinct generators *)

Section Support.
Variable variables : list var.
Hypothesis variables_NoDup : NoDup variables.

Lemma support_inv_empty : support_inv variables ∅ ∅.
Proof. split; intros ? ?; by rewrite lookup_empty. Qed.

Lemma support_inv_step (m : mono) (c : Qc) (result : pdict) (p : poly) :
  p !! m = None -> c <> 0 -> support_inv variables result p ->
  support_inv variables (support_step variables variables m c result) (<[ m := c ]> p).
Proof.
  intros Hm Hc [Hval Hterm]. unfold support_step.
  set (v := exponent m <$> variables).
  set (d := prod_pow variables v).
  assert (Hd : d ⊆ m) by by apply prod_pow_divides.
  assert (Hmr : m ∖ d ⊎ d = m) by by apply mono_div_mul.
  rewrite pscale_mono_floordiv by done.
  assert (Hold : dget result v !! (m ∖ d) = None).
  { unfold dget. destruct (result !! v) as [q|] eqn:Hq; simpl; [|done].
    destruct (q !! (m ∖ d)) as [c'|] eqn:Hc'; [|done].
    destruct (Hval v q Hq) as [_ Hq'].
    destruct (Hq' _ _ Hc') as [Hp _]. fold d in Hp.
    rewrite Hmr, Hm in Hp. done. }
  rewrite padd_singleton_fresh by done.
  split.
  - intros v' q'. destruct (decide (v' = v)) as [->|Hne].
    + rewrite lookup_insert_eq. intros [= <-]. split.
      { apply insert_non_empty. }
      intros mr c'. destruct (decide (mr = m ∖ d)) as [->|Hne].
      * rewrite lookup_insert_eq. intros [= <-]. fold d. rewrite Hmr.
        by rewrite lookup_insert_eq.
      * rewrite lookup_insert_ne by done. unfold dget.
        destruct (result !! v) as [q|] eqn:Hq; simpl; [|done].
        intros Hmr'. destruct (Hval v q Hq) as [_ Hq'].
        destruct (Hq' _ _ Hmr') as [Hp Hv]. split; [|done].
        rewrite lookup_insert_ne; [done|]. intros Heq.
        change (p !! (mr ⊎ d) = Some c') in Hp.
        change (m = mr ⊎ d) in Heq. rewrite <- Heq, Hm in Hp. done.
    + rewrite lookup_insert_ne by done. intros Hq.
      destruct (Hval v' q' Hq) as [Hne' Hq']. split; [done|].
      intros mr c' Hmr'. destruct (Hq' _ _ Hmr') as [Hp Hv]. split; [|done].
      rewrite lookup_insert_ne; [done|]. intros Heq.
      rewrite <- Heq, Hm in Hp. done.
  - intros m' c'. destruct (decide (m' = m)) as [->|Hne].
    + rewrite lookup_insert_eq. intros [= <-]. fold v. fold d.
      eexists. rewrite lookup_insert_eq. split; [done|].
      by rewrite lookup_insert_eq.
    + rewrite lookup_insert_ne by done. intros Hp.
      destruct (Hterm m' c' Hp) as (q & Hq & Hq').
      destruct (decide (exponent m' <$> variables = v)) as [Hv|Hv].
      * rewrite Hv in *. fold d in Hq'. eexists.
        rewrite lookup_insert_eq. split; [done|].
        rewrite lookup_insert_ne.
        { unfold dget. by rewrite Hq. }
        intros Heq. apply Hne. symmetry.
        apply (mono_div_inj d); [done| |done].
        unfold d. rewrite <- Hv. by apply prod_pow_divides.
      * exists q. by rewrite lookup_insert_ne.
Qed.

Lemma support_inv_fold (p : poly) :
  wf_poly p -> support_inv variables (map_fold (support_step variables variables) ∅ p) p.
Proof.
  apply (map_fold_weak_ind
           (fun r p => wf_poly p -> support_inv variables r p)
           (support_step variables variables)).
  - intros _. apply support_inv_empty.
  - intros m c p' r Hm IH Hwf.
    apply wf_poly_insert in Hwf as [Hc Hwf]; [|done].
    apply support_inv_step; auto.
Qed.

Lemma lookup_reconstruct (d : pdict) :
  support_keyed variables d ->
  forall m, reconstruct variables d !! m =
    d !! (exponent m <$> variables) ≫= fun q =>
      q !! (m ∖ prod_pow variables (exponent m <$> variables)).
Proof.
  apply (map_fold_weak_ind
    (fun acc d => support_keyed variables d ->
       forall m, acc !! m =
         d !! (exponent m <$> variables) ≫= fun q =>
           q !! (m ∖ prod_pow variables (exponent m <$> variables)))
    (reconstruct_step variables)).
  - intros _ m. by rewrite !lookup_empty.
  - intros v q d' acc Hv IH Hkey m.
    assert (Hkey' : support_keyed variables d').
    { intros v' q' mr c Hq'. apply (Hkey v' q' mr c).
      rewrite lookup_insert_ne; [done|]. intros <-. by rewrite Hv in Hq'. }
    specialize (IH Hkey' m).
    unfold reconstruct_step. rewrite lookup_padd.
    destruct (pmul_mono (prod_pow variables v) q !! m) as [c|] eqn:Hc.
    + apply lookup_kmap_Some in Hc as (mr & Hm & Hmr); [|apply _].
      pose proof (Hkey v q mr c (lookup_insert_eq _ _ _) Hmr) as Hvm.
      assert (Hm' : m = mr ⊎ prod_pow variables v).
      { rewrite Hm. unfold mono_mul. apply (comm (⊎)). }
      rewrite <- Hm' in Hvm. rewrite IH, <- Hvm, Hv, lookup_insert_eq. simpl.
      replace (m ∖ prod_pow variables v) with mr; [done|].
      rewrite Hm'. multiset_solver.
    + rewrite IH.
      destruct (decide (exponent m <$> variables = v)) as [Hvm|Hvm].
      * rewrite Hvm, Hv, lookup_insert_eq. simpl.
        rewrite <- Hc. unfold pmul_mono.
        rewrite <- (lookup_kmap (mono_mul (prod_pow variables v)) q).
        f_equal. unfold mono_mul.
        rewrite (comm (⊎)). symmetry. apply mono_div_mul.
        rewrite <- Hvm. by apply prod_pow_divides.
      * rewrite lookup_insert_ne by done.
        by destruct (d' !! (exponent m <$> variables) ≫= _).
Qed.

Lemma reconstruct_support (d : pdict) (p : poly) :
  support_inv variables d p -> reconstruct variables d = p.
Proof.
  intros [Hval Hterm]. apply map_eq; intros m.
  rewrite lookup_reconstruct.
  - destruct (p !! m) as [c|] eqn:Hp.
    + destruct (Hterm m c Hp) as (q & -> & Hq). done.
    + destruct (d !! (exponent m <$> variables)) as [q|] eqn:Hq; [|done].
      simpl. destruct (q !! _) as [c|] eqn:Hc; [|done].
      destruct (Hval _ _ Hq) as [_ Hq']. destruct (Hq' _ _ Hc) as [Hp' _].
      rewrite mono_div_mul in Hp' by by apply prod_pow_divides.
      by rewrite Hp in Hp'.
  - intros v q mr c Hq Hc. destruct (Hval _ _ Hq) as [_ Hq'].
    by destruct (Hq' _ _ Hc).
Qed.
End Support.


(** ** The support extractor: reconstruction and non-zero values *)

Lemma Newton_polytope_vars_coeffs_OK (ngens : nat) (P : poly) (V : list var)
    (d : pdict) :
  Newton_polytope_vars_coeffs ngens P V = OK d ->
  d = map_fold (support_step V V) ∅ P.
Proof.
  unfold Newton_polytope_vars_coeffs.
  intros (idx & Hidx & [= <-])%bind_OK.
  by rewrite (mapM_gens_index _ _ _ Hidx).
Qed.

Lemma Newton_polytope_vars_coeffs_total (ngens : nat) (P : poly)
    (V : list var) :
  Forall (fun x => (x < ngens)%nat) V ->
  Newton_polytope_vars_coeffs ngens P V = OK (map_fold (support_step V V) ∅ P).
Proof.
  intros HV. unfold Newton_polytope_vars_coeffs.
  by rewrite (mapM_gens_index_OK _ _ HV).
Qed.

(** C6: for a polynomial [P] and a list [V] of distinct generators of its
    ring, the support extractor returns a mapping, and summing coefficient
    times [prod(var_i^exponent_i)] over its entries gives [P] back. *)
Theorem Newton_polytope_vars_coeffs_reconstructs (ngens : nat) (P : poly)
    (V : list var) :
  wf_poly P -> NoDup V -> Forall (fun x => (x < ngens)%nat) V ->
  exists d, Newton_polytope_vars_coeffs ngens P V = OK d /\
            reconstruct V d = P.
Proof.
  intros Hwf Hnd HV. eexists. split.
  - by apply Newton_polytope_vars_coeffs_total.
  - apply reconstruct_support; [done|]. by apply support_inv_fold.
Qed.

(** C10: every coefficient stored by the support extractor is a non-zero
    ring element, the list of variables being one of distinct generators. *)
Theorem Newton_polytope_vars_coeffs_nonzero (ngens : nat) (P : poly)
    (V : list var) (d : pdict) :
  wf_poly P -> NoDup V ->
  Newton_polytope_vars_coeffs ngens P V = OK d ->
  forall v c, d !! v = Some c -> c <> pzero.
Proof.
  intros Hwf Hnd Hd v c Hc.
  apply Newton_polytope_vars_coeffs_OK in Hd as ->.
  destruct (support_inv_fold V Hnd P Hwf) as [Hval _].
  by destruct (Hval v c Hc).
Qed.

(** ** Coefficients of sums, multiples and term lists *)

Lemma coeff_empty (k : mono) : coeff ∅ k = 0.
Proof. unfold coeff. by rewrite lookup_empty. Qed.

Lemma coeff_padd (p q : poly) (k : mono) :
  coeff (padd p q) k = coeff p k + coeff q k.
Proof.
  unfold coeff. rewrite lookup_padd.
  destruct (p !! k) as [a|], (q !! k) as [b|]; simpl; try ring.
  destruct (decide (a + b = 0)) as [->|]; simpl; ring.
Qed.

Lemma coeff_pneg (p : poly) (k : mono) : coeff (pneg p) k = - coeff p k.
Proof.
  unfold coeff, pneg. rewrite lookup_fmap.
  destruct (p !! k); simpl; ring.
Qed.

Lemma coeff_psub (p q : poly) (k : mono) :
  coeff (psub p q) k = coeff p k - coeff q k.
Proof. unfold psub. rewrite coeff_padd, coeff_pneg. ring. Qed.

Lemma coeff_pscale (c : Qc) (p : poly) (k : mono) :
  coeff (pscale c p) k = c * coeff p k.
Proof.
  unfold pscale. destruct (decide (c = 0)) as [->|].
  - rewrite coeff_empty. ring.
  - unfold coeff. rewrite lookup_fmap. destruct (p !! k); simpl; ring.
Qed.

Lemma coeff_pterm (c : Qc) (m k : mono) :
  coeff (pterm c m) k = if decide (k = m) then c else 0.
Proof.
  unfold pterm, coeff. destruct (decide (c = 0)) as [->|].
  - rewrite lookup_empty. by destruct (decide (k = m)).
  - destruct (decide (k = m)) as [->|].
    + by rewrite lookup_singleton_eq.
    + by rewrite lookup_singleton_ne.
Qed.

Lemma coeff_pmul_mono (d : mono) (p : poly) (k : mono) :
  coeff (pmul_mono d p) k = if decide (d ⊆ k) then coeff p (k ∖ d) else 0.
Proof.
  unfold coeff, pmul_mono. destruct (decide (d ⊆ k)) as [Hd|Hd].
  - rewrite <- (lookup_kmap (mono_mul d) p (k ∖ d)). do 2 f_equal.
    unfold mono_mul. multiset_solver.
  - destruct (kmap (mono_mul d) p !! k) as [c|] eqn:Hc; [|done].
    apply lookup_kmap_Some in Hc as (mr & -> & _); [|apply _].
    exfalso. apply Hd. unfold mono_mul. multiset_solver.
Qed.

Lemma coeff_of_terms (l : list (mono * Qc)) (k : mono) :
  coeff (of_terms l) k = tcoeff l k.
Proof.
  induction l as [|t l IH]; simpl.
  - apply coeff_empty.
  - by rewrite coeff_padd, coeff_pterm, IH.
Qed.

Lemma tcoeff_app (l1 l2 : list (mono * Qc)) (k : mono) :
  tcoeff (l1 ++ l2) k = tcoeff l1 k + tcoeff l2 k.
Proof.
  induction l1 as [|t l1 IH]; simpl; [ring|]. rewrite IH. ring.
Qed.

Lemma tcoeff_notin (l : list (mono * Qc)) (k : mono) :
  k ∉ l.*1 -> tcoeff l k = 0.
Proof.
  induction l as [|t l IH]; simpl; [done|].
  intros [Hne Hk]%not_elem_of_cons.
  rewrite decide_False by done. rewrite IH by done. ring.
Qed.

Lemma tcoeff_NoDup (l : list (mono * Qc)) (k : mono) (c : Qc) :
  NoDup l.*1 -> (k, c) ∈ l -> tcoeff l k = c.
Proof.
  induction l as [|t l IH]; simpl.
  - by intros _ ?%elem_of_nil.
  - intros Hnd' [Heq|Hin]%elem_of_cons; [subst t|];
      pose proof (NoDup_cons_1_1 _ _ Hnd') as Ht;
      pose proof (NoDup_cons_1_2 _ _ Hnd') as Hnd.
    + simpl. rewrite decide_True by done.
      rewrite tcoeff_notin by done. ring.
    + rewrite decide_False.
      * rewrite IH by done. ring.
      * intros ->. apply Ht. apply list_elem_of_fmap. by exists (t.1, c).
Qed.

Lemma tcoeff_map_to_list (p : poly) (k : mono) :
  tcoeff (map_to_list p) k = coeff p k.
Proof.
  unfold coeff. destruct (p !! k) as [c|] eqn:Hk; simpl.
  - apply tcoeff_NoDup.
    + apply NoDup_fst_map_to_list.
    + by apply elem_of_map_to_list.
  - apply tcoeff_notin. intros ((k' & c) & -> & Hin)%list_elem_of_fmap.
    apply elem_of_map_to_list in Hin. simpl in Hk. by rewrite Hk in Hin.
Qed.

(** ** Polynomials in normal form *)

Lemma wf_poly_empty : wf_poly ∅.
Proof. intros m c. by rewrite lookup_empty. Qed.

Lemma wf_poly_pterm (c : Qc) (m : mono) : wf_poly (pterm c m).
Proof.
  unfold pterm. destruct (decide (c = 0)); [apply wf_poly_empty|].
  intros k c' [-> ->]%lookup_singleton_Some. done.
Qed.

Lemma wf_poly_padd (p q : poly) : wf_poly p -> wf_poly q -> wf_poly (padd p q).
Proof.
  intros Hp Hq k c. rewrite lookup_padd.
  destruct (p !! k) as [a|] eqn:Ha, (q !! k) as [b|] eqn:Hb; try done.
  - destruct (decide (a + b = 0)); [done|]. by intros [= <-].
  - intros [= <-]. by apply (Hp k).
  - intros [= <-]. by apply (Hq k).
Qed.

Lemma wf_poly_pneg (p : poly) : wf_poly p -> wf_poly (pneg p).
Proof.
  intros Hp k c. unfold pneg. rewrite lookup_fmap.
  destruct (p !! k) as [a|] eqn:Ha; [|done]. intros [= <-] H0.
  apply (Hp k a Ha). rewrite <- (Qcopp_involutive a), H0. ring.
Qed.

Lemma wf_poly_psub (p q : poly) : wf_poly p -> wf_poly q -> wf_poly (psub p q).
Proof. intros. by apply wf_poly_padd, wf_poly_pneg. Qed.

Lemma wf_poly_pscale (c : Qc) (p : poly) : wf_poly p -> wf_poly (pscale c p).
Proof.
  intros Hp. unfold pscale. destruct (decide (c = 0)); [apply wf_poly_empty|].
  intros k a. rewrite lookup_fmap.
  destruct (p !! k) as [b|] eqn:Hb; [|done]. intros [= <-] H0.
  apply Qcmult_integral in H0 as [?|?]; [done|]. by apply (Hp k b).
Qed.

Lemma wf_poly_of_terms (l : list (mono * Qc)) : wf_poly (of_terms l).
Proof.
  induction l as [|t l IH]; simpl; [apply wf_poly_empty|].
  apply wf_poly_padd; [apply wf_poly_pterm | done].
Qed.

Lemma wf_poly_pmul (p q : poly) : wf_poly (pmul p q).
Proof. apply wf_poly_of_terms. Qed.

Lemma wf_poly_pconst (c : Qc) : wf_poly (pconst c).
Proof. apply wf_poly_pterm. Qed.

Lemma wf_poly_ppow (p : poly) (n : nat) : wf_poly p -> wf_poly (ppow p n).
Proof.
  intros Hp. destruct n as [|n]; [apply wf_poly_pconst|].
  induction n as [|n IH]; [done|]. apply wf_poly_pmul.
Qed.

Lemma wf_poly_pmul_mono (d : mono) (p : poly) :
  wf_poly p -> wf_poly (pmul_mono d p).
Proof.
  intros Hp k c (mr & _ & Hmr)%lookup_kmap_Some; [|apply _].
  by apply (Hp mr).
Qed.

Lemma wf_poly_coeff (p : poly) (k : mono) :
  wf_poly p -> p !! k = if decide (coeff p k = 0) then None else Some (coeff p k).
Proof.
  intros Hp. unfold coeff. destruct (p !! k) as [c|] eqn:Hc; simpl.
  - destruct (decide (c = 0)) as [H0|]; [|done]. by destruct (Hp k c Hc).
  - by destruct (decide (0 = 0)).
Qed.

(** Polynomials in normal form with the same coefficients are equal. *)
Lemma peq_eq (p q : poly) : wf_poly p -> wf_poly q -> peq p q -> p = q.
Proof.
  intros Hp Hq Heq. apply map_eq; intros k.
  rewrite (wf_poly_coeff p k Hp), (wf_poly_coeff q k Hq). by rewrite (Heq k).
Qed.

(** ** Products of term lists *)

Lemma term_products_cons (t : mono * Qc) (l1 l2 : list (mono * Qc)) :
  term_products (t :: l1) l2 = term_mul t l2 ++ term_products l1 l2.
Proof. reflexivity. Qed.

Lemma term_products_app (l1 l1' l2 : list (mono * Qc)) :
  term_products (l1 ++ l1') l2 = term_products l1 l2 ++ term_products l1' l2.
Proof.
  induction l1 as [|t l1 IH]; [done|].
  rewrite <- app_comm_cons, !term_products_cons, IH. by rewrite (assoc (++)).
Qed.

Lemma term_mul_mul (t t2 : mono * Qc) (l : list (mono * Qc)) :
  term_mul t (term_mul t2 l) = term_mul (mono_mul t.1 t2.1, t.2 * t2.2) l.
Proof.
  unfold term_mul. rewrite <- list_fmap_compose. apply list_fmap_ext.
  intros _ [m c] _. simpl. unfold mono_mul. f_equal.
  - by rewrite (assoc_L (⊎)).
  - ring.
Qed.

Lemma term_mul_products (t : mono * Qc) (l2 l3 : list (mono * Qc)) :
  term_mul t (term_products l2 l3) = term_products (term_mul t l2) l3.
Proof.
  induction l2 as [|t2 l2 IH]; [done|].
  rewrite term_products_cons. unfold term_mul at 1. rewrite fmap_app.
  fold (term_mul t (term_mul t2 l3)). fold (term_mul t (term_products l2 l3)).
  rewrite IH, term_mul_mul. reflexivity.
Qed.

Lemma term_products_assoc (l1 l2 l3 : list (mono * Qc)) :
  term_products (term_products l1 l2) l3 = term_products l1 (term_products l2 l3).
Proof.
  induction l1 as [|t l1 IH]; [done|].
  rewrite !term_products_cons, term_products_app, IH.
  by rewrite term_mul_products.
Qed.

Lemma tcoeff_term_mul (t : mono * Qc) (l : list (mono * Qc)) (k : mono) :
  tcoeff (term_mul t l) k =
    t.2 * (if decide (t.1 ⊆ k) then tcoeff l (k ∖ t.1) else 0).
Proof.
  induction l as [|t2 l IH]; simpl.
  - destruct (decide (t.1 ⊆ k)); ring.
  - fold (term_mul t l). rewrite IH. unfold mono_mul.
    destruct (decide (t.1 ⊆ k)) as [Hd|Hd].
    + destruct (decide (k = t.1 ⊎ t2.1)) as [->|Hne].
      * rewrite decide_True by multiset_solver. ring.
      * rewrite decide_False; [ring|]. intros Heq. apply Hne.
        rewrite <- Heq. multiset_solver.
    + rewrite decide_False; [ring|]. intros ->. apply Hd. multiset_solver.
Qed.

(** The product list depends on its second factor through its sum only. *)
Lemma tcoeff_term_products_ext_r (l1 l2 l2' : list (mono * Qc)) :
  (forall k, tcoeff l2 k = tcoeff l2' k) ->
  forall k, tcoeff (term_products l1 l2) k = tcoeff (term_products l1 l2') k.
Proof.
  intros Heq k. induction l1 as [|t l1 IH]; [done|].
  rewrite !term_products_cons, !tcoeff_app, !tcoeff_term_mul, IH.
  by rewrite Heq.
Qed.

Lemma tcoeff_term_products_cons_r (l1 l2 : list (mono * Qc)) (t : mono * Qc)
    (k : mono) :
  tcoeff (term_products l1 (t :: l2)) k =
    tcoeff (term_mul t l1) k + tcoeff (term_products l1 l2) k.
Proof.
  induction l1 as [|t1 l1 IH]; [simpl; ring|].
  rewrite !term_products_cons, !tcoeff_app, IH. simpl.
  fold (term_mul t1 l2). fold (term_mul t l1). unfold mono_mul.
  rewrite (comm_L (⊎) t1.1 t.1).
  destruct (decide (k = t.1 ⊎ t1.1)); ring.
Qed.

Lemma tcoeff_term_products_comm (l1 l2 : list (mono * Qc)) (k : mono) :
  tcoeff (term_products l1 l2) k = tcoeff (term_products l2 l1) k.
Proof.
  induction l1 as [|t l1 IH].
  - induction l2 as [|t2 l2 IH2]; [done|].
    rewrite term_products_cons. simpl. by rewrite <- IH2.
  - rewrite term_products_cons, tcoeff_app, tcoeff_term_products_cons_r, IH.
    reflexivity.
Qed.

Lemma tcoeff_term_products_ext_l (l1 l1' l2 : list (mono * Qc)) :
  (forall k, tcoeff l1 k = tcoeff l1' k) ->
  forall k, tcoeff (term_products l1 l2) k = tcoeff (term_products l1' l2) k.
Proof.
  intros Heq k.
  rewrite (tcoeff_term_products_comm l1), (tcoeff_term_products_comm l1').
  by apply tcoeff_term_products_ext_r.
Qed.

Lemma coeff_pmul (p q : poly) (k : mono) :
  coeff (pmul p q) k = tcoeff (term_products (map_to_list p) (map_to_list q)) k.
Proof. apply coeff_of_terms. Qed.

(** ** The ring of polynomials, up to coefficientwise equality *)

#[global] Instance peq_equivalence : Equivalence peq.
Proof.
  split.
  - by intros p k.
  - intros p q H k. by rewrite (H k).
  - intros p q r H1 H2 k. by rewrite (H1 k), (H2 k).
Qed.

#[global] Instance padd_proper : Proper (peq ==> peq ==> peq) padd.
Proof. intros p p' Hp q q' Hq k. by rewrite !coeff_padd, (Hp k), (Hq k). Qed.

#[global] Instance pneg_proper : Proper (peq ==> peq) pneg.
Proof. intros p p' Hp k. by rewrite !coeff_pneg, (Hp k). Qed.

#[global] Instance psub_proper : Proper (peq ==> peq ==> peq) psub.
Proof. intros p p' Hp q q' Hq k. by rewrite !coeff_psub, (Hp k), (Hq k). Qed.

#[global] Instance pscale_proper (c : Qc) : Proper (peq ==> peq) (pscale c).
Proof. intros p p' Hp k. by rewrite !coeff_pscale, (Hp k). Qed.

#[global] Instance pmul_proper : Proper (peq ==> peq ==> peq) pmul.
Proof.
  intros p p' Hp q q' Hq k. rewrite !coeff_pmul.
  rewrite (tcoeff_term_products_ext_l _ (map_to_list p')).
  - apply tcoeff_term_products_ext_r. intros k'.
    by rewrite !tcoeff_map_to_list.
  - intros k'. by rewrite !tcoeff_map_to_list.
Qed.

Lemma pmul_comm (p q : poly) : peq (pmul p q) (pmul q p).
Proof. intros k. rewrite !coeff_pmul. apply tcoeff_term_products_comm. Qed.

Lemma pmul_of_terms (l1 l2 : list (mono * Qc)) :
  peq (pmul (of_terms l1) (of_terms l2)) (of_terms (term_products l1 l2)).
Proof.
  intros k. rewrite coeff_pmul, coeff_of_terms.
  rewrite (tcoeff_term_products_ext_l _ l1).
  - apply tcoeff_term_products_ext_r. intros k'.
    by rewrite tcoeff_map_to_list, coeff_of_terms.
  - intros k'. by rewrite tcoeff_map_to_list, coeff_of_terms.
Qed.

Lemma of_terms_map_to_list (p : poly) : peq (of_terms (map_to_list p)) p.
Proof. intros k. by rewrite coeff_of_terms, tcoeff_map_to_list. Qed.

Lemma of_terms_app (l1 l2 : list (mono * Qc)) :
  peq (of_terms (l1 ++ l2)) (padd (of_terms l1) (of_terms l2)).
Proof. intros k. by rewrite coeff_padd, !coeff_of_terms, tcoeff_app. Qed.

Lemma pmul_assoc (p q r : poly) : peq (pmul p (pmul q r)) (pmul (pmul p q) r).
Proof.
  rewrite <- (of_terms_map_to_list p) at 1 2.
  rewrite <- (of_terms_map_to_list q) at 1 2.
  rewrite <- (of_terms_map_to_list r) at 1 2.
  rewrite !pmul_of_terms. by rewrite term_products_assoc.
Qed.

Lemma pmul_padd_distr_l (p q r : poly) :
  peq (pmul (padd p q) r) (padd (pmul p r) (pmul q r)).
Proof.
  rewrite <- (of_terms_map_to_list p) at 1 2.
  rewrite <- (of_terms_map_to_list q) at 1 2.
  rewrite <- (of_terms_map_to_list r) at 1 2 3.
  rewrite <- of_terms_app, !pmul_of_terms, <- of_terms_app.
  by rewrite term_products_app.
Qed.

Lemma pone_terms : pone = of_terms [(mono_one, 1)].
Proof. simpl. by rewrite padd_empty_r. Qed.

Lemma pmul_pone_l (p : poly) : peq (pmul pone p) p.
Proof.
  rewrite <- (of_terms_map_to_list p) at 1 2.
  rewrite pone_terms, pmul_of_terms.
  intros k. rewrite !coeff_of_terms, term_products_cons, tcoeff_app.
  rewrite tcoeff_term_mul. simpl. unfold mono_one.
  rewrite decide_True by multiset_solver.
  replace (k ∖ ∅) with k by multiset_solver. ring.
Qed.

Lemma poly_ring_theory :
  ring_theory pzero pone padd pmul psub pneg peq.
Proof.
  split.
  - intros p k. rewrite coeff_padd, coeff_empty. ring.
  - intros p q k. rewrite !coeff_padd. ring.
  - intros p q r k. rewrite !coeff_padd. ring.
  - apply pmul_pone_l.
  - apply pmul_comm.
  - apply pmul_assoc.
  - apply pmul_padd_distr_l.
  - intros p q k. by rewrite coeff_psub, coeff_padd, coeff_pneg.
  - intros p k. rewrite coeff_padd, coeff_pneg, coeff_empty. ring.
Qed.

Lemma poly_ring_eq_ext : ring_eq_ext padd pmul pneg peq.
Proof. split; apply _. Qed.

Add Ring poly_ring : poly_ring_theory
  (setoid peq_equivalence poly_ring_eq_ext).

(** ** The homogeneity validator *)

Lemma weighted_degree_total (e : mono) (variable_indices : list nat)
    (weights : list Z) :
  (length weights <= length variable_indices)%nat ->
  weighted_degree e variable_indices weights
  = OK (total_degree e variable_indices weights).
Proof.
  revert variable_indices.
  induction weights as [|w ws IH]; intros [|j js] Hlen; simpl in *;
    [done|done|lia|].
  rewrite IH by lia. done.
Qed.

Lemma homogeneity_inv_step (variables : list var) (weights : list Z)
    (m : mono) (c : Qc) (state : result (option Z)) (p : poly) :
  (length weights <= length variables)%nat ->
  p !! m = None ->
  homogeneity_inv variables weights state p ->
  homogeneity_inv variables weights
    (homogeneity_step variables weights m state) (<[ m := c ]> p).
Proof.
  intros Hlen Hm Hinv. unfold homogeneity_step.
  destruct state as [[t|]|e]; simpl.
  - rewrite weighted_degree_total by done. simpl.
    destruct Hinv as [Hne Hall].
    destruct (decide (total_degree m variables weights = t)) as [Ht|Ht]; simpl.
    + split; [apply insert_non_empty|].
      intros m' c'. destruct (decide (m' = m)) as [->|Hne'].
      * by rewrite lookup_insert_eq.
      * rewrite lookup_insert_ne by done. apply Hall.
    + split; [done|].
      apply map_choose in Hne as (m2 & c2 & Hm2).
      exists m, c, m2, c2. rewrite lookup_insert_eq. split; [done|].
      rewrite lookup_insert_ne by (intros <-; by rewrite Hm in Hm2).
      split; [done|]. by rewrite (Hall m2 c2 Hm2).
  - rewrite weighted_degree_total by done. simpl.
    split; [apply insert_non_empty|].
    intros m' c'. destruct (decide (m' = m)) as [->|Hne'].
    + by rewrite lookup_insert_eq.
    + rewrite lookup_insert_ne by done. rewrite Hinv.
      by rewrite lookup_empty.
  - destruct Hinv as [-> (m1 & c1 & m2 & c2 & H1 & H2 & Hne)].
    split; [done|]. exists m1, c1, m2, c2.
    rewrite !lookup_insert_ne; [done|..]; intros <-; congruence.
Qed.

(** With a weight for no more than every variable, the validator passes
    the polynomials whose terms all have the same weighted degree, whatever
    that degree is, and fails with [NotHomogeneous] on the others. *)
Lemma check_homogeneity_spec (ngens : nat) (p : poly) (variables : list var)
    (weights : list Z) (total_weight : option Z) :
  Forall (fun x => (x < ngens)%nat) variables ->
  (length weights <= length variables)%nat ->
  ((forall m1 c1 m2 c2, p !! m1 = Some c1 -> p !! m2 = Some c2 ->
      total_degree m1 variables weights = total_degree m2 variables weights) ->
   _check_homogeneity ngens p variables weights total_weight = OK tt) /\
  ((exists m1 c1 m2 c2, p !! m1 = Some c1 /\ p !! m2 = Some c2 /\
      total_degree m1 variables weights <> total_degree m2 variables weights) ->
   _check_homogeneity ngens p variables weights total_weight
   = Raise (NotHomogeneous weights)).
Proof.
  intros HV Hlen. unfold _check_homogeneity.
  rewrite (mapM_gens_index_OK _ _ HV). simpl.
  assert (Hinv : homogeneity_inv variables weights
            (map_fold (fun e _ state =>
                         homogeneity_step variables weights e state)
                      (OK None) p) p).
  { apply (map_fold_weak_ind (homogeneity_inv variables weights)).
    - done.
    - intros m c p' st Hm IH. by apply homogeneity_inv_step. }
  destruct (map_fold _ _ p) as [[t|]|e]; simpl in *.
  - split; [done|]. intros (m1 & c1 & m2 & c2 & H1 & H2 & Hne).
    destruct Hinv as [_ Hall].
    by rewrite (Hall _ _ H1), (Hall _ _ H2) in Hne.
  - split; [done|]. intros (m1 & c1 & m2 & c2 & H1 & H2 & Hne).
    rewrite Hinv in H1. by rewrite lookup_empty in H1.
  - destruct Hinv as [-> (m1 & c1 & m2 & c2 & H1 & H2 & Hne)].
    split; [|done]. intros Hall. by destruct (Hne (Hall _ _ _ _ H1 H2)).
Qed.

(** The required total weight plays no part in the outcome. *)
Lemma check_homogeneity_total_weight (ngens : nat) (p : poly)
    (variables : list var) (weights : list Z) (t t' : option Z) :
  _check_homogeneity ngens p variables weights t =
  _check_homogeneity ngens p variables weights t'.
Proof. reflexivity. Qed.

(** C4: [x^4] is homogeneous of weight 4 for the weights [(1, 1, 1)]; asked
    for the total weight 3, the validator passes it all the same. *)
Theorem check_homogeneity_accepts_wrong_total_weight :
  _check_homogeneity 3 quartic_power [0; 1; 2]%nat [1; 1; 1]%Z (Some 3%Z)
  = OK tt.
Proof. vm_compute. reflexivity. Qed.

(** ** The number of variables *)

(** C9: a list of variables whose length is neither 2 nor the number of
    homogeneous coordinates of the family makes the reducer of the family
    fail with [TooManyOrFewVariables], whatever the polynomial. *)
Theorem reducer_variable_count (F : family) (ngens : nat) (p : poly)
    (variables : list var) :
  length variables <> 2%nat ->
  length variables <> homogeneous_count F ->
  family_reducer F ngens p (Some variables)
  = Raise (TooManyOrFewVariables variables).
Proof.
  intros H2 HF.
  destruct variables as [|v0 [|v1 [|v2 [|v3 [|v4 vs]]]]];
    destruct F; simpl in *; try done.
Qed.

Lemma reducer_variable_count_witness :
  family_reducer Biquadric 3 fermat_cubic (Some [0; 1; 2]%nat)
  = Raise (TooManyOrFewVariables [0; 1; 2]%nat).
Proof.
  apply (reducer_variable_count Biquadric 3 fermat_cubic [0; 1; 2]%nat);
    simpl; lia.
Defined.

(** ** Squares of non-zero polynomials are non-zero *)

Lemma leading_elem_of (vars : list var) (S : list mono) (m : mono) :
  m ∈ leading vars S -> m ∈ S.
Proof.
  revert S. induction vars as [|x vs IH]; intros S; simpl; [done|].
  intros Hm%IH. by apply list_elem_of_filter in Hm as [_ ?].
Qed.

Lemma leading_nonempty (vars : list var) (S : list mono) :
  S <> [] -> leading vars S <> [].
Proof.
  revert S. induction vars as [|x vs IH]; intros S HS; simpl; [done|].
  apply IH.
  assert (Hmax : max_list ((fun m => exponent m x) <$> S)
                 ∈ (fun m => exponent m x) <$> S).
  { apply max_list_elem_of. by destruct S. }
  apply list_elem_of_fmap in Hmax as (m & Hm & Hin).
  intros Hnil.
  assert (Hf : m ∈ filter (fun m => exponent m x
               = max_list ((fun m => exponent m x) <$> S)) S).
  { apply list_elem_of_filter. by split. }
  rewrite Hnil in Hf. by apply elem_of_nil in Hf.
Qed.

Lemma leading_agree (vars : list var) (S : list mono) (M M' : mono) (x : var) :
  M ∈ leading vars S -> M' ∈ leading vars S -> x ∈ vars ->
  exponent M x = exponent M' x.
Proof.
  revert S. induction vars as [|y vs IH]; intros S HM HM' Hx.
  - by apply elem_of_nil in Hx.
  - simpl in HM, HM'. apply elem_of_cons in Hx as [->|Hx].
    + apply leading_elem_of, list_elem_of_filter in HM as [-> _].
      by apply leading_elem_of, list_elem_of_filter in HM' as [-> _].
    + by apply (IH _ HM HM' Hx).
Qed.

Lemma leading_square (vars : list var) (S : list mono) (M m1 m2 : mono) :
  M ∈ leading vars S -> m1 ∈ S -> m2 ∈ S -> m1 ⊎ m2 = M ⊎ M ->
  m1 ∈ leading vars S /\ m2 ∈ leading vars S.
Proof.
  revert S. induction vars as [|x vs IH]; intros S HM H1 H2 Heq; [done|].
  simpl in *. set (d := max_list ((fun m => exponent m x) <$> S)) in *.
  assert (HMd : exponent M x = d).
  { by apply leading_elem_of, list_elem_of_filter in HM as [? _]. }
  assert (Hle : forall m, m ∈ S -> (exponent m x <= d)%nat).
  { intros m Hm. apply max_list_elem_of_le, list_elem_of_fmap. by exists m. }
  assert (Hsum : (exponent m1 x + exponent m2 x = d + d)%nat).
  { unfold exponent in *.
    rewrite <- HMd, <- !multiplicity_disj_union. by rewrite Heq. }
  pose proof (Hle m1 H1) as Hle1. pose proof (Hle m2 H2) as Hle2.
  assert (exponent m1 x = d /\ exponent m2 x = d) as [Hd1 Hd2].
  { clearbody d. clear -Hsum Hle1 Hle2. lia. }
  apply IH; [done| | |done]; by apply list_elem_of_filter.
Qed.

Lemma leading_unique (S : list mono) (M m : mono) :
  M ∈ leading (S ≫= elements) S -> m ∈ leading (S ≫= elements) S -> m = M.
Proof.
  intros HM Hm. apply gmultiset_eq. intros x.
  destruct (decide (x ∈ S ≫= elements)) as [Hx|Hx].
  - apply (leading_agree _ _ _ _ _ Hm HM Hx).
  - assert (Hout : forall k, k ∈ S -> multiplicity x k = 0%nat).
    { intros k Hk. destruct (multiplicity x k) as [|n] eqn:Hn; [done|].
      exfalso. apply Hx. apply list_elem_of_bind. exists k. split; [|done].
      apply gmultiset_elem_of_elements, elem_of_multiplicity. lia. }
    rewrite (Hout m), (Hout M); [done|by eapply leading_elem_of..].
Qed.

Lemma mono_mul_div_l (m1 m2 : mono) : (m1 ⊎ m2) ∖ m1 = m2.
Proof. multiset_solver. Qed.

Lemma mono_mul_divides_l (m1 m2 : mono) : m1 ⊆ m1 ⊎ m2.
Proof. multiset_solver. Qed.

Lemma mono_div_mul_l (d m : mono) : d ⊆ m -> d ⊎ m ∖ d = m.
Proof. multiset_solver. Qed.

Lemma tcoeff_term_products_unique (l1 l2 : list (mono * Qc)) (M1 M2 : mono) :
  (forall t1 t2, t1 ∈ l1 -> t2 ∈ l2 -> t1.1 ⊎ t2.1 = M1 ⊎ M2 ->
     t1.1 = M1 /\ t2.1 = M2) ->
  tcoeff (term_products l1 l2) (M1 ⊎ M2) = tcoeff l1 M1 * tcoeff l2 M2.
Proof.
  intros Huniq. induction l1 as [|t l1 IH]; [simpl; ring|].
  rewrite term_products_cons, tcoeff_app, tcoeff_term_mul, IH.
  2:{ intros t1 t2 H1 H2. apply Huniq; [by right|done]. }
  simpl. destruct (decide (M1 = t.1)) as [<-|Hne].
  - rewrite decide_True by apply mono_mul_divides_l.
    rewrite mono_mul_div_l. ring.
  - destruct (decide (t.1 ⊆ M1 ⊎ M2)) as [Hd|Hd]; [|ring].
    rewrite tcoeff_notin; [ring|].
    intros ((k & c) & Hk & Hin)%list_elem_of_fmap. simpl in Hk.
    destruct (Huniq t (k, c)) as [? _]; [by left|done| |done].
    simpl. rewrite <- Hk. by apply mono_div_mul_l.
Qed.

Lemma pmul_square_nonzero (g : poly) :
  wf_poly g -> g <> pzero -> pmul g g <> pzero.
Proof.
  intros Hwf Hg Hsq.
  set (L := map_to_list g). set (S := L.*1).
  assert (HS : S <> []).
  { unfold S, L. intros Hnil. apply fmap_nil_inv in Hnil.
    by apply map_to_list_empty_iff in Hnil. }
  destruct (leading (S ≫= elements) S) as [|M rest] eqn:Hlead.
  { by apply (leading_nonempty (S ≫= elements)) in HS. }
  assert (HM : M ∈ leading (S ≫= elements) S) by (rewrite Hlead; by left).
  assert (HMS : M ∈ S) by by eapply leading_elem_of.
  apply list_elem_of_fmap in HMS as ((M' & c) & HM' & Hin).
  simpl in HM'. subst M'. apply elem_of_map_to_list in Hin.
  assert (Hc : coeff (pmul g g) (M ⊎ M) = c * c).
  { rewrite coeff_pmul, tcoeff_term_products_unique.
    - rewrite tcoeff_map_to_list. unfold coeff. by rewrite Hin.
    - intros t1 t2 H1 H2 Heq.
      assert (t1.1 ∈ S) by (apply list_elem_of_fmap; by exists t1).
      assert (t2.1 ∈ S) by (apply list_elem_of_fmap; by exists t2).
      destruct (leading_square _ _ _ _ _ HM H H0 Heq) as [Hl1 Hl2].
      split; by apply (leading_unique S). }
  rewrite Hsq in Hc. unfold pzero in Hc. rewrite coeff_empty in Hc.
  symmetry in Hc. apply Qcmult_integral in Hc. apply (Hwf M c Hin).
  by destruct Hc.
Qed.

(** ** Discriminant and j-invariant *)

Lemma pmul_empty_l (q : poly) : pmul ∅ q = ∅.
Proof. unfold pmul. by rewrite map_to_list_empty. Qed.

Lemma pscale_empty (c : Qc) : pscale c ∅ = ∅.
Proof. unfold pscale. destruct (decide (c = 0)); [done|apply fmap_empty]. Qed.

Lemma pscale_eq_empty (c : Qc) (p : poly) : c <> 0 -> pscale c p = ∅ -> p = ∅.
Proof.
  intros Hc. unfold pscale. rewrite decide_False by done.
  apply fmap_empty_inv.
Qed.

Lemma discriminant_of_zero_l (g : poly) :
  discriminant_of pzero g = pscale (Q2Qc 27) (pmul g g).
Proof.
  unfold discriminant_of, pzero. simpl.
  by rewrite !pmul_empty_l, pscale_empty, padd_empty_l.
Qed.

(** A vanishing discriminant with [f = 0] is the case [f = g = 0]. *)
Lemma cuspidal_iff (f g : poly) :
  wf_poly g ->
  discriminant_of f g = pzero /\ f = pzero <-> f = pzero /\ g = pzero.
Proof.
  intros Hg. split.
  - intros [Hdisc ->]. split; [done|].
    rewrite discriminant_of_zero_l in Hdisc.
    apply pscale_eq_empty in Hdisc; [|done].
    destruct (decide (g = pzero)) as [|Hne]; [done|].
    by destruct (pmul_square_nonzero g Hg Hne).
  - intros [-> ->]. split; [|done].
    rewrite discriminant_of_zero_l. unfold pzero.
    by rewrite pmul_empty_l, pscale_empty.
Qed.

Section Auxiliary.
Variable classify :
  list (list nat) -> option (family * (list nat -> nat * nat)).
Variable WeierstrassForm2 :
  nat -> list poly -> option (list var) -> bool -> result output.
Variable WeierstrassMap : nat -> poly -> option (list var) -> result output.

(** C8: when [WeierstrassForm] returns [(f, g)], [Discriminant] on the
    same polynomial and variables returns [4*f^3 + 27*g^2]. *)
Theorem Discriminant_of_WeierstrassForm (ngens : nat) (polynomial : input)
    (variables : option (list var)) (f g : poly) :
  WeierstrassForm classify WeierstrassForm2 WeierstrassMap
    ngens polynomial variables false = OK (Coefficients f g) ->
  Discriminant classify WeierstrassForm2 WeierstrassMap
    ngens polynomial variables
  = OK (padd (pscale (Q2Qc 4) (ppow f 3)) (pscale (Q2Qc 27) (ppow g 2))).
Proof. intros H. unfold Discriminant. by rewrite H. Qed.

(** C7: when [WeierstrassForm] returns [(f, g)], [j_invariant] returns
    [1728 * 4f^3 / (4f^3 + 27g^2)] if the discriminant is not zero and
    [+Infinity] if it is zero and [f] is not; it fails with
    [UndefinedJInvariant] exactly when the discriminant and [f] are zero,
    which is the case [f = g = 0]. *)
Theorem j_invariant_of_WeierstrassForm (ngens : nat) (polynomial : input)
    (variables : option (list var)) (f g : poly) :
  WeierstrassForm classify WeierstrassForm2 WeierstrassMap
    ngens polynomial variables false = OK (Coefficients f g) ->
  wf_poly g ->
  let disc := padd (pscale (Q2Qc 4) (ppow f 3))
                   (pscale (Q2Qc 27) (ppow g 2)) in
  let j := j_invariant classify WeierstrassForm2 WeierstrassMap
             ngens polynomial variables in
  (disc <> pzero ->
     j = OK (Quotient (pscale (Q2Qc 1728 * Q2Qc 4) (ppow f 3)) disc)) /\
  (disc = pzero -> f <> pzero -> j = OK Infinity) /\
  (j = Raise UndefinedJInvariant <-> disc = pzero /\ f = pzero) /\
  (disc = pzero /\ f = pzero <-> f = pzero /\ g = pzero).
Proof.
  intros H Hg disc j.
  assert (Hj : j = if decide (disc <> pzero) then
                     OK (Quotient (pscale (Q2Qc 1728 * Q2Qc 4) (ppow f 3))
                                  disc)
                   else if decide (f <> pzero) then OK Infinity
                   else Raise UndefinedJInvariant).
  { unfold j, j_invariant. by rewrite H. }
  split; [|split; [|split]].
  - intros Hd. rewrite Hj. by rewrite decide_True.
  - intros Hd Hf. rewrite Hj.
    rewrite decide_False by (intros Hne; by apply Hne).
    by rewrite decide_True.
  - rewrite Hj. destruct (decide (disc <> pzero)) as [Hd|Hd].
    + split; [done|]. by intros [? _].
    + destruct (decide (f <> pzero)) as [Hf|Hf].
      * split; [done|]. by intros [_ ?].
      * split; [|done]. intros _.
        split; [by destruct (decide (disc = pzero))
               |by destruct (decide (f = pzero))].
  - by apply cuspidal_iff.
Qed.
End Auxiliary.

Lemma Discriminant_of_WeierstrassForm_witness :
  Discriminant cubic_classifier no_WeierstrassForm2 no_WeierstrassMap
    2 (Single affine_fermat_cubic) None
  = OK (padd (pscale (Q2Qc 4) (ppow pzero 3))
             (pscale (Q2Qc 27) (ppow (pconst (Q2Qc (-27 # 4))) 2))).
Proof.
  apply (Discriminant_of_WeierstrassForm cubic_classifier no_WeierstrassForm2
           no_WeierstrassMap 2 (Single affine_fermat_cubic) None
           pzero (pconst (Q2Qc (-27 # 4)))).
  by_evaluation.
Defined.

Lemma j_invariant_of_WeierstrassForm_witness :
  let f := pconst (Q2Qc (-1 # 3)) in
  let g := pconst (Q2Qc (2 # 27)) in
  let disc := padd (pscale (Q2Qc 4) (ppow f 3))
                   (pscale (Q2Qc 27) (ppow g 2)) in
  let j := j_invariant cubic_classifier no_WeierstrassForm2 no_WeierstrassMap
             2 (Single nodal_cubic) None in
  (disc <> pzero ->
     j = OK (Quotient (pscale (Q2Qc 1728 * Q2Qc 4) (ppow f 3)) disc)) /\
  (disc = pzero -> f <> pzero -> j = OK Infinity) /\
  (j = Raise UndefinedJInvariant <-> disc = pzero /\ f = pzero) /\
  (disc = pzero /\ f = pzero <-> f = pzero /\ g = pzero).
Proof.
  apply (j_invariant_of_WeierstrassForm cubic_classifier no_WeierstrassForm2
           no_WeierstrassMap 2 (Single nodal_cubic) None
           (pconst (Q2Qc (-1 # 3))) (pconst (Q2Qc (2 # 27)))).
  - by_evaluation.
  - by_evaluation.
Defined.

(** ** The coefficient extractor *)

Lemma padd_singleton_fresh_l (q : poly) (k : mono) (c : Qc) :
  q !! k = None -> padd {[ k := c ]} q = <[ k := c ]> q.
Proof.
  intros Hk. apply map_eq; intros m. rewrite lookup_padd.
  destruct (decide (m = k)) as [->|Hne].
  - by rewrite Hk, lookup_singleton_eq, lookup_insert_eq.
  - rewrite lookup_singleton_ne, lookup_insert_ne by done.
    by destruct (q !! m).
Qed.

Lemma pfloordiv_mono_empty (m : mono) : pfloordiv_mono ∅ m = pzero.
Proof. unfold pfloordiv_mono. by rewrite map_fold_empty. Qed.

Section Extractor.
Variable variables : list var.

Lemma accumulated_inv_dget (coeffs : pdict) (p : poly) (i : list nat) :
  accumulated_inv variables coeffs p -> dget coeffs i = index_class variables p i.
Proof.
  intros Hinv. unfold dget. rewrite (Hinv i).
  by destruct (decide (index_class variables p i = ∅)) as [->|].
Qed.

Lemma accumulated_inv_step (m : mono) (c : Qc) (coeffs : pdict) (p : poly) :
  p !! m = None -> c <> 0 -> accumulated_inv variables coeffs p ->
  accumulated_inv variables (accumulate_step variables m c coeffs) (<[ m := c ]> p).
Proof.
  intros Hm Hc Hinv i. unfold accumulate_step.
  set (i0 := monomial_index variables m).
  rewrite (accumulated_inv_dget _ _ _ Hinv).
  unfold pterm. rewrite decide_False by done.
  rewrite padd_singleton_fresh_l.
  2:{ unfold index_class. apply map_lookup_filter_None. by left. }
  destruct (decide (i = i0)) as [->|Hne].
  - rewrite lookup_insert_eq. unfold index_class.
    rewrite map_filter_insert_True by done.
    rewrite decide_False; [done|]. apply insert_non_empty.
  - rewrite lookup_insert_ne, lookup_delete_ne by done.
    rewrite (Hinv i). unfold index_class.
    rewrite map_filter_insert_False by (simpl; by intros <-).
    by rewrite delete_id.
Qed.

Lemma accumulated_spec (p : poly) :
  wf_poly p -> accumulated_inv variables (accumulated variables p) p.
Proof.
  unfold accumulated.
  apply (map_fold_weak_ind
           (fun coeffs p => wf_poly p -> accumulated_inv variables coeffs p)
           (accumulate_step variables)).
  - intros _ i. unfold index_class.
    rewrite map_filter_empty. by rewrite decide_True.
  - intros m c p' coeffs Hm IH Hwf.
    apply wf_poly_insert in Hwf as [Hc Hwf]; [|done].
    apply accumulated_inv_step; auto.
Qed.

Lemma dget_delete (coeffs : pdict) (i j : list nat) :
  dget (delete j coeffs) i = if decide (i = j) then pzero else dget coeffs i.
Proof.
  unfold dget. destruct (decide (i = j)) as [->|Hne].
  - by rewrite lookup_delete_eq.
  - by rewrite lookup_delete_ne.
Qed.

Lemma service_answers (monomials : list mono) (coeffs : pdict) :
  (service variables monomials coeffs).1 =
    imap (fun k m =>
            if decide (monomial_index variables m
                       ∈ take k (monomial_index variables <$> monomials))
            then pzero
            else pfloordiv_mono (dget coeffs (monomial_index variables m)) m)
         monomials.
Proof.
  revert coeffs. induction monomials as [|m ms IH]; intros coeffs; [done|].
  simpl. destruct (service variables ms _) as [qs rest] eqn:Hs. simpl.
  f_equal.
  pose proof (IH (delete (monomial_index variables m) coeffs)) as IH'.
  rewrite Hs in IH'. simpl in IH'. rewrite IH'.
  apply imap_ext. intros k m' _. simpl. rewrite dget_delete.
  destruct (decide (monomial_index variables m'
                    = monomial_index variables m)) as [Heq|Hne].
  - rewrite (decide_True (P := _ ∈ _ :: _)) by (rewrite Heq; by left).
    destruct (decide _); [done|apply pfloordiv_mono_empty].
  - destruct (decide (_ ∈ take k _)) as [Hin|Hin].
    + rewrite decide_True; [done|]. by right.
    + rewrite decide_False; [done|].
      by intros [?|?]%elem_of_cons.
Qed.

Lemma service_rest (monomials : list mono) (coeffs : pdict) :
  (service variables monomials coeffs).2 =
    filter (fun e => e.1 ∉ monomial_index variables <$> monomials) coeffs.
Proof.
  revert coeffs. induction monomials as [|m ms IH]; intros coeffs.
  - simpl. symmetry. apply map_filter_id. intros i q _. simpl.
    by intros ?%elem_of_nil.
  - simpl. destruct (service variables ms _) as [qs rest] eqn:Hs. simpl.
    pose proof (IH (delete (monomial_index variables m) coeffs)) as IH'.
    rewrite Hs in IH'. simpl in IH'. rewrite IH'.
    apply map_eq. intros i. rewrite !map_lookup_filter.
    destruct (decide (i = monomial_index variables m)) as [->|Hne].
    + rewrite lookup_delete_eq. simpl.
      destruct (coeffs !! _) as [q|]; [|done]. simpl.
      rewrite option_guard_False; [done|]. simpl. intros Hn. apply Hn. by left.
    + rewrite lookup_delete_ne by done.
      destruct (coeffs !! i) as [q|]; [|done]. simpl.
      destruct (decide (i ∈ monomial_index variables <$> ms)) as [Hin|Hin].
      * rewrite !option_guard_False; [done| |]; simpl; intros Hn; apply Hn;
          [by right|done].
      * rewrite !option_guard_True; [done| |]; simpl; [|done].
        by intros [?|?]%elem_of_cons.
Qed.
End Extractor.

Lemma extract_coefficients_unfold (ngens : nat) (p : poly)
    (monomials : list mono) (variables : list var) :
  Forall (fun x => (x < ngens)%nat) variables ->
  _extract_coefficients ngens p monomials variables =
    let r := service variables monomials (accumulated variables p) in
    if decide (r.2 = ∅) then OK r.1 else Raise (UnexpectedMonomials r.2).
Proof.
  intros HV. unfold _extract_coefficients.
  rewrite (mapM_gens_index_OK _ _ HV). simpl. fold (accumulated variables p).
  by destruct (service variables monomials (accumulated variables p)).
Qed.

Lemma service_accumulated_answers (variables : list var) (p : poly)
    (monomials : list mono) :
  wf_poly p ->
  (service variables monomials (accumulated variables p)).1
  = requested_coefficients variables p monomials.
Proof.
  intros Hwf. rewrite service_answers. unfold requested_coefficients.
  apply imap_ext. intros k m _. simpl.
  destruct (decide _); [done|]. unfold coefficient_of.
  by rewrite (accumulated_inv_dget variables _ p _ (accumulated_spec _ p Hwf)).
Qed.

(** No entry is left unmatched exactly when every term of the polynomial has
    the exponents of a requested monomial. *)
Lemma unmatched_empty_iff (variables : list var) (p : poly)
    (monomials : list mono) :
  wf_poly p ->
  unmatched variables p monomials = ∅ <->
  forall m c, p !! m = Some c ->
    monomial_index variables m ∈ monomial_index variables <$> monomials.
Proof.
  intros Hwf. pose proof (accumulated_spec variables p Hwf) as Hacc.
  unfold unmatched. split.
  - intros Hall m c Hm.
    destruct (decide (monomial_index variables m
                      ∈ monomial_index variables <$> monomials)) as [|Hout];
      [done|exfalso].
    assert (Hcls : index_class variables p (monomial_index variables m) <> ∅).
    { intros Hempty.
      assert (Hin : index_class variables p (monomial_index variables m) !! m
                    = Some c).
      { unfold index_class. apply map_lookup_filter_Some. by split. }
      rewrite Hempty in Hin. by rewrite lookup_empty in Hin. }
    pose proof (Hacc (monomial_index variables m)) as Hlook.
    rewrite decide_False in Hlook by done.
    assert (Hn : filter (fun e : list nat * poly =>
                           e.1 ∉ monomial_index variables <$> monomials)
                   (accumulated variables p) !! monomial_index variables m
                 = None) by (rewrite Hall; apply lookup_empty).
    apply map_lookup_filter_None in Hn as [Hn|Hn].
    + by rewrite Hlook in Hn.
    + by apply (Hn _ Hlook).
  - intros Hall. apply map_empty. intros i. apply map_lookup_filter_None.
    right. intros q Hq Hout. simpl in Hout. apply Hout.
    rewrite (Hacc i) in Hq.
    destruct (decide (index_class variables p i = ∅)) as [|Hne]; [done|].
    apply map_choose in Hne as (m & c & Hm).
    unfold index_class in Hm. apply map_lookup_filter_Some in Hm as [Hm Hi].
    simpl in Hi. rewrite <- Hi. by apply (Hall m c).
Qed.

(** C5: the coefficient extractor answers in request order with the
    coefficient of each requested monomial, which is the zero of the ring
    for a monomial absent from the polynomial, and fails with
    [UnexpectedMonomials], naming them, exactly when entries of the
    accumulated dictionary are left once all requests are served. *)
Theorem extract_coefficients_spec (ngens : nat) (p : poly)
    (monomials : list mono) (variables : list var) :
  wf_poly p -> Forall (fun x => (x < ngens)%nat) variables ->
  (forall i, accumulated variables p !! i =
     if decide (index_class variables p i = ∅) then None
     else Some (index_class variables p i)) /\
  (forall m, index_class variables p (monomial_index variables m) = ∅ ->
     coefficient_of variables p m = pzero) /\
  (unmatched variables p monomials = ∅ ->
     _extract_coefficients ngens p monomials variables
     = OK (requested_coefficients variables p monomials)) /\
  (unmatched variables p monomials <> ∅ ->
     _extract_coefficients ngens p monomials variables
     = Raise (UnexpectedMonomials (unmatched variables p monomials))).
Proof.
  intros Hwf HV. split; [|split; [|split]].
  - apply (accumulated_spec variables p Hwf).
  - intros m Hm. unfold coefficient_of. rewrite Hm.
    apply pfloordiv_mono_empty.
  - intros Hnone. rewrite (extract_coefficients_unfold _ _ _ _ HV). simpl.
    rewrite service_rest. fold (unmatched variables p monomials).
    rewrite decide_True by done.
    by rewrite service_accumulated_answers.
  - intros Hsome. rewrite (extract_coefficients_unfold _ _ _ _ HV). simpl.
    rewrite service_rest. fold (unmatched variables p monomials).
    by rewrite decide_False.
Qed.

(** ** The partial discriminant *)

Lemma pconst_terms (c : Qc) : peq (pconst c) (of_terms [(mono_one, c)]).
Proof.
  intros k. unfold pconst. rewrite coeff_pterm, coeff_of_terms. simpl.
  destruct (decide (k = mono_one)); ring.
Qed.

Lemma pscale_pmul_pconst (c : Qc) (p : poly) :
  peq (pscale c p) (pmul (pconst c) p).
Proof.
  rewrite pconst_terms. rewrite <- (of_terms_map_to_list p) at 2.
  rewrite pmul_of_terms. intros k.
  rewrite coeff_pscale, coeff_of_terms, term_products_cons, tcoeff_app.
  rewrite tcoeff_term_mul. simpl. unfold mono_one.
  rewrite decide_True by multiset_solver.
  replace (k ∖ ∅) with k by multiset_solver.
  rewrite tcoeff_map_to_list. ring.
Qed.

Lemma pmul_pscale_swap (c : Qc) (p q : poly) :
  pmul (pscale c p) q = pmul (pscale c q) p.
Proof.
  apply peq_eq; [apply wf_poly_pmul..|].
  rewrite !pscale_pmul_pconst. ring.
Qed.

Lemma var_pow_nonempty (x : var) (k : nat) : var_pow x (S k) <> mono_one.
Proof.
  simpl. unfold mono_one. intros H.
  apply (f_equal (multiplicity x)) in H.
  rewrite multiplicity_disj_union, multiplicity_singleton_eq,
    multiplicity_empty in H. lia.
Qed.

Lemma exponent_var_pow (x j : var) (k : nat) :
  exponent (var_pow x k) j = if decide (j = x) then k else 0%nat.
Proof. apply multiplicity_var_pow. Qed.

Lemma exponent_mono_mul (m1 m2 : mono) (j : var) :
  exponent (mono_mul m1 m2) j = (exponent m1 j + exponent m2 j)%nat.
Proof. apply multiplicity_disj_union. Qed.

Lemma exponent_mono_one (j : var) : exponent mono_one j = 0%nat.
Proof. apply multiplicity_empty. Qed.

Lemma monomial_index_nonconst (indices : list nat) (m : mono) :
  m <> mono_one -> monomial_index indices m = exponent m <$> indices.
Proof. intros Hm. unfold monomial_index. by rewrite decide_False. Qed.

Lemma mono_mul_nonempty (m1 m2 : mono) :
  m1 <> mono_one -> mono_mul m1 m2 <> mono_one.
Proof. unfold mono_mul, mono_one. multiset_solver. Qed.

Lemma monomial_index_pair (y0 y1 : var) :
  y0 <> y1 ->
  monomial_index [y0; y1] (var_pow y1 2) = [0; 2]%nat /\
  monomial_index [y0; y1] (mono_mul (var_pow y0 1) (var_pow y1 1))
    = [1; 1]%nat /\
  monomial_index [y0; y1] (var_pow y0 2) = [2; 0]%nat.
Proof.
  intros Hne.
  rewrite !monomial_index_nonconst
    by first [apply var_pow_nonempty
             |apply mono_mul_nonempty, var_pow_nonempty].
  rewrite !fmap_cons, !fmap_nil, !exponent_mono_mul, !exponent_var_pow.
  repeat case_decide; try done; congruence.
Qed.

Lemma monomial_index_single (y0 : var) :
  monomial_index [y0] mono_one = [0]%nat /\
  monomial_index [y0] (var_pow y0 1) = [1]%nat /\
  monomial_index [y0] (var_pow y0 2) = [2]%nat.
Proof.
  unfold monomial_index. rewrite decide_True by done.
  rewrite !decide_False by apply var_pow_nonempty.
  rewrite !fmap_cons, !exponent_var_pow. by rewrite !decide_True.
Qed.

Lemma requested_coefficients_three (variables : list var) (p : poly)
    (m2 m1 m0 : mono) :
  monomial_index variables m1 <> monomial_index variables m2 ->
  monomial_index variables m0 <> monomial_index variables m2 ->
  monomial_index variables m0 <> monomial_index variables m1 ->
  requested_coefficients variables p [m2; m1; m0]
  = [coefficient_of variables p m2; coefficient_of variables p m1;
     coefficient_of variables p m0].
Proof.
  intros H12 H02 H01. unfold requested_coefficients. simpl.
  rewrite (decide_False (P := _ ∈ [_])).
  2:{ intros [?|?%elem_of_nil]%elem_of_cons; done. }
  rewrite (decide_False (P := _ ∈ [_; _])); [done|].
  intros [?|[?|?%elem_of_nil]%elem_of_cons]%elem_of_cons; done.
Qed.

(** C3: for a polynomial that is a quadratic form in the pair [(y0, y1)], or
    at most quadratic in [y0] alone, the partial discriminant is
    [c1^2 - 4*c0*c2] for the coefficients [c2, c1, c0] of
    [y1^2, y0*y1, y0^2] (of [1, y0, y0^2]) that the coefficient extractor
    gives. *)
Theorem partial_discriminant_spec (ngens : nat) (quadric : poly) (y0 : var)
    (y1 : option var) :
  wf_poly quadric ->
  (y0 < ngens)%nat -> (forall y, y1 = Some y -> (y < ngens)%nat) ->
  quadratic_in quadric y0 y1 ->
  let '(c2, c1, c0) := quadratic_coefficients quadric y0 y1 in
  _partial_discriminant ngens quadric y0 y1
  = OK (psub (ppow c1 2) (pmul (pscale (Q2Qc 4) c0) c2)).
Proof.
  intros Hwf Hy0 Hy1 Hquad. destruct y1 as [y1|]; simpl.
  - destruct Hquad as [Hne Hquad].
    destruct (monomial_index_pair y0 y1 Hne) as (I2 & I1 & I0).
    assert (HV : Forall (fun x => (x < ngens)%nat) [y0; y1]).
    { repeat constructor; [done|]. by apply Hy1. }
    destruct (extract_coefficients_spec ngens quadric
                [var_pow y1 2; mono_mul (var_pow y0 1) (var_pow y1 1);
                 var_pow y0 2] [y0; y1] Hwf HV) as (_ & _ & Hok & _).
    unfold _partial_discriminant. rewrite Hok.
    + rewrite requested_coefficients_three by (rewrite ?I2, ?I1, ?I0; done).
      simpl. f_equal. f_equal. apply pmul_pscale_swap.
    + apply unmatched_empty_iff; [done|]. intros m c Hm.
      specialize (Hquad m c Hm).
      rewrite !fmap_cons, fmap_nil, I2, I1, I0.
      rewrite monomial_index_nonconst.
      2:{ intros ->. rewrite !exponent_mono_one in Hquad. lia. }
      rewrite !fmap_cons, fmap_nil.
      destruct (exponent m y0) as [|[|[|e]]] eqn:E0; [| | |lia].
      * replace (exponent m y1) with 2%nat by lia. set_solver.
      * replace (exponent m y1) with 1%nat by lia. set_solver.
      * replace (exponent m y1) with 0%nat by lia. set_solver.
  - destruct (monomial_index_single y0) as (I2 & I1 & I0).
    assert (HV : Forall (fun x => (x < ngens)%nat) [y0]).
    { by repeat constructor. }
    destruct (extract_coefficients_spec ngens quadric
                [mono_one; var_pow y0 1; var_pow y0 2] [y0] Hwf HV)
      as (_ & _ & Hok & _).
    unfold _partial_discriminant. rewrite Hok.
    + rewrite requested_coefficients_three by (rewrite ?I2, ?I1, ?I0; done).
      simpl. f_equal. f_equal. apply pmul_pscale_swap.
    + apply unmatched_empty_iff; [done|]. intros m c Hm.
      specialize (Hquad m c Hm).
      rewrite !fmap_cons, fmap_nil, I2, I1, I0.
      destruct (decide (m = mono_one)) as [->|Hm1].
      * rewrite I2. set_solver.
      * rewrite monomial_index_nonconst by done.
        rewrite !fmap_cons, fmap_nil.
        destruct (exponent m y0) as [|[|[|e]]] eqn:E0; [| | |lia]; set_solver.
Qed.

(** ** The invariants of the binary quartic and of the ternary cubic *)

(** Sums, differences and products are in normal form. *)
Ltac wf_tac :=
  repeat first [ apply wf_poly_pmul | apply wf_poly_psub | apply wf_poly_padd
               | apply wf_poly_pneg | apply wf_poly_pconst
               | apply wf_poly_empty ].

(** The formulas of the invariants, down to the ring operations. *)
Ltac expose :=
  cbv beta iota zeta delta
    [S_invariant T_invariant aronhold_S aronhold_T scale_cubic rpow ppow
     EisensteinD EisensteinE quartic_I quartic_J
     a30 a21 a12 a03 a20 a11 a02 a10 a01 a00 e0 e1 e2 e3 e4].

(** [EisensteinD] is the invariant [I] of the spec. *)
Lemma EisensteinD_quartic_I (Q : BinaryQuartic poly) :
  EisensteinD padd pmul psub pinj Q = quartic_I padd pmul psub pinj Q.
Proof. apply peq_eq; expose; [wf_tac..|ring]. Qed.

(** The negative of [EisensteinE] is the invariant [J] of the spec. *)
Lemma EisensteinE_quartic_J (Q : BinaryQuartic poly) :
  pneg (EisensteinE padd pmul psub pinj Q) = quartic_J padd pmul psub pinj Q.
Proof. apply peq_eq; expose; [wf_tac..|ring]. Qed.

(** The Aronhold invariant [S] is homogeneous of degree 4. *)
Lemma S_invariant_homogeneous (t : poly) (C : TernaryCubic poly) :
  S_invariant (scale_cubic t C) = pmul (ppow t 4) (S_invariant C).
Proof. apply peq_eq; expose; [wf_tac..|ring]. Qed.

(** The Aronhold invariant [T] is homogeneous of degree 6. *)
Lemma T_invariant_homogeneous (t : poly) (C : TernaryCubic poly) :
  T_invariant (scale_cubic t C) = pmul (ppow t 6) (T_invariant C).
Proof. apply peq_eq; expose; [wf_tac..|ring]. Qed.

(** ** The family reducers *)

(** C1: a cubic that [WeierstrassForm_P2] accepts is sent to
    [(27*S, -(27/4)*T)] for the invariants [S] and [T] of its ten
    coefficients, [S] homogeneous of degree 4 and [T] of degree 6 in them. *)
Theorem WeierstrassForm_P2_spec (ngens : nat) (polynomial : poly)
    (variables : option (list var)) (f g : poly) :
  WeierstrassForm_P2 ngens polynomial variables = OK (f, g) ->
  exists x y z C,
    _check_polynomial_P2 ngens polynomial variables = OK (x, y, z) /\
    ternary_cubic ngens polynomial x y z = OK C /\
    f = pscale (Q2Qc 27) (S_invariant C) /\
    g = pscale (- (Q2Qc 27 / Q2Qc 4)) (T_invariant C) /\
    (forall t, S_invariant (scale_cubic t C)
               = pmul (ppow t 4) (S_invariant C)) /\
    (forall t, T_invariant (scale_cubic t C)
               = pmul (ppow t 6) (T_invariant C)).
Proof.
  unfold WeierstrassForm_P2.
  intros ([[x y] z] & Hcheck & (C & HC & [= <- <-])%bind_OK)%bind_OK.
  exists x, y, z, C.
  split; [done|]. split; [done|]. split; [done|]. split; [|split].
  - assert (Hs : - Q2Qc 27 / Q2Qc 4 = - (Q2Qc 27 / Q2Qc 4))
      by by_evaluation.
    by rewrite Hs.
  - intros t. apply S_invariant_homogeneous.
  - intros t. apply T_invariant_homogeneous.
Qed.

Lemma WeierstrassForm_P2_spec_witness :
  exists x y z C,
    _check_polynomial_P2 3 fermat_cubic None = OK (x, y, z) /\
    ternary_cubic 3 fermat_cubic x y z = OK C /\
    pzero = pscale (Q2Qc 27) (S_invariant C) /\
    pconst (Q2Qc (-27 # 4)) = pscale (- (Q2Qc 27 / Q2Qc 4)) (T_invariant C) /\
    (forall t, S_invariant (scale_cubic t C)
               = pmul (ppow t 4) (S_invariant C)) /\
    (forall t, T_invariant (scale_cubic t C)
               = pmul (ppow t 6) (T_invariant C)).
Proof.
  apply (WeierstrassForm_P2_spec 3 fermat_cubic None
           pzero (pconst (Q2Qc (-27 # 4)))).
  by_evaluation.
Defined.

(** C2: a polynomial that [WeierstrassForm_P1xP1] accepts is sent to
    [(-I/4, -J/4)] for the invariants [I] and [J], in the binomially
    normalised coefficients, of the binary quartic in [(x, y)] that its
    partial discriminant with respect to [(s, t)] is; a polynomial that
    [WeierstrassForm_P2_112] accepts is sent to [(-I/4, -J/4)] for the
    invariants of the binary quartic in [(x, z)] that its partial
    discriminant with respect to [(y, t)] is. *)
Theorem WeierstrassForm_quartic_spec (ngens : nat) (polynomial : poly)
    (variables : option (list var)) (f g : poly) :
  (WeierstrassForm_P1xP1 ngens polynomial variables = OK (f, g) ->
   exists x y s t delta Q,
     _check_polynomial_P1xP1 ngens polynomial variables = OK (x, y, s, t) /\
     _partial_discriminant ngens polynomial s t = OK delta /\
     binary_quartic ngens delta x y = OK Q /\
     f = pdiv_int (pneg (quartic_I padd pmul psub pinj Q)) 4 /\
     g = pdiv_int (pneg (quartic_J padd pmul psub pinj Q)) 4) /\
  (WeierstrassForm_P2_112 ngens polynomial variables = OK (f, g) ->
   exists x y z t delta Q,
     _check_polynomial_P2_112 ngens polynomial variables = OK (x, y, z, t) /\
     _partial_discriminant ngens polynomial y t = OK delta /\
     binary_quartic ngens delta x z = OK Q /\
     f = pdiv_int (pneg (quartic_I padd pmul psub pinj Q)) 4 /\
     g = pdiv_int (pneg (quartic_J padd pmul psub pinj Q)) 4).
Proof.
  split; intros H.
  - unfold WeierstrassForm_P1xP1 in H.
    apply bind_OK in H as ([[[x y] s] t] & Hcheck & H).
    apply bind_OK in H as (delta & Hdelta & H).
    apply bind_OK in H as (Q & HQ & [= <- <-]).
    exists x, y, s, t, delta, Q. split_and?; [done..| |].
    + by rewrite EisensteinD_quartic_I.
    + by rewrite EisensteinE_quartic_J.
  - unfold WeierstrassForm_P2_112 in H.
    apply bind_OK in H as ([[[x y] z] t] & Hcheck & H).
    apply bind_OK in H as (delta & Hdelta & H).
    apply bind_OK in H as (Q & HQ & [= <- <-]).
    exists x, y, z, t, delta, Q. split_and?; [done..| |].
    + by rewrite EisensteinD_quartic_I.
    + by rewrite EisensteinE_quartic_J.
Qed.

Lemma WeierstrassForm_quartic_spec_witness :
  (exists x y s t delta Q,
     _check_polynomial_P1xP1 2 product_biquadric None = OK (x, y, s, t) /\
     _partial_discriminant 2 product_biquadric s t = OK delta /\
     binary_quartic 2 delta x y = OK Q /\
     pconst (Q2Qc (-16 # 3))
       = pdiv_int (pneg (quartic_I padd pmul psub pinj Q)) 4 /\
     pconst (Q2Qc (128 # 27))
       = pdiv_int (pneg (quartic_J padd pmul psub pinj Q)) 4) /\
  (exists x y z t delta Q,
     _check_polynomial_P2_112 4 weighted_quartic (Some [0; 1; 2; 3]%nat)
       = OK (x, y, z, t) /\
     _partial_discriminant 4 weighted_quartic y t = OK delta /\
     binary_quartic 4 delta x z = OK Q /\
     pconst (Q2Qc (-97 # 48))
       = pdiv_int (pneg (quartic_I padd pmul psub pinj Q)) 4 /\
     pconst (Q2Qc (17 # 864))
       = pdiv_int (pneg (quartic_J padd pmul psub pinj Q)) 4).
Proof.
  split.
  - apply (proj1 (WeierstrassForm_quartic_spec 2 product_biquadric None
                    (pconst (Q2Qc (-16 # 3))) (pconst (Q2Qc (128 # 27))))).
    by_evaluation.
  - apply (proj2 (WeierstrassForm_quartic_spec 4 weighted_quartic
                    (Some [0; 1; 2; 3]%nat)
                    (pconst (Q2Qc (-97 # 48))) (pconst (Q2Qc (17 # 864))))).
    by_evaluation.
Defined.

(** ** The theorems on the polynomials of the docstrings *)

Lemma Newton_polytope_vars_coeffs_reconstructs_witness :
  exists d, Newton_polytope_vars_coeffs 4 twisted_cubic [0; 1; 2]%nat = OK d /\
            reconstruct [0; 1; 2]%nat d = twisted_cubic.
Proof.
  apply (Newton_polytope_vars_coeffs_reconstructs 4 twisted_cubic
           [0; 1; 2]%nat).
  - by_evaluation.
  - by_evaluation.
  - repeat constructor; lia.
Defined.

Lemma Newton_polytope_vars_coeffs_nonzero_witness :
  pterm 1 (var_pow 3 1) <> pzero.
Proof.
  apply (Newton_polytope_vars_coeffs_nonzero 4 twisted_cubic [0; 1; 2]%nat
           (map_fold (support_step [0; 1; 2]%nat [0; 1; 2]%nat) ∅
                     twisted_cubic)
           ltac:(by_evaluation) ltac:(by_evaluation) ltac:(by_evaluation)
           [0; 3; 0]%nat).
  by_evaluation.
Defined.

Lemma extract_coefficients_spec_witness :
  let variables := [0; 1; 2]%nat in
  let monomials := [var_pow 0 3; var_pow 1 3; var_pow 2 3] in
  (forall i, accumulated variables twisted_cubic !! i =
     if decide (index_class variables twisted_cubic i = ∅) then None
     else Some (index_class variables twisted_cubic i)) /\
  (forall m,
     index_class variables twisted_cubic (monomial_index variables m) = ∅ ->
     coefficient_of variables twisted_cubic m = pzero) /\
  (unmatched variables twisted_cubic monomials = ∅ ->
     _extract_coefficients 4 twisted_cubic monomials variables
     = OK (requested_coefficients variables twisted_cubic monomials)) /\
  (unmatched variables twisted_cubic monomials <> ∅ ->
     _extract_coefficients 4 twisted_cubic monomials variables
     = Raise (UnexpectedMonomials
                (unmatched variables twisted_cubic monomials))).
Proof.
  apply (extract_coefficients_spec 4 twisted_cubic
           [var_pow 0 3; var_pow 1 3; var_pow 2 3] [0; 1; 2]%nat).
  - by_evaluation.
  - repeat constructor; lia.
Defined.

Lemma partial_discriminant_spec_witness :
  (let '(c2, c1, c0) := quadratic_coefficients binary_conic 0 (Some 1%nat) in
   _partial_discriminant 2 binary_conic 0 (Some 1%nat)
   = OK (psub (ppow c1 2) (pmul (pscale (Q2Qc 4) c0) c2))) /\
  (let '(c2, c1, c0) := quadratic_coefficients product_biquadric 1 None in
   _partial_discriminant 2 product_biquadric 1 None
   = OK (psub (ppow c1 2) (pmul (pscale (Q2Qc 4) c0) c2))).
Proof.
  split.
  - apply (partial_discriminant_spec 2 binary_conic 0 (Some 1%nat)).
    + by_evaluation.
    + lia.
    + intros y [= <-]. lia.
    + split; [done|].
      change (map_Forall
                (fun m _ => (exponent m 0 + exponent m 1 = 2)%nat)
                binary_conic).
      by_evaluation.
  - apply (partial_discriminant_spec 2 product_biquadric 1 None).
    + by_evaluation.
    + lia.
    + intros y [=].
    + unfold quadratic_in.
      change (map_Forall (fun m _ => (exponent m 1 <= 2)%nat)
                product_biquadric).
      by_evaluation.
Defined.

(** [y0^2 + 1] is at most quadratic in the pair [(y0, y1)], and the partial
    discriminant does not return [c1^2 - 4*c0*c2] for it: the term [1], of
    degree 0 in the pair, is none of the three monomials asked for, and the
    coefficient extractor fails with it left over. *)
Lemma partial_discriminant_at_most_quadratic_fails :
  wf_poly inhomogeneous_conic /\
  at_most_quadratic_in inhomogeneous_conic 0 (Some 1%nat) /\
  _partial_discriminant 2 inhomogeneous_conic 0 (Some 1%nat)
  = Raise (UnexpectedMonomials {[ [0; 0]%nat := pconst (Q2Qc 1) ]}) /\
  (let '(c2, c1, c0) :=
     quadratic_coefficients inhomogeneous_conic 0 (Some 1%nat) in
   _partial_discriminant 2 inhomogeneous_conic 0 (Some 1%nat)
   <> OK (psub (ppow c1 2) (pmul (pscale (Q2Qc 4) c0) c2))).
Proof.
  assert (H : _partial_discriminant 2 inhomogeneous_conic 0 (Some 1%nat)
              = Raise (UnexpectedMonomials
                         {[ [0; 0]%nat := pconst (Q2Qc 1) ]}))
    by by_evaluation.
  split_and?.
  - by_evaluation.
  - split; [done|].
    change (map_Forall (fun m _ => (exponent m 0 + exponent m 1 <= 2)%nat)
              inhomogeneous_conic).
    by_evaluation.
  - exact H.
  - simpl. by rewrite H.
Qed.

(** ** The invariants against the docstring of [WeierstrassForm_P2] *)

(** With [27*S] and [-(27/4)*T] the modelled invariants give the expansion
    of the docstring, term by term. *)
Lemma aronhold_docstring (c30 c21 c12 c03 c20 c11 c02 c10 c01 c00 : Q) :
  let C := general_cubic c30 c21 c12 c03 c20 c11 c02 c10 c01 c00 in
  (27 * aronhold_S Qplus Qmult Qminus (fun q => q) C
   == docstring_f c30 c21 c12 c03 c20 c11 c02 c10 c01 c00)%Q /\
  (- (27 # 4) * aronhold_T Qplus Qmult Qminus (fun q => q) C
   == docstring_g c30 c21 c12 c03 c20 c11 c02 c10 c01 c00)%Q.
Proof.
  cbv beta iota zeta delta
    [aronhold_S aronhold_T rpow general_cubic docstring_f docstring_g
     a30 a21 a12 a03 a20
     a11 a02 a10 a01 a00
     inject_Z].
  split; ring.
Qed.

(** ** Further properties of the validator and of the extractor *)

(** The two outcomes of the validator. *)
Lemma check_homogeneity_cases (ngens : nat) (p : poly) (variables : list var)
    (weights : list Z) (total_weight : option Z) :
  Forall (fun x => (x < ngens)%nat) variables ->
  (length weights <= length variables)%nat ->
  (_check_homogeneity ngens p variables weights total_weight = OK tt /\
   forall m1 c1 m2 c2, p !! m1 = Some c1 -> p !! m2 = Some c2 ->
     total_degree m1 variables weights = total_degree m2 variables weights) \/
  (_check_homogeneity ngens p variables weights total_weight
   = Raise (NotHomogeneous weights) /\
   exists m1 c1 m2 c2, p !! m1 = Some c1 /\ p !! m2 = Some c2 /\
     total_degree m1 variables weights <> total_degree m2 variables weights).
Proof.
  intros HV Hlen. unfold _check_homogeneity.
  rewrite (mapM_gens_index_OK _ _ HV). simpl.
  assert (Hinv : homogeneity_inv variables weights
            (map_fold (fun e _ state =>
                         homogeneity_step variables weights e state)
                      (OK None) p) p).
  { apply (map_fold_weak_ind (homogeneity_inv variables weights)).
    - done.
    - intros m c p' st Hm IH. by apply homogeneity_inv_step. }
  destruct (map_fold _ _ p) as [[t|]|e]; simpl in *.
  - left. split; [done|]. destruct Hinv as [_ Hall].
    intros m1 c1 m2 c2 H1 H2. by rewrite (Hall _ _ H1), (Hall _ _ H2).
  - left. split; [done|]. intros m1 c1 m2 c2 H1.
    rewrite Hinv in H1. by rewrite lookup_empty in H1.
  - right. by destruct Hinv as [-> Hex].
Qed.

(** X1: with generators for variables and a variable for every weight, the
    validator passes exactly the polynomials whose terms all have the same
    weighted degree, whatever the required total weight, the zero polynomial
    among them; on every other polynomial it fails with [NotHomogeneous]. *)
Theorem check_homogeneity_iff (ngens : nat) (p : poly) (variables : list var)
    (weights : list Z) (total_weight : option Z) :
  Forall (fun x => (x < ngens)%nat) variables ->
  (length weights <= length variables)%nat ->
  (_check_homogeneity ngens p variables weights total_weight = OK tt <->
   forall m1 c1 m2 c2, p !! m1 = Some c1 -> p !! m2 = Some c2 ->
     total_degree m1 variables weights = total_degree m2 variables weights) /\
  (forall e, _check_homogeneity ngens p variables weights total_weight
             = Raise e -> e = NotHomogeneous weights) /\
  _check_homogeneity ngens pzero variables weights total_weight = OK tt.
Proof.
  intros HV Hlen. split; [|split].
  - destruct (check_homogeneity_cases ngens p variables weights total_weight
                HV Hlen) as [[-> Hall]|[-> Hex]]; [done|].
    split; [done|]. intros Hall.
    destruct Hex as (m1 & c1 & m2 & c2 & H1 & H2 & Hne).
    by destruct (Hne (Hall _ _ _ _ H1 H2)).
  - destruct (check_homogeneity_cases ngens p variables weights total_weight
                HV Hlen) as [[-> _]|[-> _]]; [done|]. by intros e [= <-].
  - destruct (check_homogeneity_cases ngens pzero variables weights
                total_weight HV Hlen) as [[-> _]|[_ Hex]]; [done|].
    destruct Hex as (m1 & c1 & _ & _ & H1 & _). unfold pzero in H1.
    by rewrite lookup_empty in H1.
Qed.

Lemma check_homogeneity_iff_witness :
  (_check_homogeneity 3 quartic_power [0; 1; 2]%nat [1; 1; 1]%Z (Some 3%Z)
   = OK tt <->
   forall m1 c1 m2 c2,
     quartic_power !! m1 = Some c1 -> quartic_power !! m2 = Some c2 ->
     total_degree m1 [0; 1; 2]%nat [1; 1; 1]%Z
     = total_degree m2 [0; 1; 2]%nat [1; 1; 1]%Z) /\
  (forall e, _check_homogeneity 3 quartic_power [0; 1; 2]%nat [1; 1; 1]%Z
               (Some 3%Z) = Raise e -> e = NotHomogeneous [1; 1; 1]%Z) /\
  _check_homogeneity 3 pzero [0; 1; 2]%nat [1; 1; 1]%Z (Some 3%Z) = OK tt.
Proof.
  apply (check_homogeneity_iff 3 quartic_power [0; 1; 2]%nat [1; 1; 1]%Z
           (Some 3%Z)).
  - repeat constructor; lia.
  - simpl; lia.
Defined.

Lemma service_length (variables : list var) (monomials : list mono)
    (coeffs : pdict) :
  length (service variables monomials coeffs).1 = length monomials.
Proof.
  revert coeffs. induction monomials as [|m ms IH]; intros coeffs; [done|].
  simpl. specialize (IH (delete (monomial_index variables m) coeffs)).
  destruct (service variables ms _) as [qs rest]. simpl in *. by rewrite IH.
Qed.

Lemma index_class_lookup (variables : list var) (p : poly) (m : mono)
    (c : Qc) :
  p !! m = Some c ->
  index_class variables p (monomial_index variables m) !! m = Some c.
Proof.
  intros Hm. unfold index_class. apply map_lookup_filter_Some. by split.
Qed.

(** X2: the coefficient extractor succeeds, with one answer for each
    requested monomial, when every term of the polynomial has the exponents
    of a requested monomial; a term that has not makes it fail with
    [UnexpectedMonomials], and the error names this term. *)
Theorem extract_coefficients_closure (ngens : nat) (p : poly)
    (monomials : list mono) (variables : list var) :
  wf_poly p -> Forall (fun x => (x < ngens)%nat) variables ->
  ((forall m c, p !! m = Some c ->
      monomial_index variables m ∈ monomial_index variables <$> monomials) ->
   exists r, _extract_coefficients ngens p monomials variables = OK r /\
             length r = length monomials) /\
  (forall m c, p !! m = Some c ->
     monomial_index variables m ∉ monomial_index variables <$> monomials ->
     exists rest,
       _extract_coefficients ngens p monomials variables
       = Raise (UnexpectedMonomials rest) /\
       exists q, rest !! monomial_index variables m = Some q /\
                 q !! m = Some c).
Proof.
  intros Hwf HV.
  pose proof (extract_coefficients_unfold ngens p monomials variables HV)
    as Hunf.
  simpl in Hunf. rewrite service_rest in Hunf.
  fold (unmatched variables p monomials) in Hunf.
  split.
  - intros Hall. apply (unmatched_empty_iff variables p monomials Hwf) in Hall.
    rewrite decide_True in Hunf by done.
    eexists. split; [exact Hunf|]. apply service_length.
  - intros m c Hm Hout.
    pose proof (index_class_lookup variables p m c Hm) as Hin.
    assert (Hq : unmatched variables p monomials !! monomial_index variables m
                 = Some (index_class variables p (monomial_index variables m))).
    { unfold unmatched. apply map_lookup_filter_Some. split; [|done].
      rewrite (accumulated_spec variables p Hwf).
      rewrite decide_False; [done|]. intros Hempty.
      rewrite Hempty in Hin. by rewrite lookup_empty in Hin. }
    rewrite decide_False in Hunf.
    2:{ intros Hempty. rewrite Hempty in Hq. by rewrite lookup_empty in Hq. }
    eexists. split; [exact Hunf|]. eexists. split; [exact Hq|done].
Qed.

Lemma extract_coefficients_closure_witness :
  let variables := [0; 1; 2]%nat in
  let monomials := [var_pow 0 3; var_pow 1 3; var_pow 2 3] in
  ((forall m c, twisted_cubic !! m = Some c ->
      monomial_index variables m ∈ monomial_index variables <$> monomials) ->
   exists r, _extract_coefficients 4 twisted_cubic monomials variables = OK r /\
             length r = length monomials) /\
  (forall m c, twisted_cubic !! m = Some c ->
     monomial_index variables m ∉ monomial_index variables <$> monomials ->
     exists rest,
       _extract_coefficients 4 twisted_cubic monomials variables
       = Raise (UnexpectedMonomials rest) /\
       exists q, rest !! monomial_index variables m = Some q /\
                 q !! m = Some c).
Proof.
  apply (extract_coefficients_closure 4 twisted_cubic
           [var_pow 0 3; var_pow 1 3; var_pow 2 3] [0; 1; 2]%nat).
  - by_evaluation.
  - repeat constructor; lia.
Defined.

(** ** The two outcomes of the coefficient extractor *)

Lemma extract_coefficients_cases (ngens : nat) (p : poly)
    (monomials : list mono) (variables : list var) :
  wf_poly p -> Forall (fun x => (x < ngens)%nat) variables ->
  (unmatched variables p monomials = ∅ /\
   _extract_coefficients ngens p monomials variables
   = OK (requested_coefficients variables p monomials)) \/
  (unmatched variables p monomials <> ∅ /\
   _extract_coefficients ngens p monomials variables
   = Raise (UnexpectedMonomials (unmatched variables p monomials))).
Proof.
  intros Hwf HV. rewrite (extract_coefficients_unfold _ _ _ _ HV). simpl.
  rewrite service_rest. fold (unmatched variables p monomials).
  destruct (decide (unmatched variables p monomials = ∅)) as [He|He].
  - left. split; [done|]. by rewrite service_accumulated_answers.
  - right. by split.
Qed.

Lemma requested_coefficients_length (variables : list var) (p : poly)
    (monomials : list mono) :
  length (requested_coefficients variables p monomials) = length monomials.
Proof. unfold requested_coefficients. apply length_imap. Qed.

(** The branch of [index] for constants agrees with the general one. *)
Lemma monomial_index_exponent (indices : list nat) (m : mono) :
  monomial_index indices m = exponent m <$> indices.
Proof.
  unfold monomial_index. destruct (decide (m = mono_one)) as [->|]; [|done].
  apply list_fmap_ext. intros _ j _. by rewrite exponent_mono_one.
Qed.

(** ** Which polynomials the partial discriminant accepts *)

Lemma quadratic_pair_index (m : mono) (y0 y1 : var) :
  exponent m <$> [y0; y1] ∈ [[0; 2]; [1; 1]; [2; 0]]%nat <->
  (exponent m y0 + exponent m y1 = 2)%nat.
Proof.
  rewrite !fmap_cons, fmap_nil. split.
  - intros Hin. repeat (apply elem_of_cons in Hin as [Hin|Hin]);
      [injection Hin; lia..|by apply elem_of_nil in Hin].
  - intros Hsum.
    destruct (exponent m y0) as [|[|[|e]]] eqn:E0; [| | |lia].
    + replace (exponent m y1) with 2%nat by lia. set_solver.
    + replace (exponent m y1) with 1%nat by lia. set_solver.
    + replace (exponent m y1) with 0%nat by lia. set_solver.
Qed.

Lemma quadratic_single_index (m : mono) (y0 : var) :
  exponent m <$> [y0] ∈ [[0]; [1]; [2]]%nat <-> (exponent m y0 <= 2)%nat.
Proof.
  rewrite !fmap_cons, fmap_nil. split.
  - intros Hin. repeat (apply elem_of_cons in Hin as [Hin|Hin]);
      [injection Hin; lia..|by apply elem_of_nil in Hin].
  - intros Hle.
    destruct (exponent m y0) as [|[|[|e]]] eqn:E0; [| | |lia]; set_solver.
Qed.

(** X3: the partial discriminant with respect to distinct generators
    [(y0, y1)] is returned exactly for the polynomials whose terms all have
    degree 2 in the pair, and with respect to [y0] alone exactly for those
    whose terms have degree at most 2 in it; every other polynomial fails
    with [UnexpectedMonomials]. *)
Theorem partial_discriminant_accepts_iff (ngens : nat) (quadric : poly)
    (y0 : var) (y1 : option var) :
  wf_poly quadric ->
  (y0 < ngens)%nat ->
  (forall y, y1 = Some y -> (y < ngens)%nat /\ y0 <> y) ->
  ((exists delta, _partial_discriminant ngens quadric y0 y1 = OK delta) <->
   forall m c, quadric !! m = Some c ->
     match y1 with
     | Some y1 => (exponent m y0 + exponent m y1 = 2)%nat
     | None => (exponent m y0 <= 2)%nat
     end) /\
  (forall e, _partial_discriminant ngens quadric y0 y1 = Raise e ->
     exists rest, e = UnexpectedMonomials rest).
Proof.
  intros Hwf Hy0 Hy1. destruct y1 as [y1|].
  - destruct (Hy1 y1 eq_refl) as [Hy1' Hne].
    destruct (monomial_index_pair y0 y1 Hne) as (I2 & I1 & I0).
    assert (HV : Forall (fun x => (x < ngens)%nat) [y0; y1])
      by (by repeat constructor).
    pose proof (unmatched_empty_iff [y0; y1] quadric
                  [var_pow y1 2; mono_mul (var_pow y0 1) (var_pow y1 1);
                   var_pow y0 2] Hwf) as Hiff.
    rewrite !fmap_cons, fmap_nil, I2, I1, I0 in Hiff.
    unfold _partial_discriminant.
    destruct (extract_coefficients_cases ngens quadric
                [var_pow y1 2; mono_mul (var_pow y0 1) (var_pow y1 1);
                 var_pow y0 2] [y0; y1] Hwf HV) as [[He ->]|[He ->]].
    + rewrite requested_coefficients_three by (rewrite ?I2, ?I1, ?I0; done).
      split; [|done]. split; [|by eexists].
      intros _ m c Hm. apply quadratic_pair_index.
      rewrite <- monomial_index_exponent. by apply (proj1 Hiff He m c).
    + split.
      * split; [by intros [? ?]|]. intros Hall. destruct He. apply Hiff.
        intros m c Hm. rewrite monomial_index_exponent.
        apply quadratic_pair_index. by apply (Hall m c).
      * intros e [= <-]. by eexists.
  - destruct (monomial_index_single y0) as (I2 & I1 & I0).
    assert (HV : Forall (fun x => (x < ngens)%nat) [y0])
      by (by repeat constructor).
    pose proof (unmatched_empty_iff [y0] quadric
                  [mono_one; var_pow y0 1; var_pow y0 2] Hwf) as Hiff.
    rewrite !fmap_cons, fmap_nil, I2, I1, I0 in Hiff.
    unfold _partial_discriminant.
    destruct (extract_coefficients_cases ngens quadric
                [mono_one; var_pow y0 1; var_pow y0 2] [y0] Hwf HV)
      as [[He ->]|[He ->]].
    + rewrite requested_coefficients_three by (rewrite ?I2, ?I1, ?I0; done).
      split; [|done]. split; [|by eexists].
      intros _ m c Hm. apply quadratic_single_index.
      rewrite <- monomial_index_exponent. by apply (proj1 Hiff He m c).
    + split.
      * split; [by intros [? ?]|]. intros Hall. destruct He. apply Hiff.
        intros m c Hm. rewrite monomial_index_exponent.
        apply quadratic_single_index. by apply (Hall m c).
      * intros e [= <-]. by eexists.
Qed.

Lemma partial_discriminant_accepts_iff_witness :
  ((exists delta, _partial_discriminant 2 product_biquadric 1 None = OK delta)
   <-> forall m c, product_biquadric !! m = Some c -> (exponent m 1 <= 2)%nat)
  /\
  (forall e, _partial_discriminant 2 product_biquadric 1 None = Raise e ->
     exists rest, e = UnexpectedMonomials rest).
Proof.
  apply (partial_discriminant_accepts_iff 2 product_biquadric 1 None).
  - by_evaluation.
  - lia.
  - intros y [=].
Defined.

(** ** The keys and the values of the support extractor *)

Lemma support_keys_fold (V : list var) (P : poly) (v : list nat) :
  is_Some (map_fold (support_step V V) ∅ P !! v) <->
  exists m c, P !! m = Some c /\ v = exponent m <$> V.
Proof.
  revert v.
  apply (map_fold_weak_ind
           (fun r p => forall v, is_Some (r !! v) <->
                         exists m c, p !! m = Some c /\ v = exponent m <$> V)
           (support_step V V)).
  - intros v. rewrite lookup_empty. split; [by intros [? ?]|].
    intros (m & c & Hm & _). by rewrite lookup_empty in Hm.
  - intros m c p r Hm IH v. unfold support_step.
    rewrite lookup_insert_is_Some. split.
    + intros [<-|[Hne Hv]].
      * exists m, c. by rewrite lookup_insert_eq.
      * apply IH in Hv as (m' & c' & Hm' & ->). exists m', c'.
        split; [|done]. rewrite lookup_insert_ne; [done|].
        intros <-. by rewrite Hm in Hm'.
    + intros (m' & c' & Hm' & ->).
      destruct (decide (m' = m)) as [->|Hne]; [by left|].
      rewrite lookup_insert_ne in Hm' by done.
      destruct (decide (exponent m <$> V = exponent m' <$> V)); [by left|].
      right. split; [done|]. apply IH. by exists m', c'.
Qed.

(** X4: the keys of the mapping that the support extractor returns are
    exactly the tuples of the exponents, in the chosen variables, of the
    terms of the polynomial. *)
Theorem Newton_polytope_vars_coeffs_keys (ngens : nat) (P : poly)
    (V : list var) (d : pdict) :
  Newton_polytope_vars_coeffs ngens P V = OK d ->
  forall v, is_Some (d !! v) <->
            exists m c, P !! m = Some c /\ v = exponent m <$> V.
Proof.
  intros Hd v. apply Newton_polytope_vars_coeffs_OK in Hd as ->.
  apply support_keys_fold.
Qed.

Lemma Newton_polytope_vars_coeffs_keys_witness :
  is_Some (map_fold (support_step [0; 1; 2]%nat [0; 1; 2]%nat) ∅
                    twisted_cubic !! [0; 3; 0]%nat) <->
  exists m c, twisted_cubic !! m = Some c /\
              [0; 3; 0]%nat = exponent m <$> [0; 1; 2]%nat.
Proof.
  apply (Newton_polytope_vars_coeffs_keys 4 twisted_cubic [0; 1; 2]%nat
           (map_fold (support_step [0; 1; 2]%nat [0; 1; 2]%nat) ∅
                     twisted_cubic)).
  by_evaluation.
Defined.

Lemma multiplicity_prod_pow_in (variables : list var) (m : mono) (j : var) :
  NoDup variables -> j ∈ variables ->
  multiplicity j (prod_pow variables (exponent m <$> variables))
  = multiplicity j m.
Proof.
  induction 1 as [|x xs Hx Hnd IH]; intros Hj.
  - by apply elem_of_nil in Hj.
  - rewrite fmap_cons, prod_pow_cons, multiplicity_disj_union,
      multiplicity_var_pow.
    destruct (decide (j = x)) as [->|Hne].
    + rewrite multiplicity_prod_pow_notin by done. unfold exponent. lia.
    + apply elem_of_cons in Hj as [?|Hj]; [done|]. rewrite IH by done. lia.
Qed.

Lemma prod_pow_exponents (variables : list var) (m : mono) :
  NoDup variables -> (forall x, x ∈ m -> x ∈ variables) ->
  prod_pow variables (exponent m <$> variables) = m.
Proof.
  intros Hnd Hall. apply gmultiset_eq. intros x.
  destruct (decide (x ∈ variables)) as [Hx|Hx].
  - by apply multiplicity_prod_pow_in.
  - rewrite multiplicity_prod_pow_notin by done.
    destruct (multiplicity x m) as [|n] eqn:Hn; [done|].
    destruct Hx. apply Hall. apply elem_of_multiplicity. lia.
Qed.

(** X5: when the distinct variables include every generator that occurs in
    the polynomial, the value stored under the exponents of a term is the
    coefficient of the term, a constant. *)
Theorem Newton_polytope_vars_coeffs_constants (ngens : nat) (P : poly)
    (V : list var) (d : pdict) :
  wf_poly P -> NoDup V ->
  (forall m c, P !! m = Some c -> forall x, x ∈ m -> x ∈ V) ->
  Newton_polytope_vars_coeffs ngens P V = OK d ->
  forall m c, P !! m = Some c -> d !! (exponent m <$> V) = Some (pconst c).
Proof.
  intros Hwf Hnd Hall Hd m c Hm.
  apply Newton_polytope_vars_coeffs_OK in Hd as ->.
  destruct (support_inv_fold V Hnd P Hwf) as [Hval Hterm].
  destruct (Hterm m c Hm) as (q & Hq & Hqc). rewrite Hq. f_equal.
  rewrite (prod_pow_exponents V m Hnd (Hall m c Hm)) in Hqc.
  rewrite gmultiset_difference_diag in Hqc.
  destruct (Hval _ _ Hq) as [_ Hq'].
  unfold pconst, pterm, mono_one. rewrite decide_False by by apply (Hwf m).
  apply map_eq. intros k. destruct (decide (k = ∅)) as [->|Hk].
  - by rewrite lookup_singleton_eq.
  - rewrite lookup_singleton_ne by done.
    destruct (q !! k) as [c'|] eqn:Hc'; [|done].
    destruct (Hq' _ _ Hc') as [Hp Hv]. destruct Hk.
    pose proof (prod_pow_exponents V _ Hnd (Hall _ _ Hp)) as Hprod.
    rewrite <- Hv in Hprod. clear -Hprod.
    set (X := prod_pow V (exponent m <$> V)) in *. clearbody X.
    multiset_solver.
Qed.

Lemma Newton_polytope_vars_coeffs_constants_witness :
  map_fold (support_step [0; 1; 2]%nat [0; 1; 2]%nat) ∅ fermat_cubic
    !! (exponent (var_pow 1 3) <$> [0; 1; 2]%nat)
  = Some (pconst (Q2Qc 1)).
Proof.
  apply (Newton_polytope_vars_coeffs_constants 3 fermat_cubic [0; 1; 2]%nat
           (map_fold (support_step [0; 1; 2]%nat [0; 1; 2]%nat) ∅
                     fermat_cubic)).
  - by_evaluation.
  - by_evaluation.
  - intros m c Hm x Hx.
    assert (Hall : map_Forall
                     (fun (m : mono) (_ : Qc) =>
                        Forall (fun x => x ∈ [0; 1; 2]%nat) (elements m))
                     fermat_cubic) by by_evaluation.
    specialize (Hall m c Hm). rewrite list.Forall_forall in Hall.
    by apply Hall, gmultiset_elem_of_elements.
  - by_evaluation.
  - by_evaluation.
Defined.

(** ** The failures of the pipeline *)

Lemma bind_OK_l {A B} (a : A) (k : A -> result B) : OK a ≫= k = k a.
Proof. done. Qed.

Lemma bind_Raise_l {A B} (e : error) (k : A -> result B) :
  Raise e ≫= k = Raise e.
Proof. done. Qed.

Lemma mapM_gens_index_Raise (ngens : nat) (variables : list var) (e : error) :
  mapM (gens_index ngens) variables = Raise e ->
  exists x, e = NotAGenerator x /\ x ∈ variables /\ ~ (x < ngens)%nat.
Proof.
  induction variables as [|x xs IH]; [done|].
  change (gens_index ngens x ≫= (fun y =>
            mapM (gens_index ngens) xs ≫= fun k => OK (y :: k))
          = Raise e -> exists x0, e = NotAGenerator x0 /\ x0 ∈ x :: xs
                                  /\ ~ (x0 < ngens)%nat).
  intros [Hx|(i & Hi & Hrest)]%bind_Raise.
  - unfold gens_index in Hx. destruct (decide (x < ngens)%nat); [done|].
    injection Hx as <-. exists x. split; [done|]. split; [by left|done].
  - apply bind_Raise in Hrest as [Hrest|(k & _ & [=])].
    destruct (IH Hrest) as (x0 & -> & Hin & Hout).
    exists x0. split; [done|]. split; [by right|done].
Qed.

Lemma mapM_gens_index_Forall (ngens : nat) (variables idx : list var) :
  mapM (gens_index ngens) variables = OK idx ->
  Forall (fun x => (x < ngens)%nat) variables.
Proof.
  revert idx. induction variables as [|x xs IH]; intros idx; [by constructor|].
  change (gens_index ngens x ≫= (fun y =>
            mapM (gens_index ngens) xs ≫= fun k => OK (y :: k))
          = OK idx -> Forall (fun x => (x < ngens)%nat) (x :: xs)).
  intros (i & Hi & (k & Hk & _)%bind_OK)%bind_OK.
  apply gens_index_OK in Hi as [Hx _]. constructor; [done|]. by apply (IH k).
Qed.

Lemma Newton_polytope_vars_coeffs_Raise (ngens : nat) (P : poly)
    (V : list var) (e : error) :
  Newton_polytope_vars_coeffs ngens P V = Raise e ->
  exists x, e = NotAGenerator x /\ x ∈ V /\ ~ (x < ngens)%nat.
Proof.
  unfold Newton_polytope_vars_coeffs.
  intros [He|(idx & _ & [=])]%bind_Raise.
  by apply mapM_gens_index_Raise.
Qed.

(** X6: the support extractor returns a mapping exactly when every chosen
    variable is a generator of the ring; otherwise it fails on a variable
    that is not, whatever the polynomial. *)
Theorem Newton_polytope_vars_coeffs_generators (ngens : nat) (P : poly)
    (V : list var) :
  ((exists d, Newton_polytope_vars_coeffs ngens P V = OK d) <->
   Forall (fun x => (x < ngens)%nat) V) /\
  (forall e, Newton_polytope_vars_coeffs ngens P V = Raise e ->
     exists x, e = NotAGenerator x /\ x ∈ V /\ ~ (x < ngens)%nat).
Proof.
  split; [split|].
  - intros [d Hd]. unfold Newton_polytope_vars_coeffs in Hd.
    apply bind_OK in Hd as (idx & Hidx & _).
    by apply (mapM_gens_index_Forall _ _ idx).
  - intros HV. eexists. by apply Newton_polytope_vars_coeffs_total.
  - apply Newton_polytope_vars_coeffs_Raise.
Qed.

Section Failures.
Variable classify :
list (list nat) -> option (family * (list nat -> nat * nat)).
Variable WeierstrassForm2 :
nat -> list poly -> option (list var) -> bool -> result output.
Variable WeierstrassMap : nat -> poly -> option (list var) -> result output.

Lemma Newton_polygon_embedded_variables (ngens : nat) (p : poly)
  (variables : list var) (F : family) (q : poly) (vs : list var) :
Newton_polygon_embedded classify ngens p variables = OK (F, q, vs) ->
exists x y rest, variables = x :: y :: rest /\ vs = [x; y].
Proof.
unfold Newton_polygon_embedded. intros (d & _ & H)%bind_OK.
destruct (classify _) as [[polygon embedding]|]; [|done].
destruct variables as [|x [|y rest]]; [done..|].
injection H as _ _ <-. by exists x, y, rest.
Qed.

Lemma Newton_polygon_embedded_Raise (ngens : nat) (p : poly)
  (variables : list var) (e : error) :
Newton_polygon_embedded classify ngens p variables = Raise e ->
e = NotReflexive \/ e = CannotUnpack \/
exists x, e = NotAGenerator x /\ x ∈ variables /\ ~ (x < ngens)%nat.
Proof.
unfold Newton_polygon_embedded. intros [He|(d & _ & He)]%bind_Raise.
- apply Newton_polytope_vars_coeffs_Raise in He. by right; right.
- destruct (classify _) as [[polygon embedding]|];
    [|left; by injection He].
  destruct variables as [|x [|y rest]]; [right; left; by injection He..|].
  done.
Qed.

(** X7: on a single polynomial, without transformation, [WeierstrassForm]
  fails as [Newton_polygon_embedded] does: when the classifier finds no
  reflexive polygon, when there are fewer than two variables, or on a
  variable that is no generator.  Otherwise it runs the reducer of the
  family on the embedded polynomial with the first two variables only, for
  which each of the three validators returns at once, without any check of
  homogeneity. *)
Theorem WeierstrassForm_two_variables (ngens : nat) (p : poly)
  (variables : option (list var)) :
let vs := default_variables ngens p variables in
(forall e, Newton_polygon_embedded classify ngens p vs = Raise e ->
   WeierstrassForm classify WeierstrassForm2 WeierstrassMap
     ngens (Single p) variables false = Raise e /\
   (e = NotReflexive \/ e = CannotUnpack \/
    exists x, e = NotAGenerator x /\ x ∈ vs /\ ~ (x < ngens)%nat)) /\
(forall F q xy, Newton_polygon_embedded classify ngens p vs = OK (F, q, xy) ->
   exists x y rest, vs = x :: y :: rest /\ xy = [x; y] /\
     _check_polynomial_P2 ngens q (Some xy) = OK (x, y, None) /\
     _check_polynomial_P1xP1 ngens q (Some xy) = OK (x, None, y, None) /\
     _check_polynomial_P2_112 ngens q (Some xy) = OK (x, y, None, None) /\
     WeierstrassForm classify WeierstrassForm2 WeierstrassMap
       ngens (Single p) variables false
     = family_reducer F ngens q (Some xy) ≫= fun fg =>
       OK (Coefficients fg.1 fg.2)).
Proof.
intros vs. split.
- intros e He. split; [|by apply (Newton_polygon_embedded_Raise ngens p)].
  unfold WeierstrassForm. fold vs. by rewrite He.
- intros F q xy Hemb.
  destruct (Newton_polygon_embedded_variables _ _ _ _ _ _ Hemb)
    as (x & y & rest & Hvs & ->).
  exists x, y, rest. do 5 (split; [done|]).
  unfold WeierstrassForm. fold vs. rewrite Hemb, bind_OK_l.
  destruct F; unfold family_reducer.
  + by destruct (WeierstrassForm_P2 ngens q (Some [x; y])) as [[f g]|e].
  + by destruct (WeierstrassForm_P1xP1 ngens q (Some [x; y])) as [[f g]|e].
  + by destruct (WeierstrassForm_P2_112 ngens q (Some [x; y])) as [[f g]|e].
Qed.

(** X8: [Discriminant] and [j_invariant] agree: the j-invariant is finite
  exactly where the discriminant is returned and is not zero; the
  j-invariant is [+Infinity] only where the discriminant is zero, and a
  zero discriminant gives [+Infinity] or the failure
  [UndefinedJInvariant]; a failure of [Discriminant] is the same failure
  of [j_invariant]. *)
Theorem j_invariant_Discriminant (ngens : nat) (polynomial : input)
  (variables : option (list var)) :
let j := j_invariant classify WeierstrassForm2 WeierstrassMap
           ngens polynomial variables in
let disc := Discriminant classify WeierstrassForm2 WeierstrassMap
              ngens polynomial variables in
((exists num den, j = OK (Quotient num den)) <->
 (exists delta, disc = OK delta /\ delta <> pzero)) /\
(j = OK Infinity -> disc = OK pzero) /\
(forall delta, disc = OK delta -> delta = pzero ->
   j = OK Infinity \/ j = Raise UndefinedJInvariant) /\
(forall e, disc = Raise e -> j = Raise e).
Proof.
intros j disc. unfold j, disc, j_invariant, Discriminant.
destruct (WeierstrassForm _ _ _ _ _ _ _) as [[f g|X Y Z]|e]; simpl.
- destruct (decide (discriminant_of f g <> pzero)) as [Hd|Hd].
  + split; [split; intros _; by eauto|].
    split; [done|]. split; [by intros ? [= <-] ?|done].
  + assert (Hz : discriminant_of f g = pzero)
      by by destruct (decide (discriminant_of f g = pzero)).
    split.
    { split.
      - intros (num & den & H). by destruct (decide (f <> pzero)).
      - intros (delta & [= <-] & Hn). by destruct Hn. }
    split; [intros _; by rewrite Hz|].
    split; [|done]. intros ? _ _.
    destruct (decide (f <> pzero)); [by left|by right].
- split; [split; [by intros (? & ? & ?)|by intros (? & ? & _)]|].
  split; [done|]. split; [by intros ? [=]|by intros ? [= <-]].
- split; [split; [by intros (? & ? & ?)|by intros (? & ? & _)]|].
  split; [done|]. split; [by intros ? [=]|by intros ? [= <-]].
Qed.
End Failures.

(** ** Which polynomials the cubic reducer accepts *)

Lemma total_degree_three (m : mono) (x y z : var) :
  total_degree m [x; y; z] [1; 1; 1]%Z
  = Z.of_nat (exponent m x + exponent m y + exponent m z).
Proof. simpl. lia. Qed.

Lemma cubic_index_three (m : mono) (x y z : var) (a b c : nat) :
  m <> mono_one ->
  exponent m x = a -> exponent m y = b -> exponent m z = c ->
  monomial_index [x; y; z] m = [a; b; c].
Proof.
  intros Hm <- <- <-. by rewrite monomial_index_nonconst.
Qed.

(** The exponents of the ten monomials of a ternary cubic. *)
Lemma cubic_monomials_index (x y z : var) :
  NoDup [x; y; z] ->
  monomial_index [x; y; z] <$>
    [var_pow x 3; var_pow y 3; var_pow z 3;
     mono_mul (var_pow x 2) (var_pow y 1);
     mono_mul (var_pow x 2) (var_pow z 1);
     mono_mul (var_pow x 1) (var_pow y 2);
     mono_mul (var_pow y 2) (var_pow z 1);
     mono_mul (var_pow x 1) (var_pow z 2);
     mono_mul (var_pow y 1) (var_pow z 2);
     mono_mul (var_pow x 1) (mono_mul (var_pow y 1) (var_pow z 1))]
  = [[3; 0; 0]; [0; 3; 0]; [0; 0; 3]; [2; 1; 0]; [2; 0; 1]; [1; 2; 0];
     [0; 2; 1]; [1; 0; 2]; [0; 1; 2]; [1; 1; 1]]%nat.
Proof.
  intros Hnd.
  assert (Hxy : x <> y /\ x <> z /\ y <> z).
  { apply NoDup_cons_1_1 in Hnd as Hx. apply NoDup_cons_1_2 in Hnd as Hnd'.
    apply NoDup_cons_1_1 in Hnd' as Hy.
    repeat split; intros ->; first [apply Hx | apply Hy]; set_solver. }
  destruct Hxy as (Hxy & Hxz & Hyz).
  assert (Hyx : y <> x) by done. assert (Hzx : z <> x) by done.
  assert (Hzy : z <> y) by done.
  rewrite !fmap_cons, fmap_nil.
  repeat f_equal;
    (apply cubic_index_three;
     [first [apply var_pow_nonempty
            |apply mono_mul_nonempty, var_pow_nonempty]
     |rewrite ?exponent_mono_mul, ?exponent_var_pow;
      repeat case_decide; done..]).
Qed.

Lemma cubic_exponents_sum (a b c : nat) :
  [a; b; c] ∈ [[3; 0; 0]; [0; 3; 0]; [0; 0; 3]; [2; 1; 0]; [2; 0; 1];
               [1; 2; 0]; [0; 2; 1]; [1; 0; 2]; [0; 1; 2]; [1; 1; 1]]%nat <->
  (a + b + c = 3)%nat.
Proof.
  split.
  - intros Hin. repeat (apply elem_of_cons in Hin as [Hin|Hin]);
      [injection Hin; lia..|by apply elem_of_nil in Hin].
  - intros Hsum. assert (Hc : c = (3 - a - b)%nat) by lia. subst c.
    destruct a as [|[|[|[|a]]]]; destruct b as [|[|[|[|b]]]];
      try lia; simpl; repeat (first [by left | right]).
Qed.

(** The two outcomes of reading a cubic in three variables. *)
Lemma ternary_cubic_cases (ngens : nat) (p : poly) (x y z : var) :
  wf_poly p -> NoDup [x; y; z] ->
  Forall (fun v => (v < ngens)%nat) [x; y; z] ->
  ((forall m c, p !! m = Some c ->
      (exponent m x + exponent m y + exponent m z = 3)%nat) /\
   exists C, ternary_cubic ngens p x y (Some z) = OK C) \/
  (~ (forall m c, p !! m = Some c ->
        (exponent m x + exponent m y + exponent m z = 3)%nat) /\
   exists rest,
     ternary_cubic ngens p x y (Some z) = Raise (UnexpectedMonomials rest)).
Proof.
  intros Hwf Hnd HV. unfold ternary_cubic. cbv beta iota.
  set (monomials :=
         [var_pow x 3; var_pow y 3; var_pow z 3;
          mono_mul (var_pow x 2) (var_pow y 1);
          mono_mul (var_pow x 2) (var_pow z 1);
          mono_mul (var_pow x 1) (var_pow y 2);
          mono_mul (var_pow y 2) (var_pow z 1);
          mono_mul (var_pow x 1) (var_pow z 2);
          mono_mul (var_pow y 1) (var_pow z 2);
          mono_mul (var_pow x 1) (mono_mul (var_pow y 1) (var_pow z 1))]).
  pose proof (unmatched_empty_iff [x; y; z] p monomials Hwf) as Hiff.
  unfold monomials in Hiff at 2. rewrite (cubic_monomials_index x y z Hnd) in Hiff.
  assert (Hdeg : unmatched [x; y; z] p monomials = ∅ <->
                 forall m c, p !! m = Some c ->
                   (exponent m x + exponent m y + exponent m z = 3)%nat).
  { rewrite Hiff. split; intros Hall m c Hm.
    - apply cubic_exponents_sum. specialize (Hall m c Hm).
      by rewrite monomial_index_exponent in Hall.
    - rewrite monomial_index_exponent. apply cubic_exponents_sum.
      by apply (Hall m c). }
  destruct (extract_coefficients_cases ngens p monomials [x; y; z] Hwf HV)
    as [[He ->]|[He ->]].
  - left. split; [by apply Hdeg|]. rewrite bind_OK_l.
    pose proof (requested_coefficients_length [x; y; z] p monomials) as Hlen.
    destruct (requested_coefficients [x; y; z] p monomials) as [|? l];
      [done|].
    do 10 (destruct l as [|? l]; [try done|]); [by eexists|done].
  - right. split; [by rewrite <- Hdeg|]. rewrite bind_Raise_l. by eexists.
Qed.

Lemma WeierstrassForm_P2_three (ngens : nat) (p : poly) (x y z : var) :
  WeierstrassForm_P2 ngens p (Some [x; y; z])
  = _check_homogeneity ngens p [x; y; z] [1; 1; 1]%Z (Some 3%Z) ≫= fun _ =>
    ternary_cubic ngens p x y (Some z) ≫= fun cubic =>
    OK (pscale (Q2Qc 27) (S_invariant cubic),
        pscale (- Q2Qc 27 / Q2Qc 4) (T_invariant cubic)).
Proof.
  unfold WeierstrassForm_P2, _check_polynomial_P2, default_variables.
  by destruct (_check_homogeneity ngens p [x; y; z] [1; 1; 1]%Z (Some 3%Z))
    as [[]|e].
Qed.

(** X9: with three distinct generators for variables, the cubic reducer
    returns a pair exactly for the polynomials in normal form whose terms all
    have degree 3 in the variables. *)
Theorem WeierstrassForm_P2_accepts_iff (ngens : nat) (p : poly) (x y z : var) :
  wf_poly p -> NoDup [x; y; z] ->
  Forall (fun v => (v < ngens)%nat) [x; y; z] ->
  (exists fg, WeierstrassForm_P2 ngens p (Some [x; y; z]) = OK fg) <->
  forall m c, p !! m = Some c ->
    (exponent m x + exponent m y + exponent m z = 3)%nat.
Proof.
  intros Hwf Hnd HV. rewrite WeierstrassForm_P2_three.
  assert (Hlen : (length [1; 1; 1]%Z <= length [x; y; z])%nat) by (simpl; lia).
  destruct (check_homogeneity_cases ngens p [x; y; z] [1; 1; 1]%Z (Some 3%Z)
              HV Hlen) as [[-> Hsame]|[-> Hdiff]].
  - rewrite bind_OK_l.
    destruct (ternary_cubic_cases ngens p x y z Hwf Hnd HV)
      as [[Hall [C ->]]|[Hnot [rest ->]]].
    + rewrite bind_OK_l. split; [done|]. intros _. by eexists.
    + rewrite bind_Raise_l. split; [by intros [? ?]|done].
  - rewrite bind_Raise_l.
    destruct Hdiff as (m1 & c1 & m2 & c2 & H1 & H2 & Hne).
    rewrite !total_degree_three in Hne.
    split; [by intros [? ?]|]. intros Hall.
    specialize (Hall m1 c1 H1) as Ha. specialize (Hall m2 c2 H2) as Hb. lia.
Qed.

Lemma WeierstrassForm_P2_accepts_iff_witness :
  (exists fg, WeierstrassForm_P2 3 fermat_cubic (Some [0; 1; 2]%nat) = OK fg)
  <-> forall m c, fermat_cubic !! m = Some c ->
        (exponent m 0 + exponent m 1 + exponent m 2 = 3)%nat.
Proof.
  apply (WeierstrassForm_P2_accepts_iff 3 fermat_cubic 0 1 2).
  - by_evaluation.
  - by_evaluation.
  - repeat constructor; lia.
Defined.

(** ** What the validators of the three families accept *)

Lemma total_degree_1100 (m : mono) (x y s t : var) :
  total_degree m [x; y; s; t] [1; 1; 0; 0]%Z
  = Z.of_nat (exponent m x + exponent m y).
Proof. simpl. lia. Qed.

Lemma total_degree_0011 (m : mono) (x y s t : var) :
  total_degree m [x; y; s; t] [0; 0; 1; 1]%Z
  = Z.of_nat (exponent m s + exponent m t).
Proof. simpl. lia. Qed.

Lemma total_degree_101m2 (m : mono) (x y z t : var) :
  total_degree m [x; y; z; t] [1; 0; 1; -2]%Z
  = (Z.of_nat (exponent m x) + Z.of_nat (exponent m z)
     - 2 * Z.of_nat (exponent m t))%Z.
Proof. simpl. lia. Qed.

Lemma total_degree_0101 (m : mono) (x y z t : var) :
  total_degree m [x; y; z; t] [0; 1; 0; 1]%Z
  = Z.of_nat (exponent m y + exponent m t).
Proof. simpl. lia. Qed.

(** X10: given two variables, [_check_polynomial_P2] returns them with
    [None] for the third and checks nothing.  Given three generators, it
    returns them exactly when all terms of the polynomial have the same
    degree in the three, whatever this degree is, and fails with
    [NotHomogeneous] otherwise. *)
Theorem check_polynomial_P2_outcome (ngens : nat) (cubic : poly) :
  (forall x y, _check_polynomial_P2 ngens cubic (Some [x; y])
               = OK (x, y, None)) /\
  (forall x y z, Forall (fun v => (v < ngens)%nat) [x; y; z] ->
     (_check_polynomial_P2 ngens cubic (Some [x; y; z]) = OK (x, y, Some z) <->
      forall m1 c1 m2 c2, cubic !! m1 = Some c1 -> cubic !! m2 = Some c2 ->
        (exponent m1 x + exponent m1 y + exponent m1 z
         = exponent m2 x + exponent m2 y + exponent m2 z)%nat) /\
     (forall e, _check_polynomial_P2 ngens cubic (Some [x; y; z]) = Raise e ->
        e = NotHomogeneous [1; 1; 1]%Z)).
Proof.
  split; [done|]. intros x y z HV.
  assert (Hlen : (length [1; 1; 1]%Z <= length [x; y; z])%nat) by (simpl; lia).
  unfold _check_polynomial_P2, default_variables. cbv beta iota zeta.
  destruct (check_homogeneity_cases ngens cubic [x; y; z] [1; 1; 1]%Z
              (Some 3%Z) HV Hlen) as [[-> Hsame]|[-> Hdiff]].
  - rewrite bind_OK_l. split; [|done]. split; [|done].
    intros _ m1 c1 m2 c2 H1 H2. specialize (Hsame m1 c1 m2 c2 H1 H2).
    rewrite !total_degree_three in Hsame. lia.
  - rewrite bind_Raise_l. split; [|by intros e [= <-]].
    split; [done|]. intros Hall.
    destruct Hdiff as (m1 & c1 & m2 & c2 & H1 & H2 & Hne).
    rewrite !total_degree_three in Hne.
    specialize (Hall m1 c1 m2 c2 H1 H2). lia.
Qed.

(** X11: given two variables [(x, s)], [_check_polynomial_P1xP1] returns
    [(x, None, s, None)] and checks nothing.  Given four generators
    [(x, y, s, t)], it returns them exactly when all terms have the same
    degree in [(x, y)] and the same degree in [(s, t)], whatever these
    degrees are; it checks [(x, y)] first, so that it fails with the weights
    [(0, 0, 1, 1)] only on a polynomial homogeneous in [(x, y)]. *)
Theorem check_polynomial_P1xP1_outcome (ngens : nat) (biquadric : poly) :
  (forall x s, _check_polynomial_P1xP1 ngens biquadric (Some [x; s])
               = OK (x, None, s, None)) /\
  (forall x y s t, Forall (fun v => (v < ngens)%nat) [x; y; s; t] ->
     (_check_polynomial_P1xP1 ngens biquadric (Some [x; y; s; t])
      = OK (x, Some y, s, Some t) <->
      forall m1 c1 m2 c2,
        biquadric !! m1 = Some c1 -> biquadric !! m2 = Some c2 ->
        (exponent m1 x + exponent m1 y = exponent m2 x + exponent m2 y)%nat /\
        (exponent m1 s + exponent m1 t = exponent m2 s + exponent m2 t)%nat) /\
     (forall e, _check_polynomial_P1xP1 ngens biquadric (Some [x; y; s; t])
                = Raise e ->
        e = NotHomogeneous [1; 1; 0; 0]%Z \/
        (e = NotHomogeneous [0; 0; 1; 1]%Z /\
         forall m1 c1 m2 c2,
           biquadric !! m1 = Some c1 -> biquadric !! m2 = Some c2 ->
           (exponent m1 x + exponent m1 y
            = exponent m2 x + exponent m2 y)%nat))).
Proof.
  split; [done|]. intros x y s t HV.
  assert (Hlen1 : (length [1; 1; 0; 0]%Z <= length [x; y; s; t])%nat)
    by (simpl; lia).
  assert (Hlen2 : (length [0; 0; 1; 1]%Z <= length [x; y; s; t])%nat)
    by (simpl; lia).
  unfold _check_polynomial_P1xP1, default_variables. cbv beta iota zeta.
  destruct (check_homogeneity_cases ngens biquadric [x; y; s; t]
              [1; 1; 0; 0]%Z (Some 2%Z) HV Hlen1) as [[-> Hxy]|[-> Hxy]].
  - rewrite bind_OK_l.
    assert (Hxy' : forall m1 c1 m2 c2,
               biquadric !! m1 = Some c1 -> biquadric !! m2 = Some c2 ->
               (exponent m1 x + exponent m1 y
                = exponent m2 x + exponent m2 y)%nat).
    { intros m1 c1 m2 c2 H1 H2. specialize (Hxy m1 c1 m2 c2 H1 H2).
      rewrite !total_degree_1100 in Hxy. lia. }
    destruct (check_homogeneity_cases ngens biquadric [x; y; s; t]
                [0; 0; 1; 1]%Z (Some 2%Z) HV Hlen2) as [[-> Hst]|[-> Hst]].
    + rewrite bind_OK_l. split; [|done]. split; [|done].
      intros _ m1 c1 m2 c2 H1 H2. split; [by apply (Hxy' m1 c1 m2 c2)|].
      specialize (Hst m1 c1 m2 c2 H1 H2).
      rewrite !total_degree_0011 in Hst. lia.
    + rewrite bind_Raise_l. split.
      * split; [done|]. intros Hall.
        destruct Hst as (m1 & c1 & m2 & c2 & H1 & H2 & Hne).
        rewrite !total_degree_0011 in Hne.
        destruct (Hall m1 c1 m2 c2 H1 H2) as [_ Hs]. lia.
      * intros e [= <-]. by right.
  - rewrite bind_Raise_l. split.
    + split; [done|]. intros Hall.
      destruct Hxy as (m1 & c1 & m2 & c2 & H1 & H2 & Hne).
      rewrite !total_degree_1100 in Hne.
      destruct (Hall m1 c1 m2 c2 H1 H2) as [Hs _]. lia.
    + intros e [= <-]. by left.
Qed.

(** X12: given two variables [(x, y)], [_check_polynomial_P2_112] returns
    [(x, y, None, None)] and checks nothing.  Given four generators
    [(x, y, z, t)], it returns them exactly when all terms have the same
    weighted degree for the weights [(1, 0, 1, -2)] and the same for
    [(0, 1, 0, 1)], whatever these degrees are; it checks [(1, 0, 1, -2)]
    first. *)
Theorem check_polynomial_P2_112_outcome (ngens : nat) (polynomial : poly) :
  (forall x y, _check_polynomial_P2_112 ngens polynomial (Some [x; y])
               = OK (x, y, None, None)) /\
  (forall x y z t, Forall (fun v => (v < ngens)%nat) [x; y; z; t] ->
     (_check_polynomial_P2_112 ngens polynomial (Some [x; y; z; t])
      = OK (x, y, Some z, Some t) <->
      forall m1 c1 m2 c2,
        polynomial !! m1 = Some c1 -> polynomial !! m2 = Some c2 ->
        (Z.of_nat (exponent m1 x) + Z.of_nat (exponent m1 z)
           - 2 * Z.of_nat (exponent m1 t)
         = Z.of_nat (exponent m2 x) + Z.of_nat (exponent m2 z)
           - 2 * Z.of_nat (exponent m2 t))%Z /\
        (exponent m1 y + exponent m1 t = exponent m2 y + exponent m2 t)%nat) /\
     (forall e, _check_polynomial_P2_112 ngens polynomial (Some [x; y; z; t])
                = Raise e ->
        e = NotHomogeneous [1; 0; 1; -2]%Z \/
        (e = NotHomogeneous [0; 1; 0; 1]%Z /\
         forall m1 c1 m2 c2,
           polynomial !! m1 = Some c1 -> polynomial !! m2 = Some c2 ->
           (Z.of_nat (exponent m1 x) + Z.of_nat (exponent m1 z)
              - 2 * Z.of_nat (exponent m1 t)
            = Z.of_nat (exponent m2 x) + Z.of_nat (exponent m2 z)
              - 2 * Z.of_nat (exponent m2 t))%Z))).
Proof.
  split; [done|]. intros x y z t HV.
  assert (Hlen1 : (length [1; 0; 1; -2]%Z <= length [x; y; z; t])%nat)
    by (simpl; lia).
  assert (Hlen2 : (length [0; 1; 0; 1]%Z <= length [x; y; z; t])%nat)
    by (simpl; lia).
  unfold _check_polynomial_P2_112, default_variables. cbv beta iota zeta.
  destruct (check_homogeneity_cases ngens polynomial [x; y; z; t]
              [1; 0; 1; -2]%Z (Some 0%Z) HV Hlen1) as [[-> Hxz]|[-> Hxz]].
  - rewrite bind_OK_l.
    assert (Hxz' : forall m1 c1 m2 c2,
               polynomial !! m1 = Some c1 -> polynomial !! m2 = Some c2 ->
               (Z.of_nat (exponent m1 x) + Z.of_nat (exponent m1 z)
                  - 2 * Z.of_nat (exponent m1 t)
                = Z.of_nat (exponent m2 x) + Z.of_nat (exponent m2 z)
                  - 2 * Z.of_nat (exponent m2 t))%Z).
    { intros m1 c1 m2 c2 H1 H2. specialize (Hxz m1 c1 m2 c2 H1 H2).
      by rewrite !total_degree_101m2 in Hxz. }
    destruct (check_homogeneity_cases ngens polynomial [x; y; z; t]
                [0; 1; 0; 1]%Z (Some 2%Z) HV Hlen2) as [[-> Hyt]|[-> Hyt]].
    + rewrite bind_OK_l. split; [|done]. split; [|done].
      intros _ m1 c1 m2 c2 H1 H2. split; [by apply (Hxz' m1 c1 m2 c2)|].
      specialize (Hyt m1 c1 m2 c2 H1 H2).
      rewrite !total_degree_0101 in Hyt. lia.
    + rewrite bind_Raise_l. split.
      * split; [done|]. intros Hall.
        destruct Hyt as (m1 & c1 & m2 & c2 & H1 & H2 & Hne).
        rewrite !total_degree_0101 in Hne.
        destruct (Hall m1 c1 m2 c2 H1 H2) as [_ Hs]. lia.
      * intros e [= <-]. by right.
  - rewrite bind_Raise_l. split.
    + split; [done|]. intros Hall.
      destruct Hxz as (m1 & c1 & m2 & c2 & H1 & H2 & Hne).
      rewrite !total_degree_101m2 in Hne.
      by destruct (Hall m1 c1 m2 c2 H1 H2) as [Hs _].
    + intros e [= <-]. by left.
Qed.

(** X13: with two variables the reducers of the biquadric and of the
    weighted quartic run the same computation: the partial discriminant with
    respect to the second variable, read as a quartic in the first. *)
Theorem quartic_reducers_two_variables (ngens : nat) (p : poly)
    (variables : option (list var)) :
  length (default_variables ngens p variables) = 2%nat ->
  WeierstrassForm_P1xP1 ngens p variables
  = WeierstrassForm_P2_112 ngens p variables.
Proof.
  intros Hlen. unfold WeierstrassForm_P1xP1, WeierstrassForm_P2_112,
    _check_polynomial_P1xP1, _check_polynomial_P2_112.
  by destruct (default_variables ngens p variables) as [|x [|s [|? ?]]].
Qed.

Lemma quartic_reducers_two_variables_witness :
  WeierstrassForm_P1xP1 2 product_biquadric None
  = WeierstrassForm_P2_112 2 product_biquadric None.
Proof.
  apply (quartic_reducers_two_variables 2 product_biquadric None).
  by_evaluation.
Defined.

(** ** The answers of the coefficient extractor add up to the polynomial *)

Lemma coeff_pfloordiv_mono (q : poly) (d k : mono) :
  coeff (pfloordiv_mono q d) k = coeff q (k ⊎ d).
Proof.
  revert k. unfold pfloordiv_mono.
  apply (map_fold_weak_ind
           (fun acc q' => forall k, coeff acc k = coeff q' (k ⊎ d))).
  - intros k. by rewrite !coeff_empty.
  - intros m c q' acc Hm IH k. rewrite coeff_padd, coeff_pscale, IH.
    unfold mono_floordiv, coeff at 1 3.
    destruct (decide (d ⊆ m)) as [Hd|Hd].
    + destruct (decide (k = m ∖ d)) as [->|Hk].
      * rewrite mono_div_mul by done.
        rewrite lookup_singleton_eq, lookup_insert_eq. simpl.
        unfold coeff. rewrite Hm. simpl. ring.
      * rewrite lookup_singleton_ne by done.
        rewrite lookup_insert_ne.
        2:{ intros ->. apply Hk. multiset_solver. }
        simpl. fold (coeff q' (k ⊎ d)). ring.
    + rewrite lookup_empty, lookup_insert_ne.
      2:{ intros ->. apply Hd. multiset_solver. }
      simpl. fold (coeff q' (k ⊎ d)). ring.
Qed.

Lemma wf_poly_pfloordiv_mono (q : poly) (d : mono) :
  wf_poly (pfloordiv_mono q d).
Proof.
  unfold pfloordiv_mono.
  apply (map_fold_weak_ind (fun acc _ => wf_poly acc)).
  - apply wf_poly_empty.
  - intros m c q' acc _ IH. apply wf_poly_padd; [|done].
    apply wf_poly_pscale. unfold mono_floordiv.
    destruct (decide (d ⊆ m)); [|apply wf_poly_empty].
    intros k a [_ <-]%lookup_singleton_Some. by_evaluation.
Qed.

Lemma coeff_index_class (variables : list var) (p : poly) (i : list nat)
    (k : mono) :
  coeff (index_class variables p i) k
  = if decide (monomial_index variables k = i) then coeff p k else 0.
Proof.
  unfold coeff, index_class. rewrite map_lookup_filter.
  destruct (p !! k) as [c|]; simpl.
  - destruct (decide (monomial_index variables k = i)) as [Hi|Hi].
    + by rewrite option_guard_True.
    + by rewrite option_guard_False.
  - by destruct (decide (monomial_index variables k = i)).
Qed.

Lemma fmap_eq_pointwise {A B} (f g : A -> B) (l : list A) :
  f <$> l = g <$> l -> forall x, x ∈ l -> f x = g x.
Proof.
  induction l as [|a l IH]; intros Heq x Hin.
  - by apply elem_of_nil in Hin.
  - rewrite !fmap_cons in Heq. injection Heq as Ha Hl.
    apply elem_of_cons in Hin as [->|Hin]; [done|by apply IH].
Qed.

(** A monomial in the variables divides every monomial that has its
    exponents in the variables. *)
Lemma supported_divides (variables : list var) (m k : mono) :
  (forall x, x ∈ m -> x ∈ variables) ->
  monomial_index variables k = monomial_index variables m ->
  m ⊆ k.
Proof.
  rewrite !monomial_index_exponent. intros Hsup Heq.
  intros x.
  destruct (decide (x ∈ variables)) as [Hx|Hx].
  - pose proof (fmap_eq_pointwise _ _ _ Heq x Hx) as Hexp.
    unfold exponent in Hexp. lia.
  - destruct (multiplicity x m) as [|n] eqn:Hn; [lia|].
    destruct Hx. apply Hsup. apply elem_of_multiplicity. lia.
Qed.

Lemma coeff_recombine_term (variables : list var) (p : poly) (m k : mono) :
  (forall x, x ∈ m -> x ∈ variables) ->
  coeff (pmul_mono m (coefficient_of variables p m)) k
  = if decide (monomial_index variables k = monomial_index variables m)
    then coeff p k else 0.
Proof.
  intros Hsup. rewrite coeff_pmul_mono.
  destruct (decide (m ⊆ k)) as [Hd|Hd].
  - unfold coefficient_of.
    by rewrite coeff_pfloordiv_mono, mono_div_mul, coeff_index_class.
  - rewrite decide_False; [done|]. intros Heq. apply Hd.
    by apply (supported_divides variables).
Qed.

Lemma recombine_cons (c : poly) (r : list poly) (m : mono) (l : list mono) :
  recombine (c :: r) (m :: l) = padd (pmul_mono m c) (recombine r l).
Proof. done. Qed.

Lemma wf_poly_recombine (r : list poly) (l : list mono) :
  Forall wf_poly r -> wf_poly (recombine r l).
Proof.
  intros Hr. revert l. induction Hr as [|c r Hc Hr IH]; intros [|m l];
    try apply wf_poly_empty.
  rewrite recombine_cons. apply wf_poly_padd; [|apply IH].
  by apply wf_poly_pmul_mono.
Qed.

(** The answers to the requests [l], the exponents [pre] having been
    requested before. *)
Lemma coeff_recombine_answers (variables : list var) (p : poly)
    (pre : list (list nat)) (l : list mono) (k : mono) :
  (forall m x, m ∈ l -> x ∈ m -> x ∈ variables) ->
  coeff (recombine
           (imap (fun j m =>
                    if decide (monomial_index variables m
                               ∈ pre ++ take j (monomial_index variables <$> l))
                    then pzero else coefficient_of variables p m) l) l) k
  = if decide (monomial_index variables k ∈ monomial_index variables <$> l /\
               monomial_index variables k ∉ pre)
    then coeff p k else 0.
Proof.
  revert pre. induction l as [|m l IH]; intros pre Hsup.
  - change (coeff ∅ k = if decide (monomial_index variables k ∈ [] /\
                                  monomial_index variables k ∉ pre)
                       then coeff p k else 0).
    rewrite coeff_empty.
    destruct (decide _) as [[Hin _]|]; [|done]. by apply elem_of_nil in Hin.
  - change (imap ?f (m :: l)) with (f 0%nat m :: imap (f ∘ S) l).
    rewrite recombine_cons, coeff_padd.
    rewrite (imap_ext _
               (fun j m' =>
                  if decide (monomial_index variables m'
                             ∈ (pre ++ [monomial_index variables m])
                               ++ take j (monomial_index variables <$> l))
                  then pzero else coefficient_of variables p m')).
    2:{ intros j m' _. unfold compose. rewrite fmap_cons, firstn_cons.
        by rewrite <- app_assoc. }
    rewrite IH by (intros m' x Hm'; apply Hsup; by right).
    rewrite app_nil_r, fmap_cons.
    set (ik := monomial_index variables k).
    set (im := monomial_index variables m).
    set (il := monomial_index variables <$> l).
    assert (Hterm : coeff (pmul_mono m
                      (if decide (im ∈ pre) then pzero
                       else coefficient_of variables p m)) k
                    = if decide (ik = im /\ im ∉ pre) then coeff p k else 0).
    { destruct (decide (im ∈ pre)) as [Hin|Hout].
      - rewrite decide_False by (by intros [_ ?]).
        rewrite coeff_pmul_mono. destruct (decide (m ⊆ k)); [|done].
        apply coeff_empty.
      - rewrite coeff_recombine_term by (intros x; apply Hsup; by left).
        fold ik im. destruct (decide (ik = im)) as [Heq|Hne].
        + by rewrite decide_True.
        + rewrite decide_False; [done|]. by intros [? _]. }
    rewrite Hterm. clear Hterm IH.
    destruct (decide (ik = im)) as [Heq|Hne].
    + rewrite (decide_False (P := _ /\ ik ∉ pre ++ [im])).
      2:{ intros [_ Hn]. apply Hn. apply elem_of_app. right. rewrite Heq.
          by left. }
      destruct (decide (im ∈ pre)) as [Hin|Hout].
      * rewrite !decide_False; [ring| |]; intros [_ Hn]; [|done].
        apply Hn. by rewrite Heq.
      * rewrite !decide_True; [ring| |done].
        split; [rewrite Heq; by left|by rewrite Heq].
    + rewrite (decide_False (P := ik = im /\ _)) by (by intros [? _]).
      destruct (decide (ik ∈ il /\ ik ∉ pre)) as [[Hin Hout]|Hn].
      * rewrite !decide_True; [ring| |].
        -- split; [by right|done].
        -- split; [done|]. intros [?|[?|?%elem_of_nil]%elem_of_cons]%elem_of_app;
             done.
      * rewrite !decide_False; [ring| |].
        -- intros [[?|?]%elem_of_cons Hout]; [done|]. by apply Hn.
        -- intros [Hin Hout]. apply Hn. split; [done|]. intros Hp.
           apply Hout. apply elem_of_app. by left.
Qed.

Lemma wf_poly_requested_coefficients (variables : list var) (p : poly)
    (monomials : list mono) :
  Forall wf_poly (requested_coefficients variables p monomials).
Proof.
  apply list.Forall_forall. intros q Hq. unfold requested_coefficients in Hq.
  apply elem_of_lookup_imap in Hq as (j & m & -> & _).
  destruct (decide _); [apply wf_poly_empty|].
  apply wf_poly_pfloordiv_mono.
Qed.

(** X14: when the coefficient extractor returns its answers for monomials
    in the variables, the sum of each answer times its monomial is the
    polynomial itself. *)
Theorem extract_coefficients_recombine (ngens : nat) (p : poly)
    (monomials : list mono) (variables : list var) (r : list poly) :
  wf_poly p -> Forall (fun x => (x < ngens)%nat) variables ->
  (forall m x, m ∈ monomials -> x ∈ m -> x ∈ variables) ->
  _extract_coefficients ngens p monomials variables = OK r ->
  recombine r monomials = p.
Proof.
  intros Hwf HV Hsup Hr.
  destruct (extract_coefficients_cases ngens p monomials variables Hwf HV)
    as [[He Hok]|[_ Hbad]]; [|congruence].
  rewrite Hok in Hr. injection Hr as <-.
  apply peq_eq; [|done|].
  { apply wf_poly_recombine, wf_poly_requested_coefficients. }
  intros k.
  pose proof (coeff_recombine_answers variables p [] monomials k Hsup) as Hk.
  simpl in Hk. unfold requested_coefficients. rewrite Hk.
  destruct (decide _) as [|Hn]; [done|].
  unfold coeff. destruct (p !! k) as [c|] eqn:Hc; [|done].
  destruct Hn. split; [|by intros ?%elem_of_nil].
  by apply (proj1 (unmatched_empty_iff variables p monomials Hwf) He k c).
Qed.

Lemma extract_coefficients_recombine_witness :
  recombine [pconst (Q2Qc 1); pconst (Q2Qc 1); pconst (Q2Qc 1)]
            [var_pow 0 3; var_pow 1 3; var_pow 2 3]
  = fermat_cubic.
Proof.
  apply (extract_coefficients_recombine 3 fermat_cubic
           [var_pow 0 3; var_pow 1 3; var_pow 2 3] [0; 1; 2]%nat).
  - by_evaluation.
  - repeat constructor; lia.
  - intros m x Hm Hx.
    assert (Hall : Forall (fun m : mono =>
                             Forall (fun x => x ∈ [0; 1; 2]%nat) (elements m))
                          [var_pow 0 3; var_pow 1 3; var_pow 2 3])
      by by_evaluation.
    rewrite list.Forall_forall in Hall. specialize (Hall m Hm).
    rewrite list.Forall_forall in Hall.
    by apply Hall, gmultiset_elem_of_elements.
  - by_evaluation.
Defined.

(** ** The coefficient extractor is linear *)

Lemma coefficient_of_padd (variables : list var) (p q : poly) (m : mono) :
  coefficient_of variables (padd p q) m
  = padd (coefficient_of variables p m) (coefficient_of variables q m).
Proof.
  unfold coefficient_of. apply peq_eq.
  - apply wf_poly_pfloordiv_mono.
  - apply wf_poly_padd; apply wf_poly_pfloordiv_mono.
  - intros k.
    rewrite coeff_padd, !coeff_pfloordiv_mono, !coeff_index_class, coeff_padd.
    destruct (decide _); ring.
Qed.

Lemma coefficient_of_pscale (variables : list var) (c : Qc) (p : poly)
    (m : mono) :
  coefficient_of variables (pscale c p) m
  = pscale c (coefficient_of variables p m).
Proof.
  unfold coefficient_of. apply peq_eq.
  - apply wf_poly_pfloordiv_mono.
  - apply wf_poly_pscale, wf_poly_pfloordiv_mono.
  - intros k.
    rewrite coeff_pscale, !coeff_pfloordiv_mono, !coeff_index_class,
      coeff_pscale.
    destruct (decide _); ring.
Qed.

Lemma zip_with_imap_same {A B C D} (h : B -> C -> D) (f : nat -> A -> B)
    (g : nat -> A -> C) (l : list A) :
  zip_with h (imap f l) (imap g l) = imap (fun j x => h (f j x) (g j x)) l.
Proof.
  revert f g. induction l as [|a l IH]; intros f g; [done|].
  simpl. f_equal. apply (IH (f ∘ S) (g ∘ S)).
Qed.

Lemma requested_coefficients_padd (variables : list var) (p q : poly)
    (monomials : list mono) :
  requested_coefficients variables (padd p q) monomials
  = zip_with padd (requested_coefficients variables p monomials)
                  (requested_coefficients variables q monomials).
Proof.
  unfold requested_coefficients. rewrite zip_with_imap_same.
  apply imap_ext. intros j m _. simpl.
  destruct (decide _); [by rewrite padd_empty_l|].
  apply coefficient_of_padd.
Qed.

Lemma requested_coefficients_pscale (variables : list var) (c : Qc)
    (p : poly) (monomials : list mono) :
  requested_coefficients variables (pscale c p) monomials
  = pscale c <$> requested_coefficients variables p monomials.
Proof.
  unfold requested_coefficients. rewrite fmap_imap.
  apply imap_ext. intros j m _. simpl.
  destruct (decide _); [by rewrite pscale_empty|].
  apply coefficient_of_pscale.
Qed.

Lemma lookup_pscale_Some (c : Qc) (p : poly) (m : mono) (a : Qc) :
  pscale c p !! m = Some a -> exists b, p !! m = Some b.
Proof.
  unfold pscale. destruct (decide (c = 0)); [by rewrite lookup_empty|].
  rewrite lookup_fmap. destruct (p !! m) as [b|]; [by exists b|done].
Qed.

Lemma lookup_padd_Some (p q : poly) (m : mono) (a : Qc) :
  padd p q !! m = Some a ->
  (exists b, p !! m = Some b) \/ (exists b, q !! m = Some b).
Proof.
  rewrite lookup_padd.
  destruct (p !! m) as [b|]; [left; by exists b|].
  destruct (q !! m) as [b|]; [right; by exists b|done].
Qed.

Lemma extract_coefficients_OK_inv (ngens : nat) (p : poly)
    (monomials : list mono) (variables : list var) (r : list poly) :
  wf_poly p -> Forall (fun x => (x < ngens)%nat) variables ->
  _extract_coefficients ngens p monomials variables = OK r ->
  r = requested_coefficients variables p monomials /\
  forall m c, p !! m = Some c ->
    monomial_index variables m ∈ monomial_index variables <$> monomials.
Proof.
  intros Hwf HV Hr.
  destruct (extract_coefficients_cases ngens p monomials variables Hwf HV)
    as [[He Hok]|[_ Hbad]]; [|congruence].
  rewrite Hok in Hr. injection Hr as <-. split; [done|].
  by apply (unmatched_empty_iff variables p monomials Hwf).
Qed.

Lemma extract_coefficients_OK_intro (ngens : nat) (p : poly)
    (monomials : list mono) (variables : list var) :
  wf_poly p -> Forall (fun x => (x < ngens)%nat) variables ->
  (forall m c, p !! m = Some c ->
     monomial_index variables m ∈ monomial_index variables <$> monomials) ->
  _extract_coefficients ngens p monomials variables
  = OK (requested_coefficients variables p monomials).
Proof.
  intros Hwf HV Hall.
  destruct (extract_coefficients_cases ngens p monomials variables Hwf HV)
    as [[_ Hok]|[Hne _]]; [done|].
  destruct Hne. by apply (unmatched_empty_iff variables p monomials Hwf).
Qed.

Lemma extract_coefficients_padd (ngens : nat) (p q : poly)
    (monomials : list mono) (variables : list var) (r s : list poly) :
  wf_poly p -> wf_poly q -> Forall (fun x => (x < ngens)%nat) variables ->
  _extract_coefficients ngens p monomials variables = OK r ->
  _extract_coefficients ngens q monomials variables = OK s ->
  _extract_coefficients ngens (padd p q) monomials variables
  = OK (zip_with padd r s).
Proof.
  intros Hp Hq HV Hr Hs.
  apply extract_coefficients_OK_inv in Hr as [-> Hpall]; [|done..].
  apply extract_coefficients_OK_inv in Hs as [-> Hqall]; [|done..].
  rewrite <- requested_coefficients_padd.
  apply extract_coefficients_OK_intro; [by apply wf_poly_padd|done|].
  intros m c [[b Hb]|[b Hb]]%lookup_padd_Some; eauto.
Qed.

Lemma extract_coefficients_pscale (ngens : nat) (c : Qc) (p : poly)
    (monomials : list mono) (variables : list var) (r : list poly) :
  wf_poly p -> Forall (fun x => (x < ngens)%nat) variables ->
  _extract_coefficients ngens p monomials variables = OK r ->
  _extract_coefficients ngens (pscale c p) monomials variables
  = OK (pscale c <$> r).
Proof.
  intros Hp HV Hr.
  apply extract_coefficients_OK_inv in Hr as [-> Hpall]; [|done..].
  rewrite <- requested_coefficients_pscale.
  apply extract_coefficients_OK_intro; [by apply wf_poly_pscale|done|].
  intros m a [b Hb]%lookup_pscale_Some. eauto.
Qed.

(** X15: the coefficient extractor is linear where it succeeds: the answers
    for a sum are the sums of the answers, and the answers for a multiple
    are the multiples of the answers. *)
Theorem extract_coefficients_linear (ngens : nat) (c : Qc) (p q : poly)
    (monomials : list mono) (variables : list var) (r s : list poly) :
  wf_poly p -> wf_poly q -> Forall (fun x => (x < ngens)%nat) variables ->
  _extract_coefficients ngens p monomials variables = OK r ->
  _extract_coefficients ngens q monomials variables = OK s ->
  _extract_coefficients ngens (padd p q) monomials variables
  = OK (zip_with padd r s) /\
  _extract_coefficients ngens (pscale c p) monomials variables
  = OK (pscale c <$> r).
Proof.
  intros Hp Hq HV Hr Hs. split.
  - by apply extract_coefficients_padd.
  - by apply extract_coefficients_pscale.
Qed.

Lemma extract_coefficients_linear_witness :
  _extract_coefficients 3 (padd fermat_cubic triangle_cubic)
    [var_pow 0 3; var_pow 1 3; var_pow 2 3;
     mono_mul (var_pow 0 1) (mono_mul (var_pow 1 1) (var_pow 2 1))]
    [0; 1; 2]%nat
  = OK (zip_with padd
          [pconst (Q2Qc 1); pconst (Q2Qc 1); pconst (Q2Qc 1); pzero]
          [pzero; pzero; pzero; pconst (Q2Qc 1)]) /\
  _extract_coefficients 3 (pscale (Q2Qc 5) fermat_cubic)
    [var_pow 0 3; var_pow 1 3; var_pow 2 3;
     mono_mul (var_pow 0 1) (mono_mul (var_pow 1 1) (var_pow 2 1))]
    [0; 1; 2]%nat
  = OK (pscale (Q2Qc 5) <$>
          [pconst (Q2Qc 1); pconst (Q2Qc 1); pconst (Q2Qc 1); pzero]).
Proof.
  apply (extract_coefficients_linear 3 (Q2Qc 5) fermat_cubic triangle_cubic).
  - by_evaluation.
  - by_evaluation.
  - repeat constructor; lia.
  - by_evaluation.
  - by_evaluation.
Defined.

(** ** Scaling the quadric *)

Lemma pconst_mul (a b : Qc) :
  peq (pconst (a * b)) (pmul (pconst a) (pconst b)).
Proof.
  rewrite <- pscale_pmul_pconst. intros k. unfold pconst.
  rewrite coeff_pscale, !coeff_pterm. destruct (decide _); ring.
Qed.

Lemma discriminant_formula_scale (c : Qc) (c0 c1 c2 : poly) :
  psub (ppow (pscale c c1) 2) (pmul (pscale (Q2Qc 4) (pscale c c0)) (pscale c c2))
  = pscale (c * c) (psub (ppow c1 2) (pmul (pscale (Q2Qc 4) c0) c2)).
Proof.
  apply peq_eq.
  - apply wf_poly_psub; apply wf_poly_pmul.
  - apply wf_poly_pscale, wf_poly_psub; apply wf_poly_pmul.
  - cbv beta iota delta [ppow].
    rewrite !pscale_pmul_pconst, pconst_mul. ring.
Qed.

Lemma partial_discriminant_pscale (ngens : nat) (c : Qc) (quadric : poly)
    (y0 : var) (y1 : option var) (delta : poly) :
  wf_poly quadric ->
  (y0 < ngens)%nat -> (forall y, y1 = Some y -> (y < ngens)%nat) ->
  _partial_discriminant ngens quadric y0 y1 = OK delta ->
  _partial_discriminant ngens (pscale c quadric) y0 y1
  = OK (pscale (c * c) delta).
Proof.
  intros Hwf Hy0 Hy1. unfold _partial_discriminant. destruct y1 as [y1|].
  - assert (HV : Forall (fun x => (x < ngens)%nat) [y0; y1]).
    { repeat constructor; [done|]. by apply Hy1. }
    intros (r & Hr & Hd)%bind_OK.
    rewrite (extract_coefficients_pscale _ c _ _ _ r Hwf HV Hr), bind_OK_l.
    destruct r as [|c0 [|c1 [|c2 [|]]]]; try done.
    injection Hd as <-. simpl fmap. cbv beta iota. f_equal.
    apply discriminant_formula_scale.
  - assert (HV : Forall (fun x => (x < ngens)%nat) [y0])
      by (by repeat constructor).
    intros (r & Hr & Hd)%bind_OK.
    rewrite (extract_coefficients_pscale _ c _ _ _ r Hwf HV Hr), bind_OK_l.
    destruct r as [|c0 [|c1 [|c2 [|]]]]; try done.
    injection Hd as <-. simpl fmap. cbv beta iota. f_equal.
    apply discriminant_formula_scale.
Qed.

(** X16: the partial discriminant is homogeneous of degree 2: where it is
    defined, a multiple [c * quadric] has the partial discriminant
    [c^2 * delta]. *)
Theorem partial_discriminant_scale (ngens : nat) (c : Qc) (quadric : poly)
    (y0 : var) (y1 : option var) (delta : poly) :
  wf_poly quadric ->
  (y0 < ngens)%nat -> (forall y, y1 = Some y -> (y < ngens)%nat) ->
  _partial_discriminant ngens quadric y0 y1 = OK delta ->
  _partial_discriminant ngens (pscale c quadric) y0 y1
  = OK (pscale (c * c) delta).
Proof.
  intros Hwf Hy0 Hy1 Hd. split_and?; by apply partial_discriminant_pscale.
Qed.

Lemma partial_discriminant_scale_witness :
  _partial_discriminant 2 (pscale (Q2Qc 3) product_biquadric) 1 None
  = OK (pscale (Q2Qc 3 * Q2Qc 3)
          (psub (ppow pzero 2)
                (pmul (pscale (Q2Qc 4)
                         (padd (pterm (Q2Qc 1) (var_pow 0 2)) (pconst (Q2Qc 1))))
                      (padd (pterm (Q2Qc 1) (var_pow 0 2)) (pconst (Q2Qc 1)))))).
Proof.
  apply (partial_discriminant_scale 2 (Q2Qc 3) product_biquadric 1 None).
  - by_evaluation.
  - lia.
  - intros y [=].
  - by_evaluation.
Defined.

(** ** The validator at its bounds *)

Lemma weighted_degree_short (e : mono) (variable_indices : list nat)
    (weights : list Z) :
  (length variable_indices < length weights)%nat ->
  weighted_degree e variable_indices weights = Raise IndexOutOfRange.
Proof.
  revert variable_indices.
  induction weights as [|w ws IH]; intros [|j js] Hlen; simpl in *;
    [lia|lia|done|].
  by rewrite IH by lia.
Qed.

Lemma mapM_gens_index_cases (ngens : nat) (variables : list var) :
  (Forall (fun x => (x < ngens)%nat) variables /\
   mapM (gens_index ngens) variables = OK variables) \/
  (exists x, x ∈ variables /\ ~ (x < ngens)%nat /\
     mapM (gens_index ngens) variables = Raise (NotAGenerator x)).
Proof.
  destruct (mapM (gens_index ngens) variables) as [idx|e] eqn:E.
  - left. pose proof (mapM_gens_index_Forall _ _ _ E) as HV.
    split; [done|]. by rewrite <- E, (mapM_gens_index_OK _ _ HV).
  - right. apply mapM_gens_index_Raise in E as (x & -> & Hin & Hout).
    by exists x.
Qed.

(** X17: a variable that is no generator makes the validator fail before
    it looks at the polynomial.  With generators for variables but more
    weights than variables, it passes the zero polynomial, whose terms it
    has none to visit, and fails with [IndexOutOfRange] on every other
    polynomial. *)
Theorem check_homogeneity_bounds (ngens : nat) (p : poly)
    (variables : list var) (weights : list Z) (total_weight : option Z) :
  (~ Forall (fun x => (x < ngens)%nat) variables ->
   exists x, x ∈ variables /\ ~ (x < ngens)%nat /\
     _check_homogeneity ngens p variables weights total_weight
     = Raise (NotAGenerator x)) /\
  (Forall (fun x => (x < ngens)%nat) variables ->
   (length variables < length weights)%nat ->
   _check_homogeneity ngens p variables weights total_weight
   = if decide (p = pzero) then OK tt else Raise IndexOutOfRange).
Proof.
  unfold _check_homogeneity.
  destruct (mapM_gens_index_cases ngens variables)
    as [[HV ->]|(x & Hin & Hout & ->)].
  - split; [done|]. intros _ Hlen. rewrite bind_OK_l.
    assert (Hinv : map_fold (fun e _ state =>
                       homogeneity_step variables weights e state)
                     (OK None) p
                   = if decide (p = pzero) then OK None
                     else Raise IndexOutOfRange).
    { pose (Pinv := fun (st : result (option Z)) (p' : poly) =>
                      st = if decide (p' = pzero) then OK None
                           else Raise IndexOutOfRange).
      apply (map_fold_weak_ind Pinv); unfold Pinv.
      - by rewrite decide_True.
      - intros m c p' st _ ->.
        rewrite (decide_False (P := <[m:=c]> p' = pzero))
          by apply insert_non_empty.
        unfold homogeneity_step.
        destruct (decide (p' = pzero)); [|done].
        rewrite bind_OK_l. by rewrite weighted_degree_short. }
    cbv zeta. rewrite Hinv. by destruct (decide (p = pzero)).
  - split; [|by intros HV; rewrite list.Forall_forall in HV; destruct Hout;
                apply HV].
    intros _. exists x. by rewrite bind_Raise_l.
Qed.

(** ** The support extractor at its bounds *)

Lemma support_no_variables (P : poly) :
  wf_poly P ->
  map_fold (support_step [] []) ∅ P
  = if decide (P = pzero) then ∅ else {[ [] := P ]}.
Proof.
  pose (Pinv := fun (r : pdict) (p' : poly) =>
                  wf_poly p' ->
                  r = if decide (p' = pzero) then ∅ else {[ [] := p' ]}).
  apply (map_fold_weak_ind Pinv); unfold Pinv.
  - intros _. by rewrite decide_True.
  - intros m c p' r Hm IH Hwf.
    apply wf_poly_insert in Hwf as [Hc Hwf]; [|done].
    rewrite (decide_False (P := <[m:=c]> p' = pzero))
      by apply insert_non_empty.
    rewrite (IH Hwf). unfold support_step. rewrite fmap_nil, prod_pow_nil.
    rewrite pscale_mono_floordiv by (done || multiset_solver).
    replace (m ∖ ∅) with m by multiset_solver.
    destruct (decide (p' = pzero)) as [->|Hne].
    + unfold dget. rewrite lookup_empty. simpl. unfold pzero.
      rewrite padd_empty_l. by rewrite insert_empty.
    + unfold dget. rewrite lookup_singleton_eq. simpl.
      rewrite padd_singleton_fresh by done. by rewrite insert_singleton_eq.
Qed.

(** X18: for the zero polynomial the support extractor returns the empty
    mapping, and with no variable chosen it returns the whole polynomial
    under the empty tuple, the empty mapping again if the polynomial is
    zero. *)
Theorem Newton_polytope_vars_coeffs_edges (ngens : nat) (P : poly)
    (V : list var) :
  (Forall (fun x => (x < ngens)%nat) V ->
   Newton_polytope_vars_coeffs ngens pzero V = OK ∅) /\
  (wf_poly P ->
   Newton_polytope_vars_coeffs ngens P []
   = OK (if decide (P = pzero) then ∅ else {[ [] := P ]})).
Proof.
  split.
  - intros HV. rewrite (Newton_polytope_vars_coeffs_total _ _ _ HV).
    unfold pzero. by rewrite map_fold_empty.
  - intros Hwf.
    rewrite (Newton_polytope_vars_coeffs_total ngens P []) by constructor.
    by rewrite support_no_variables.
Qed.

(** ** Embedding with the identity *)

Lemma map_fold_ext_in {A B} (f g : list nat -> A -> B -> B) (b : B)
    (m : gmap (list nat) A) :
  (forall i x r, m !! i = Some x -> f i x r = g i x r) ->
  map_fold f b m = map_fold g b m.
Proof.
  induction m as [|i x m Hi Hfirst IH] using map_first_key_ind; intros Hext.
  - by rewrite !map_fold_empty.
  - rewrite !map_fold_insert_first_key by done.
    rewrite IH.
    + apply Hext. by rewrite lookup_insert_eq.
    + intros j y r Hj. apply Hext. rewrite lookup_insert_ne; [done|].
      intros <-. by rewrite Hi in Hj.
Qed.

Lemma padd_comm (p q : poly) : padd p q = padd q p.
Proof.
  apply map_eq. intros k. rewrite !lookup_padd.
  destruct (p !! k) as [a|], (q !! k) as [b|]; try done.
  rewrite (Qcplus_comm b a). done.
Qed.

Lemma pterm_terms (c : Qc) (m : mono) : peq (pterm c m) (of_terms [(m, c)]).
Proof.
  intros k. rewrite coeff_pterm, coeff_of_terms. simpl.
  destruct (decide (k = m)); ring.
Qed.

(** The product with a monomial, through the product of polynomials. *)
Lemma pmul_pterm_mono (m : mono) (p : poly) :
  peq (pmul (pterm 1 m) p) (pmul_mono m p).
Proof.
  rewrite pterm_terms. rewrite <- (of_terms_map_to_list p) at 1.
  rewrite pmul_of_terms. intros k.
  rewrite coeff_of_terms, term_products_cons, tcoeff_app, tcoeff_term_mul.
  simpl. rewrite coeff_pmul_mono.
  destruct (decide (m ⊆ k)); rewrite ?tcoeff_map_to_list; ring.
Qed.

Lemma pmul_pterm_pterm (a b : mono) :
  peq (pmul (pterm 1 a) (pterm 1 b)) (pterm 1 (mono_mul a b)).
Proof.
  rewrite pmul_pterm_mono. intros k.
  rewrite coeff_pmul_mono, !coeff_pterm. unfold mono_mul.
  destruct (decide (a ⊆ k)) as [Ha|Ha].
  - destruct (decide (k ∖ a = b)) as [Hb|Hb].
    + rewrite decide_True; [done|]. rewrite <- Hb. multiset_solver.
    + rewrite decide_False; [done|]. intros ->. apply Hb. multiset_solver.
  - rewrite decide_False; [done|]. intros ->. apply Ha. multiset_solver.
Qed.

Lemma embed_term (x y : var) (e0 e1 : nat) (c : poly) :
  wf_poly c ->
  pmul (pmul c (pterm 1 (var_pow x e0))) (pterm 1 (var_pow y e1))
  = pmul_mono (prod_pow [x; y] [e0; e1]) c.
Proof.
  intros Hc. apply peq_eq.
  - apply wf_poly_pmul.
  - by apply wf_poly_pmul_mono.
  - replace (prod_pow [x; y] [e0; e1])
      with (mono_mul (var_pow x e0) (var_pow y e1)).
    2:{ unfold prod_pow, mono_mul, mono_one. simpl. multiset_solver. }
    rewrite <- pmul_pterm_mono, <- pmul_pterm_pterm. ring.
Qed.

Section Identity.
Variable classify :
list (list nat) -> option (family * (list nat -> nat * nat)).

(** X19: when the classifier embeds the exponents of two distinct
  generators [(x, y)] by the identity, [Newton_polygon_embedded] returns
  the polynomial itself, with the family of the classifier and the
  variables [(x, y)]. *)
Theorem Newton_polygon_embedded_identity (ngens : nat) (P : poly)
  (x y : var) (F : family) (embedding : list nat -> nat * nat) :
wf_poly P -> x <> y -> (x < ngens)%nat -> (y < ngens)%nat ->
(forall d, Newton_polytope_vars_coeffs ngens P [x; y] = OK d ->
   classify (map_to_list d).*1 = Some (F, embedding)) ->
(forall e0 e1, embedding [e0; e1] = (e0, e1)) ->
Newton_polygon_embedded classify ngens P [x; y] = OK (F, P, [x; y]).
Proof.
intros Hwf Hxy Hx Hy Hclass Hemb.
assert (HV : Forall (fun v => (v < ngens)%nat) [x; y])
  by (by repeat constructor).
assert (Hnd : NoDup [x; y]).
{ apply NoDup_cons_2; [|apply NoDup_singleton].
  by intros ?%list_elem_of_singleton. }
pose proof (Newton_polytope_vars_coeffs_total ngens P [x; y] HV) as Hd.
unfold Newton_polygon_embedded. rewrite Hd, bind_OK_l.
rewrite (Hclass _ Hd). do 3 f_equal.
destruct (support_inv_fold [x; y] Hnd P Hwf) as [Hval Hterm].
rewrite <- (reconstruct_support [x; y] Hnd _ P (conj Hval Hterm)) at 2.
unfold reconstruct. apply map_fold_ext_in.
intros v q r Hq. unfold reconstruct_step.
destruct (Hval v q Hq) as [Hne Hq'].
assert (Hwfq : wf_poly q).
{ intros mr c Hc. destruct (Hq' mr c Hc) as [Hp _]. by apply (Hwf _ c Hp). }
apply map_choose in Hne as (mr & c & Hc).
destruct (Hq' mr c Hc) as [_ Hv].
rewrite !fmap_cons, fmap_nil in Hv. rewrite Hv at 1 2 3.
rewrite Hemb. cbv beta iota zeta delta [fst snd].
rewrite embed_term by done. rewrite <- Hv. apply padd_comm.
Qed.
End Identity.

Lemma Newton_polygon_embedded_identity_witness :
  Newton_polygon_embedded cubic_classifier 2 affine_fermat_cubic [0; 1]%nat
  = OK (Cubic, affine_fermat_cubic, [0; 1]%nat).
Proof.
  apply (Newton_polygon_embedded_identity cubic_classifier 2
           affine_fermat_cubic 0 1 Cubic
           (fun e => (e !!! 0%nat, e !!! 1%nat))).
  - by_evaluation.
  - done.
  - lia.
  - lia.
  - done.
  - done.
Defined.

(** ** The partial discriminant does not depend on the order of the pair *)

Lemma coefficient_of_swap (q : poly) (y0 y1 : var) (m : mono) :
  coefficient_of [y1; y0] q m = coefficient_of [y0; y1] q m.
Proof.
  unfold coefficient_of, index_class. f_equal.
  apply map_filter_ext. intros t c _. simpl.
  rewrite !monomial_index_exponent, !fmap_cons, !fmap_nil.
  split; intros [= H1 H2]; by rewrite H1, H2.
Qed.

Lemma quadratic_pair_swap (m : mono) (y0 y1 : var) :
  monomial_index [y0; y1] m ∈ [[0; 2]; [1; 1]; [2; 0]]%nat ->
  monomial_index [y1; y0] m ∈ [[0; 2]; [1; 1]; [2; 0]]%nat.
Proof.
  rewrite !monomial_index_exponent, !quadratic_pair_index. lia.
Qed.

(** X20: the partial discriminant with respect to a pair of distinct
    generators is the same in either order of the pair. *)
Theorem partial_discriminant_symmetric (ngens : nat) (quadric : poly)
    (y0 y1 : var) (delta : poly) :
  wf_poly quadric -> (y0 < ngens)%nat -> (y1 < ngens)%nat -> y0 <> y1 ->
  _partial_discriminant ngens quadric y0 (Some y1) = OK delta ->
  _partial_discriminant ngens quadric y1 (Some y0) = OK delta.
Proof.
  intros Hwf Hy0 Hy1 Hne. unfold _partial_discriminant.
  assert (HV : Forall (fun x => (x < ngens)%nat) [y0; y1])
    by (by repeat constructor).
  assert (HV' : Forall (fun x => (x < ngens)%nat) [y1; y0])
    by (by repeat constructor).
  assert (Hne' : y1 <> y0) by done.
  destruct (monomial_index_pair y0 y1 Hne) as (I2 & I1 & I0).
  destruct (monomial_index_pair y1 y0 Hne') as (J2 & J1 & J0).
  intros (r & Hr & Hd)%bind_OK.
  apply extract_coefficients_OK_inv in Hr as [-> Hall]; [|done..].
  rewrite requested_coefficients_three in Hd by (rewrite ?I2, ?I1, ?I0; done).
  rewrite !fmap_cons, fmap_nil, I2, I1, I0 in Hall.
  rewrite (extract_coefficients_OK_intro ngens quadric _ [y1; y0] Hwf HV').
  2:{ intros m c Hm. rewrite !fmap_cons, fmap_nil, J2, J1, J0.
      apply quadratic_pair_swap. by apply (Hall m c). }
  rewrite bind_OK_l.
  rewrite requested_coefficients_three by (rewrite ?J2, ?J1, ?J0; done).
  rewrite !(coefficient_of_swap quadric y0 y1).
  replace (mono_mul (var_pow y1 1) (var_pow y0 1))
    with (mono_mul (var_pow y0 1) (var_pow y1 1))
    by (unfold mono_mul; multiset_solver).
  rewrite <- Hd. do 2 f_equal. apply pmul_pscale_swap.
Qed.

Lemma partial_discriminant_symmetric_witness :
  _partial_discriminant 2 binary_conic 1 (Some 0%nat)
  = OK (pconst (Q2Qc 5)).
Proof.
  apply (partial_discriminant_symmetric 2 binary_conic 0 1).
  - by_evaluation.
  - lia.
  - lia.
  - done.
  - by_evaluation.
Defined.

(** ** The coefficient extractor at its bounds *)

Lemma requested_coefficients_zero (variables : list var)
    (monomials : list mono) :
  requested_coefficients variables pzero monomials
  = replicate (length monomials) pzero.
Proof.
  unfold requested_coefficients.
  rewrite (imap_ext _ (fun _ _ => pzero)).
  - induction monomials as [|m l IH]; [done|]. simpl. f_equal. apply IH.
  - intros j m _. simpl. destruct (decide _); [done|].
    unfold coefficient_of, index_class, pzero.
    by rewrite map_filter_empty, pfloordiv_mono_empty.
Qed.

(** X21: a variable that is no generator makes the coefficient extractor
    fail before it looks at the polynomial.  With generators for variables,
    the zero polynomial gets the zero answer for every requested monomial,
    and with no monomial requested the extractor returns the empty tuple for
    the zero polynomial and fails with [UnexpectedMonomials] on every
    other. *)
Theorem extract_coefficients_bounds (ngens : nat) (p : poly)
    (monomials : list mono) (variables : list var) :
  (~ Forall (fun x => (x < ngens)%nat) variables ->
   exists x, x ∈ variables /\ ~ (x < ngens)%nat /\
     _extract_coefficients ngens p monomials variables
     = Raise (NotAGenerator x)) /\
  (Forall (fun x => (x < ngens)%nat) variables ->
   _extract_coefficients ngens pzero monomials variables
   = OK (replicate (length monomials) pzero)) /\
  (Forall (fun x => (x < ngens)%nat) variables -> wf_poly p ->
   (p = pzero -> _extract_coefficients ngens p [] variables = OK []) /\
   (p <> pzero ->
    exists rest, rest <> ∅ /\
      _extract_coefficients ngens p [] variables
      = Raise (UnexpectedMonomials rest))).
Proof.
  split; [|split].
  - intros HV. unfold _extract_coefficients.
    destruct (mapM_gens_index_cases ngens variables)
      as [[HV' _]|(x & Hin & Hout & ->)]; [done|].
    exists x. by rewrite bind_Raise_l.
  - intros HV. rewrite <- requested_coefficients_zero with (variables := variables).
    apply extract_coefficients_OK_intro; [apply wf_poly_empty|done|].
    intros m c Hm. unfold pzero in Hm. by rewrite lookup_empty in Hm.
  - intros HV Hwf.
    destruct (extract_coefficients_cases ngens p [] variables Hwf HV)
      as [[He ->]|[He ->]].
    + split; [done|]. intros Hne. unfold pzero in Hne.
      apply map_choose in Hne as (m & c & Hm).
      pose proof (proj1 (unmatched_empty_iff variables p [] Hwf) He m c Hm)
        as Hin.
      by apply elem_of_nil in Hin.
    + split; [|intros _; by eexists]. intros ->. destruct He.
      apply (unmatched_empty_iff variables pzero [] Hwf).
      intros m c Hm. unfold pzero in Hm. by rewrite lookup_empty in Hm.
Qed.

(** ** Scaling the defining polynomial *)

Lemma extract_coefficients_OK_gens (ngens : nat) (p : poly)
    (monomials : list mono) (variables : list var) (r : list poly) :
  _extract_coefficients ngens p monomials variables = OK r ->
  Forall (fun x => (x < ngens)%nat) variables.
Proof.
  unfold _extract_coefficients. intros (idx & Hidx & _)%bind_OK.
  by apply (mapM_gens_index_Forall _ _ idx).
Qed.

Lemma check_homogeneity_OK_gens (ngens : nat) (p : poly)
    (variables : list var) (weights : list Z) (total_weight : option Z)
    (u : unit) :
  _check_homogeneity ngens p variables weights total_weight = OK u ->
  Forall (fun x => (x < ngens)%nat) variables.
Proof.
  unfold _check_homogeneity. intros (idx & Hidx & _)%bind_OK.
  by apply (mapM_gens_index_Forall _ _ idx).
Qed.

Lemma check_homogeneity_pscale (ngens : nat) (c : Qc) (p : poly)
    (variables : list var) (weights : list Z) (total_weight : option Z) :
  _check_homogeneity ngens p variables weights total_weight = OK tt ->
  (length weights <= length variables)%nat ->
  _check_homogeneity ngens (pscale c p) variables weights total_weight
  = OK tt.
Proof.
  intros Hp Hlen. pose proof (check_homogeneity_OK_gens _ _ _ _ _ _ Hp) as HV.
  destruct (check_homogeneity_cases ngens (pscale c p) variables weights
              total_weight HV Hlen) as [[-> _]|[_ Hdiff]]; [done|].
  destruct Hdiff as (m1 & c1 & m2 & c2 & H1 & H2 & Hne).
  apply lookup_pscale_Some in H1 as [b1 H1].
  apply lookup_pscale_Some in H2 as [b2 H2].
  destruct (check_homogeneity_cases ngens p variables weights
              total_weight HV Hlen) as [[_ Hsame]|[Hbad _]]; [|congruence].
  by destruct (Hne (Hsame m1 b1 m2 b2 H1 H2)).
Qed.

Lemma check_polynomial_P2_pscale (ngens : nat) (c : Qc) (p : poly)
    (vs : list var) (t : var * var * option var) :
  _check_polynomial_P2 ngens p (Some vs) = OK t ->
  _check_polynomial_P2 ngens (pscale c p) (Some vs) = OK t.
Proof.
  unfold _check_polynomial_P2, default_variables.
  destruct vs as [|x [|y [|z [|]]]]; try done.
  intros ([] & Hchk & Ht)%bind_OK.
  by rewrite (check_homogeneity_pscale _ c _ _ _ _ Hchk) by (simpl; lia).
Qed.

Lemma check_polynomial_P1xP1_pscale (ngens : nat) (c : Qc) (p : poly)
    (vs : list var) (t : var * option var * var * option var) :
  _check_polynomial_P1xP1 ngens p (Some vs) = OK t ->
  _check_polynomial_P1xP1 ngens (pscale c p) (Some vs) = OK t.
Proof.
  unfold _check_polynomial_P1xP1, default_variables.
  destruct vs as [|x [|y [|s [|u [|]]]]]; try done.
  intros ([] & H1 & ([] & H2 & Ht)%bind_OK)%bind_OK.
  rewrite (check_homogeneity_pscale _ c _ _ _ _ H1) by (simpl; lia).
  rewrite bind_OK_l.
  by rewrite (check_homogeneity_pscale _ c _ _ _ _ H2) by (simpl; lia).
Qed.

Lemma check_polynomial_P2_112_pscale (ngens : nat) (c : Qc) (p : poly)
    (vs : list var) (t : var * var * option var * option var) :
  _check_polynomial_P2_112 ngens p (Some vs) = OK t ->
  _check_polynomial_P2_112 ngens (pscale c p) (Some vs) = OK t.
Proof.
  unfold _check_polynomial_P2_112, default_variables.
  destruct vs as [|x [|y [|z [|u [|]]]]]; try done.
  intros ([] & H1 & ([] & H2 & Ht)%bind_OK)%bind_OK.
  rewrite (check_homogeneity_pscale _ c _ _ _ _ H1) by (simpl; lia).
  rewrite bind_OK_l.
  by rewrite (check_homogeneity_pscale _ c _ _ _ _ H2) by (simpl; lia).
Qed.

Lemma pscale_pmul_pconst_L (c : Qc) (a : poly) :
  wf_poly a -> pscale c a = pmul (pconst c) a.
Proof.
  intros Ha. apply peq_eq; [by apply wf_poly_pscale|apply wf_poly_pmul|].
  apply pscale_pmul_pconst.
Qed.

Lemma pscale_pscale_swap (k a : Qc) (X : poly) :
  wf_poly X -> pscale k (pmul (pconst a) X) = pscale a (pscale k X).
Proof.
  intros HX. apply peq_eq.
  - apply wf_poly_pscale, wf_poly_pmul.
  - by do 2 apply wf_poly_pscale.
  - rewrite !pscale_pmul_pconst. ring.
Qed.

Lemma ppow_pconst_2 (c : Qc) : ppow (pconst c) 2 = pconst (c * c).
Proof.
  apply peq_eq; [apply wf_poly_pmul|apply wf_poly_pconst|].
  cbv beta iota delta [ppow]. rewrite !pconst_mul. ring.
Qed.

Lemma ppow_pconst_3 (c : Qc) : ppow (pconst c) 3 = pconst (c * c * c).
Proof.
  apply peq_eq; [apply wf_poly_pmul|apply wf_poly_pconst|].
  cbv beta iota delta [ppow]. rewrite !pconst_mul. ring.
Qed.

Lemma ppow_pconst_4 (c : Qc) : ppow (pconst c) 4 = pconst (c * c * c * c).
Proof.
  apply peq_eq; [apply wf_poly_pmul|apply wf_poly_pconst|].
  cbv beta iota delta [ppow]. rewrite !pconst_mul. ring.
Qed.

Lemma ppow_pconst_6 (c : Qc) :
  ppow (pconst c) 6 = pconst (c * c * c * c * c * c).
Proof.
  apply peq_eq; [apply wf_poly_pmul|apply wf_poly_pconst|].
  cbv beta iota delta [ppow]. rewrite !pconst_mul. ring.
Qed.

Lemma wf_S_invariant (C : TernaryCubic poly) : wf_poly (S_invariant C).
Proof. expose. wf_tac. Qed.

Lemma wf_T_invariant (C : TernaryCubic poly) : wf_poly (T_invariant C).
Proof. expose. wf_tac. Qed.

Lemma extract_coefficients_OK_wf (ngens : nat) (p : poly)
    (monomials : list mono) (variables : list var) (r : list poly) :
  wf_poly p ->
  _extract_coefficients ngens p monomials variables = OK r ->
  Forall wf_poly r.
Proof.
  intros Hwf Hr.
  pose proof (extract_coefficients_OK_gens _ _ _ _ _ Hr) as HV.
  apply extract_coefficients_OK_inv in Hr as [-> _]; [|done..].
  apply wf_poly_requested_coefficients.
Qed.

Lemma ternary_cubic_pscale (ngens : nat) (c : Qc) (p : poly) (x y : var)
    (z : option var) (C : TernaryCubic poly) :
  wf_poly p ->
  ternary_cubic ngens p x y z = OK C ->
  ternary_cubic ngens (pscale c p) x y z = OK (scale_cubic (pconst c) C).
Proof.
  intros Hwf. unfold ternary_cubic.
  destruct z as [z|]; intros (r & Hr & HC)%bind_OK.
  all: pose proof (extract_coefficients_OK_gens _ _ _ _ _ Hr) as HV.
  all: pose proof (extract_coefficients_OK_wf _ _ _ _ _ Hwf Hr) as Hwfr.
  all: rewrite (extract_coefficients_pscale _ c _ _ _ r Hwf HV Hr), bind_OK_l.
  all: do 11 (destruct r as [|? r]; try done).
  all: injection HC as <-.
  all: rewrite !list.Forall_cons in Hwfr; destruct_and!.
  all: unfold scale_cubic;
    cbn [fmap list_fmap a30 a21 a12 a03 a20 a11 a02 a10 a01 a00].
  all: by rewrite !pscale_pmul_pconst_L by done.
Qed.

Lemma WeierstrassForm_P2_pscale (ngens : nat) (c : Qc) (p : poly)
    (vs : list var) (f g : poly) :
  wf_poly p ->
  WeierstrassForm_P2 ngens p (Some vs) = OK (f, g) ->
  WeierstrassForm_P2 ngens (pscale c p) (Some vs)
  = OK (pscale (c * c * c * c) f, pscale (c * c * c * c * c * c) g).
Proof.
  intros Hwf. unfold WeierstrassForm_P2.
  intros ([[x y] z] & Hchk & (C & HC & Hfg)%bind_OK)%bind_OK.
  rewrite (check_polynomial_P2_pscale _ c _ _ _ Hchk), bind_OK_l.
  cbv beta iota.
  rewrite (ternary_cubic_pscale _ c _ _ _ _ _ Hwf HC), bind_OK_l.
  injection Hfg as <- <-.
  rewrite S_invariant_homogeneous, T_invariant_homogeneous.
  rewrite ppow_pconst_4, ppow_pconst_6.
  rewrite (pscale_pscale_swap _ _ _ (wf_S_invariant C)).
  by rewrite (pscale_pscale_swap _ _ _ (wf_T_invariant C)).
Qed.

(** *** The quartics *)

Lemma partial_discriminant_OK_gens (ngens : nat) (quadric : poly) (y0 : var)
    (y1 : option var) (delta : poly) :
  _partial_discriminant ngens quadric y0 y1 = OK delta ->
  (y0 < ngens)%nat /\ forall y, y1 = Some y -> (y < ngens)%nat.
Proof.
  unfold _partial_discriminant.
  destruct y1 as [y1|]; intros (r & Hr & _)%bind_OK;
    apply extract_coefficients_OK_gens in Hr;
    rewrite !list.Forall_cons in Hr; destruct_and!; split; try done.
  by intros y [= <-].
Qed.

Lemma partial_discriminant_OK_wf (ngens : nat) (quadric : poly) (y0 : var)
    (y1 : option var) (delta : poly) :
  _partial_discriminant ngens quadric y0 y1 = OK delta -> wf_poly delta.
Proof.
  unfold _partial_discriminant.
  destruct y1 as [y1|]; intros (r & _ & Hd)%bind_OK;
    destruct r as [|c0 [|c1 [|c2 [|]]]]; try done;
    injection Hd as <-; apply wf_poly_psub; apply wf_poly_pmul.
Qed.

Lemma pdiv_int_pscale (k : Qc) (a : poly) (n : Z) :
  wf_poly a -> pdiv_int (pscale k a) n = pmul (pconst k) (pdiv_int a n).
Proof.
  intros Ha. unfold pdiv_int. apply peq_eq.
  - by do 2 apply wf_poly_pscale.
  - apply wf_poly_pmul.
  - rewrite !pscale_pmul_pconst. ring.
Qed.

Lemma binary_quartic_pscale (ngens : nat) (k : Qc) (delta : poly) (x : var)
    (y : option var) (Q : BinaryQuartic poly) :
  wf_poly delta ->
  binary_quartic ngens delta x y = OK Q ->
  binary_quartic ngens (pscale k delta) x y = OK (scale_quartic (pconst k) Q).
Proof.
  intros Hwf. unfold binary_quartic.
  destruct y as [y|]; intros (r & Hr & HQ)%bind_OK.
  all: pose proof (extract_coefficients_OK_gens _ _ _ _ _ Hr) as HV.
  all: pose proof (extract_coefficients_OK_wf _ _ _ _ _ Hwf Hr) as Hwfr.
  all: rewrite (extract_coefficients_pscale _ k _ _ _ r Hwf HV Hr), bind_OK_l.
  all: do 6 (destruct r as [|? r]; try done).
  all: injection HQ as <-.
  all: rewrite !list.Forall_cons in Hwfr; destruct_and!.
  all: unfold scale_quartic; cbn [fmap list_fmap e0 e1 e2 e3 e4].
  all: by rewrite !pdiv_int_pscale, !pscale_pmul_pconst_L by done.
Qed.

(** [EisensteinD] is homogeneous of degree 2 and [EisensteinE] of
    degree 3. *)
Lemma EisensteinD_homogeneous (t : poly) (Q : BinaryQuartic poly) :
  EisensteinD padd pmul psub pinj (scale_quartic t Q)
  = pmul (ppow t 2) (EisensteinD padd pmul psub pinj Q).
Proof.
  apply peq_eq; unfold scale_quartic; expose; [wf_tac..|ring].
Qed.

Lemma EisensteinE_homogeneous (t : poly) (Q : BinaryQuartic poly) :
  EisensteinE padd pmul psub pinj (scale_quartic t Q)
  = pmul (ppow t 3) (EisensteinE padd pmul psub pinj Q).
Proof.
  apply peq_eq; unfold scale_quartic; expose; [wf_tac..|ring].
Qed.

Lemma wf_EisensteinD (Q : BinaryQuartic poly) :
  wf_poly (EisensteinD padd pmul psub pinj Q).
Proof. expose. wf_tac. Qed.

Lemma wf_EisensteinE (Q : BinaryQuartic poly) :
  wf_poly (EisensteinE padd pmul psub pinj Q).
Proof. expose. wf_tac. Qed.

Lemma quartic_f_scale (a : Qc) (D : poly) :
  wf_poly D ->
  pdiv_int (pneg (pmul (pconst a) D)) 4 = pscale a (pdiv_int (pneg D) 4).
Proof.
  intros HD. unfold pdiv_int. apply peq_eq.
  - apply wf_poly_pscale, wf_poly_pneg, wf_poly_pmul.
  - by apply wf_poly_pscale, wf_poly_pscale, wf_poly_pneg.
  - rewrite !pscale_pmul_pconst. ring.
Qed.

Lemma quartic_g_scale (a : Qc) (E : poly) :
  wf_poly E ->
  pdiv_int (pneg (pneg (pmul (pconst a) E))) 4
  = pscale a (pdiv_int (pneg (pneg E)) 4).
Proof.
  intros HE. unfold pdiv_int. apply peq_eq.
  - apply wf_poly_pscale, wf_poly_pneg, wf_poly_pneg, wf_poly_pmul.
  - by apply wf_poly_pscale, wf_poly_pscale, wf_poly_pneg, wf_poly_pneg.
  - rewrite !pscale_pmul_pconst. ring.
Qed.

(** From the partial discriminant on, both quartic reducers run the same
    steps. *)
Lemma quartic_steps_pscale (ngens : nat) (c : Qc) (p : poly) (x s : var)
    (y t : option var) (f g : poly) :
  wf_poly p ->
  (delta ← _partial_discriminant ngens p s t;
   Q ← binary_quartic ngens delta x y;
   OK (pdiv_int (pneg (EisensteinD padd pmul psub pinj Q)) 4,
       pdiv_int (pneg (pneg (EisensteinE padd pmul psub pinj Q))) 4))
  = OK (f, g) ->
  (delta ← _partial_discriminant ngens (pscale c p) s t;
   Q ← binary_quartic ngens delta x y;
   OK (pdiv_int (pneg (EisensteinD padd pmul psub pinj Q)) 4,
       pdiv_int (pneg (pneg (EisensteinE padd pmul psub pinj Q))) 4))
  = OK (pscale (c * c * c * c) f, pscale (c * c * c * c * c * c) g).
Proof.
  intros Hwf (delta & Hdelta & (Q & HQ & Hfg)%bind_OK)%bind_OK.
  destruct (partial_discriminant_OK_gens _ _ _ _ _ Hdelta) as [Hs Ht].
  pose proof (partial_discriminant_OK_wf _ _ _ _ _ Hdelta) as Hwfd.
  rewrite (partial_discriminant_pscale _ c _ _ _ _ Hwf Hs Ht Hdelta), bind_OK_l.
  rewrite (binary_quartic_pscale _ (c * c) _ _ _ _ Hwfd HQ), bind_OK_l.
  injection Hfg as <- <-.
  rewrite EisensteinD_homogeneous, EisensteinE_homogeneous.
  rewrite ppow_pconst_2, ppow_pconst_3.
  rewrite (quartic_f_scale _ _ (wf_EisensteinD Q)).
  rewrite (quartic_g_scale _ _ (wf_EisensteinE Q)).
  do 3 f_equal; ring.
Qed.

Lemma WeierstrassForm_P1xP1_pscale (ngens : nat) (c : Qc) (p : poly)
    (vs : list var) (f g : poly) :
  wf_poly p ->
  WeierstrassForm_P1xP1 ngens p (Some vs) = OK (f, g) ->
  WeierstrassForm_P1xP1 ngens (pscale c p) (Some vs)
  = OK (pscale (c * c * c * c) f, pscale (c * c * c * c * c * c) g).
Proof.
  intros Hwf. unfold WeierstrassForm_P1xP1.
  intros ([[[x y] s] t] & Hchk & Hrest)%bind_OK.
  rewrite (check_polynomial_P1xP1_pscale _ c _ _ _ Hchk), bind_OK_l.
  cbv beta iota. by apply quartic_steps_pscale.
Qed.

Lemma WeierstrassForm_P2_112_pscale (ngens : nat) (c : Qc) (p : poly)
    (vs : list var) (f g : poly) :
  wf_poly p ->
  WeierstrassForm_P2_112 ngens p (Some vs) = OK (f, g) ->
  WeierstrassForm_P2_112 ngens (pscale c p) (Some vs)
  = OK (pscale (c * c * c * c) f, pscale (c * c * c * c * c * c) g).
Proof.
  intros Hwf. unfold WeierstrassForm_P2_112.
  intros ([[[x y] z] t] & Hchk & Hrest)%bind_OK.
  rewrite (check_polynomial_P2_112_pscale _ c _ _ _ Hchk), bind_OK_l.
  cbv beta iota. by apply quartic_steps_pscale.
Qed.



(** ** Scaling through the whole pipeline *)

Lemma pscale_padd (c : Qc) (x y : poly) :
  c <> 0 -> pscale c (padd x y) = padd (pscale c x) (pscale c y).
Proof.
  intros Hc. apply map_eq. intros k. unfold pscale.
  rewrite !decide_False by done.
  rewrite lookup_fmap, !lookup_padd, !lookup_fmap.
  destruct (x !! k) as [a|], (y !! k) as [b|]; simpl; try done.
  destruct (decide (a + b = 0)) as [H0|H0].
  - rewrite decide_True; [done|].
    rewrite <- Qcmult_plus_distr_r, H0. ring.
  - rewrite decide_False.
    + simpl. f_equal. ring.
    + rewrite <- Qcmult_plus_distr_r. by intros [?|?]%Qcmult_integral.
Qed.

Lemma pscale_pscale (a b : Qc) (x : poly) :
  a <> 0 -> b <> 0 -> pscale a (pscale b x) = pscale (a * b) x.
Proof.
  intros Ha Hb. unfold pscale. rewrite !decide_False; [|by intros [?|?]%Qcmult_integral|done..].
  apply map_eq. intros k. rewrite !lookup_fmap.
  destruct (x !! k); simpl; [|done]. f_equal. ring.
Qed.

Lemma dget_fmap_pscale (c : Qc) (r : pdict) (v : list nat) :
  dget (pscale c <$> r) v = pscale c (dget r v).
Proof.
  unfold dget. rewrite lookup_fmap.
  destruct (r !! v); simpl; [done|]. by rewrite pscale_empty.
Qed.

Lemma support_fold_pscale (V : list var) (c : Qc) (p : poly) :
  c <> 0 -> wf_poly p ->
  map_fold (support_step V V) ∅ (pscale c p)
  = pscale c <$> map_fold (support_step V V) ∅ p.
Proof.
  intros Hc. unfold pscale at 1. rewrite decide_False by done.
  rewrite map_fold_fmap.
  induction p as [|m a p Hm Hfirst IH] using map_first_key_ind; intros Hwf.
  - by rewrite !map_fold_empty, fmap_empty.
  - apply wf_poly_insert in Hwf as [Ha Hwf]; [|done].
    rewrite !map_fold_insert_first_key by done.
    rewrite (IH Hwf). unfold compose, support_step.
    rewrite fmap_insert. f_equal.
    rewrite dget_fmap_pscale, pscale_padd by done.
    by rewrite pscale_pscale by done.
Qed.

Lemma Newton_polytope_vars_coeffs_pscale (ngens : nat) (c : Qc) (p : poly)
    (V : list var) (d : pdict) :
  c <> 0 -> wf_poly p ->
  Newton_polytope_vars_coeffs ngens p V = OK d ->
  Newton_polytope_vars_coeffs ngens (pscale c p) V = OK (pscale c <$> d).
Proof.
  intros Hc Hwf Hd.
  assert (HV : Forall (fun x => (x < ngens)%nat) V).
  { unfold Newton_polytope_vars_coeffs in Hd.
    apply bind_OK in Hd as (idx & Hidx & _).
    by apply (mapM_gens_index_Forall _ _ idx). }
  apply Newton_polytope_vars_coeffs_OK in Hd as ->.
  rewrite (Newton_polytope_vars_coeffs_total _ _ _ HV).
  by rewrite support_fold_pscale.
Qed.

Lemma embed_step_pscale (c : Qc) (q X Y : poly) :
  pmul (pmul (pscale c q) X) Y = pscale c (pmul (pmul q X) Y).
Proof.
  apply peq_eq; [apply wf_poly_pmul|apply wf_poly_pscale, wf_poly_pmul|].
  rewrite !pscale_pmul_pconst. ring.
Qed.

Lemma embedded_pscale (c : Qc) (x y : var)
    (embedding : list nat -> nat * nat) (d : pdict) :
  c <> 0 ->
  map_fold (fun e q acc =>
              let e_embed := embedding e in
              padd acc (pmul (pmul q (pterm 1 (var_pow x e_embed.1)))
                             (pterm 1 (var_pow y e_embed.2))))
           pzero (pscale c <$> d)
  = pscale c
      (map_fold (fun e q acc =>
                   let e_embed := embedding e in
                   padd acc (pmul (pmul q (pterm 1 (var_pow x e_embed.1)))
                                  (pterm 1 (var_pow y e_embed.2))))
                pzero d).
Proof.
  intros Hc. rewrite map_fold_fmap.
  induction d as [|e q d He Hfirst IH] using map_first_key_ind.
  - rewrite !map_fold_empty. unfold pzero. by rewrite pscale_empty.
  - rewrite !map_fold_insert_first_key by done.
    rewrite IH. unfold compose. cbv zeta.
    by rewrite embed_step_pscale, pscale_padd.
Qed.

Lemma embedded_wf (x y : var) (embedding : list nat -> nat * nat)
    (d : pdict) :
  wf_poly
    (map_fold (fun e q acc =>
                 let e_embed := embedding e in
                 padd acc (pmul (pmul q (pterm 1 (var_pow x e_embed.1)))
                                (pterm 1 (var_pow y e_embed.2))))
              pzero d).
Proof.
  apply (map_fold_weak_ind (fun acc _ => wf_poly acc)).
  - apply wf_poly_empty.
  - intros e q d' acc _ IH. cbv zeta. apply wf_poly_padd; [done|].
    apply wf_poly_pmul.
Qed.

Lemma default_variables_pscale (ngens : nat) (c : Qc) (p : poly)
    (variables : option (list var)) :
  c <> 0 ->
  default_variables ngens (pscale c p) variables
  = default_variables ngens p variables.
Proof.
  intros Hc. destruct variables as [vs|]; [done|]. simpl.
  unfold poly_variables. apply list_filter_iff. intros x.
  unfold pscale. rewrite decide_False by done. by rewrite dom_fmap_L.
Qed.

Section Scaling.
Variable classify :
list (list nat) -> option (family * (list nat -> nat * nat)).
Variable WeierstrassForm2 :
nat -> list poly -> option (list var) -> bool -> result output.
Variable WeierstrassMap : nat -> poly -> option (list var) -> result output.

Lemma Newton_polygon_embedded_pscale (ngens : nat) (c : Qc) (p : poly)
  (V : list var) (F : family) (q : poly) (xy : list var) :
c <> 0 -> wf_poly p ->
Newton_polygon_embedded classify ngens p V = OK (F, q, xy) ->
Newton_polygon_embedded classify ngens (pscale c p) V
= OK (F, pscale c q, xy) /\ wf_poly q.
Proof.
intros Hc Hwf. unfold Newton_polygon_embedded.
intros (d & Hd & Hrest)%bind_OK.
rewrite (Newton_polytope_vars_coeffs_pscale _ c _ _ _ Hc Hwf Hd), bind_OK_l.
rewrite map_to_list_fmap, <- list_fmap_compose.
rewrite (list_fmap_ext (fst ∘ prod_map id (pscale c)) fst)
  by (by intros ? [? ?]).
destruct (classify _) as [[polygon embedding]|]; [|done].
destruct V as [|x [|y rest]]; [done..|].
injection Hrest as <- <- <-. split; [|apply embedded_wf].
by rewrite embedded_pscale.
Qed.

Lemma WeierstrassForm_pscale (ngens : nat) (c : Qc) (p : poly)
  (variables : option (list var)) (f g : poly) :
c <> 0 -> wf_poly p ->
WeierstrassForm classify WeierstrassForm2 WeierstrassMap
  ngens (Single p) variables false = OK (Coefficients f g) ->
WeierstrassForm classify WeierstrassForm2 WeierstrassMap
  ngens (Single (pscale c p)) variables false
= OK (Coefficients (pscale (c * c * c * c) f)
                   (pscale (c * c * c * c * c * c) g)).
Proof.
intros Hc Hwf. unfold WeierstrassForm.
rewrite default_variables_pscale by done.
intros ([[F q] xy] & Hemb & ([f' g'] & Hred & [= <- <-])%bind_OK)%bind_OK.
destruct (Newton_polygon_embedded_pscale _ c _ _ _ _ _ Hc Hwf Hemb)
  as [-> Hwfq].
rewrite bind_OK_l. cbv beta iota.
destruct F.
- by rewrite (WeierstrassForm_P2_pscale _ c _ _ _ _ Hwfq Hred).
- by rewrite (WeierstrassForm_P1xP1_pscale _ c _ _ _ _ Hwfq Hred).
- by rewrite (WeierstrassForm_P2_112_pscale _ c _ _ _ _ Hwfq Hred).
Qed.

(** X23: scaling the polynomial by a constant [c] that is not zero leaves
  the classification alone and gives [WeierstrassForm] the pair
  [(c^4 f, c^6 g)] for [(f, g)]. *)
Theorem WeierstrassForm_scale (ngens : nat) (c : Qc) (p : poly)
  (variables : option (list var)) (f g : poly) :
c <> 0 -> wf_poly p ->
WeierstrassForm classify WeierstrassForm2 WeierstrassMap
  ngens (Single p) variables false = OK (Coefficients f g) ->
WeierstrassForm classify WeierstrassForm2 WeierstrassMap
  ngens (Single (pscale c p)) variables false
= OK (Coefficients (pscale (c * c * c * c) f)
                   (pscale (c * c * c * c * c * c) g)).
Proof. intros Hc Hwf Hfg. by apply WeierstrassForm_pscale. Qed.
End Scaling.

Lemma WeierstrassForm_scale_witness :
  WeierstrassForm cubic_classifier no_WeierstrassForm2 no_WeierstrassMap
    2 (Single (pscale (Q2Qc 2) affine_fermat_cubic)) None false
  = OK (Coefficients
          (pscale (Q2Qc 2 * Q2Qc 2 * Q2Qc 2 * Q2Qc 2) pzero)
          (pscale (Q2Qc 2 * Q2Qc 2 * Q2Qc 2 * Q2Qc 2 * Q2Qc 2 * Q2Qc 2)
                  (pconst (Q2Qc (-27 # 4))))).
Proof.
  apply (WeierstrassForm_scale cubic_classifier no_WeierstrassForm2
           no_WeierstrassMap 2 (Q2Qc 2) affine_fermat_cubic None).
  - by_evaluation.
  - by_evaluation.
  - by_evaluation.
Defined.

(** ** The discriminant and the j-invariant of a multiple *)

Lemma Qc_mul_nonzero (a b : Qc) : a <> 0 -> b <> 0 -> a * b <> 0.
Proof. intros Ha Hb [?|?]%Qcmult_integral; done. Qed.

Lemma pscale_nonzero (c : Qc) (x : poly) :
  c <> 0 -> x <> pzero -> pscale c x <> pzero.
Proof. intros Hc Hx H0. apply Hx. by apply (pscale_eq_empty c). Qed.

Lemma discriminant_of_scale (c : Qc) (f g : poly) :
  discriminant_of (pscale (c * c * c * c) f)
                  (pscale (c * c * c * c * c * c) g)
  = pscale (c * c * c * c * c * c * c * c * c * c * c * c)
           (discriminant_of f g).
Proof.
  unfold discriminant_of. cbv beta iota delta [ppow]. apply peq_eq.
  - apply wf_poly_padd; apply wf_poly_pscale, wf_poly_pmul.
  - apply wf_poly_pscale, wf_poly_padd; apply wf_poly_pscale, wf_poly_pmul.
  - rewrite !pscale_pmul_pconst, !pconst_mul. ring.
Qed.

Lemma numerator_scale (k c : Qc) (f : poly) :
  pscale k (ppow (pscale (c * c * c * c) f) 3)
  = pscale (c * c * c * c * c * c * c * c * c * c * c * c)
           (pscale k (ppow f 3)).
Proof.
  cbv beta iota delta [ppow]. apply peq_eq.
  - apply wf_poly_pscale, wf_poly_pmul.
  - apply wf_poly_pscale, wf_poly_pscale, wf_poly_pmul.
  - rewrite !pscale_pmul_pconst, !pconst_mul. ring.
Qed.

Lemma pmul_pscale_across (k : Qc) (a d : poly) :
  pmul (pscale k a) d = pmul a (pscale k d).
Proof.
  apply peq_eq; [apply wf_poly_pmul..|].
  rewrite !pscale_pmul_pconst. ring.
Qed.

Section ScalingInvariants.
Variable classify :
list (list nat) -> option (family * (list nat -> nat * nat)).
Variable WeierstrassForm2 :
nat -> list poly -> option (list var) -> bool -> result output.
Variable WeierstrassMap : nat -> poly -> option (list var) -> result output.

(** X24: for a constant [c] that is not zero, the discriminant of
  [c * polynomial] is [c^12] times the discriminant of the polynomial, and
  the j-invariant is the same: a fraction equal to the one of the
  polynomial (the products across are equal, the denominators not zero),
  or [+Infinity] again. *)
Theorem Discriminant_j_invariant_scale (ngens : nat) (c : Qc) (p : poly)
  (variables : option (list var)) :
c <> 0 -> wf_poly p ->
let c12 := c * c * c * c * c * c * c * c * c * c * c * c in
(forall delta,
   Discriminant classify WeierstrassForm2 WeierstrassMap
     ngens (Single p) variables = OK delta ->
   Discriminant classify WeierstrassForm2 WeierstrassMap
     ngens (Single (pscale c p)) variables = OK (pscale c12 delta)) /\
(forall num den,
   j_invariant classify WeierstrassForm2 WeierstrassMap
     ngens (Single p) variables = OK (Quotient num den) ->
   exists num' den',
     j_invariant classify WeierstrassForm2 WeierstrassMap
       ngens (Single (pscale c p)) variables
     = OK (Quotient num' den') /\
     den <> pzero /\ den' <> pzero /\ pmul num' den = pmul num den') /\
(j_invariant classify WeierstrassForm2 WeierstrassMap
   ngens (Single p) variables = OK Infinity ->
 j_invariant classify WeierstrassForm2 WeierstrassMap
   ngens (Single (pscale c p)) variables = OK Infinity).
Proof.
intros Hc Hwf c12.
assert (Hc4 : c * c * c * c <> 0) by (by repeat apply Qc_mul_nonzero).
assert (Hc12 : c12 <> 0) by (by repeat apply Qc_mul_nonzero).
unfold Discriminant, j_invariant.
destruct (WeierstrassForm classify WeierstrassForm2 WeierstrassMap
            ngens (Single p) variables false) as [[f g|X Y Z]|e] eqn:E;
  rewrite ?bind_OK_l, ?bind_Raise_l; [|by repeat split..].
rewrite (WeierstrassForm_pscale _ _ _ _ c _ _ _ _ Hc Hwf E), !bind_OK_l.
cbv beta iota zeta. rewrite discriminant_of_scale. fold c12.
split; [|split].
- by intros delta [= <-].
- intros num den.
  destruct (decide (discriminant_of f g <> pzero)) as [Hd|Hd].
  + intros [= <- <-]. rewrite decide_True by by apply pscale_nonzero.
    rewrite numerator_scale. eexists _, _. split; [done|].
    split; [done|]. split; [by apply pscale_nonzero|].
    apply pmul_pscale_across.
  + by destruct (decide (f <> pzero)).
- destruct (decide (discriminant_of f g <> pzero)) as [Hd|Hd]; [done|].
  destruct (decide (f <> pzero)) as [Hf|Hf]; [|done]. intros _.
  assert (Hz : discriminant_of f g = pzero)
    by by destruct (decide (discriminant_of f g = pzero)).
  assert (Hz' : pscale c12 (discriminant_of f g) = pzero)
    by (rewrite Hz; apply pscale_empty).
  rewrite Hz'. rewrite decide_False by (by intros Hn; apply Hn).
  rewrite decide_True; [done|]. by apply pscale_nonzero.
Qed.
End ScalingInvariants.

Lemma Discriminant_j_invariant_scale_witness :
  let c12 := Q2Qc 2 * Q2Qc 2 * Q2Qc 2 * Q2Qc 2 * Q2Qc 2 * Q2Qc 2
             * Q2Qc 2 * Q2Qc 2 * Q2Qc 2 * Q2Qc 2 * Q2Qc 2 * Q2Qc 2 in
  (forall delta,
     Discriminant cubic_classifier no_WeierstrassForm2 no_WeierstrassMap
       2 (Single nodal_cubic) None = OK delta ->
     Discriminant cubic_classifier no_WeierstrassForm2 no_WeierstrassMap
       2 (Single (pscale (Q2Qc 2) nodal_cubic)) None
     = OK (pscale c12 delta)) /\
  (forall num den,
     j_invariant cubic_classifier no_WeierstrassForm2 no_WeierstrassMap
       2 (Single nodal_cubic) None = OK (Quotient num den) ->
     exists num' den',
       j_invariant cubic_classifier no_WeierstrassForm2 no_WeierstrassMap
         2 (Single (pscale (Q2Qc 2) nodal_cubic)) None
       = OK (Quotient num' den') /\
       den <> pzero /\ den' <> pzero /\ pmul num' den = pmul num den') /\
  (j_invariant cubic_classifier no_WeierstrassForm2 no_WeierstrassMap
     2 (Single nodal_cubic) None = OK Infinity ->
   j_invariant cubic_classifier no_WeierstrassForm2 no_WeierstrassMap
     2 (Single (pscale (Q2Qc 2) nodal_cubic)) None = OK Infinity).
Proof.
  apply (Discriminant_j_invariant_scale cubic_classifier no_WeierstrassForm2
           no_WeierstrassMap 2 (Q2Qc 2) nodal_cubic None).
  - by_evaluation.
  - by_evaluation.
Defined.
